(** * The in-memory Redis client of claude-relay-service

    A shallow embedding of [src/models/redis.js]: the class
    [MemoryRedisClient] (five JavaScript [Map]s and the Redis-style methods
    over them), the concurrency leases, the sticky-session mapping, the
    account lock and the usage / cost counters built on top of it.

    Conventions of the embedding.
    - JavaScript numbers are integers ([Z]); [NaN] is kept where the code can
      produce it from a string ([Js.num]).  The integers stand for the
      doubles of the code where these are exact: [parseInt], [+] and
      [String] are those of the code as long as the numbers that occur are
      safe integers ([Js.isSafeInteger], below [2^53] in absolute value), and
      the theorems on counters carry that range as a hypothesis.  Cost
      amounts, the only genuine floating-point data, stay abstract
      ([FloatArith]).
    - A string is the UTF-8 text of the JavaScript string.
    - [Date.now()] is the argument [now] (epoch milliseconds); one call of a
      method sees one value of the clock.
    - A method is a function from the client's state to a result and the next
      state.  The methods that guard their body with [try]/[catch] are written
      over the method table of their receiver ([Methods]), whose entries may
      throw; [memoryRedisClient] is the table of the class itself.
    - Calls of [logger] have no effect on the modelled state and are left out,
      as is the field [isConnected], which no modelled method reads. *)

From stdpp Require Import gmap list fin_maps pretty strings.
From Stdlib Require Import ZArith Lia Ascii String.

Open Scope Z_scope.

(** ** JavaScript helpers *)

Module Js.

(** A number that may be [NaN]. *)
Inductive num := Int (z : Z) | NaN.

#[global] Instance num_eq_dec : EqDecision num.
Proof. solve_decision. Defined.

Definition add (a b : num) : num :=
  match a, b with
  | Int x, Int y => Int (x + y)
  | _, _ => NaN
  end.

(** [a <= b]; every comparison with [NaN] is false. *)
Definition leb (a b : num) : bool :=
  match a, b with
  | Int x, Int y => x <=? y
  | _, _ => false
  end.

(** [n || 0] for a number: [NaN] and [0] are falsy. *)
Definition or0 (n : num) : Z :=
  match n with
  | Int z => z
  | NaN => 0
  end.

(** [a || b] for numbers. *)
Definition or (a b : Z) : Z := if a =? 0 then b else a.

(** [a || b] where [a] may be [undefined] or [null]. *)
Definition or_opt (a : option Z) (b : Z) : Z :=
  match a with
  | Some z => or z b
  | None => b
  end.

(** Truthiness of a string: only the empty string is falsy. *)
Definition truthy (s : string) : bool := negb (String.eqb s "").

(** [Math.ceil(a / b)] for integers and [b > 0]. *)
Definition ceil_div (a b : Z) : Z := - ((- a) / b).

(** [String(n)] for an integer: its decimal digits, which is what the code
    prints for a safe integer. *)
Definition toString (n : Z) : string := pretty n.

Fixpoint repeat_char (n : nat) (c : ascii) : string :=
  match n with
  | O => EmptyString
  | S n' => String c (repeat_char n' c)
  end.

(** [s.padStart(n, c)] for a one-character pad string. *)
Definition padStart (n : nat) (c : ascii) (s : string) : string :=
  repeat_char (n - String.length s) c +:+ s.

(** [Number.MAX_SAFE_INTEGER] and [Number.isSafeInteger]: the integers that
    a double holds exactly, together with their neighbours. *)
Definition MAX_SAFE_INTEGER : Z := 2 ^ 53 - 1.

Definition isSafeInteger (n : Z) : bool :=
  (- MAX_SAFE_INTEGER <=? n) && (n <=? MAX_SAFE_INTEGER).

(** *** [parseInt] without a radix *)

(** The white space and the line terminators [parseInt] skips.  Those of
    one byte: TAB, LF, VT, FF, CR and the space. *)
Definition is_space (c : ascii) : bool :=
  let n := nat_of_ascii c in
  (Nat.eqb n 32 || (Nat.leb 9 n && Nat.leb n 13))%bool.

(** Of two bytes: U+00A0, the no-break space. *)
Definition is_space2 (c1 c2 : ascii) : bool :=
  (Nat.eqb (nat_of_ascii c1) 194 && Nat.eqb (nat_of_ascii c2) 160)%bool.

(** Of three bytes: U+1680, U+2000 to U+200A, U+2028, U+2029, U+202F, U+205F,
    U+3000 and U+FEFF. *)
Definition is_space3 (c1 c2 c3 : ascii) : bool :=
  let a := nat_of_ascii c1 in
  let b := nat_of_ascii c2 in
  let c := nat_of_ascii c3 in
  (Nat.eqb a 225 && (Nat.eqb b 154 && Nat.eqb c 128)
   || Nat.eqb a 226
      && (Nat.eqb b 128
          && (Nat.leb 128 c && Nat.leb c 138
              || Nat.eqb c 168 || Nat.eqb c 169 || Nat.eqb c 175)
          || Nat.eqb b 129 && Nat.eqb c 159)
   || Nat.eqb a 227 && (Nat.eqb b 128 && Nat.eqb c 128)
   || Nat.eqb a 239 && (Nat.eqb b 187 && Nat.eqb c 191))%bool.

Fixpoint skip_spaces (s : string) : string :=
  match s with
  | String c1 r1 =>
      if is_space c1 then skip_spaces r1
      else
        match r1 with
        | String c2 r2 =>
            if is_space2 c1 c2 then skip_spaces r2
            else
              match r2 with
              | String c3 r3 => if is_space3 c1 c2 c3 then skip_spaces r3 else s
              | EmptyString => s
              end
        | EmptyString => s
        end
  | EmptyString => s
  end.

Definition digit_value (radix : Z) (c : ascii) : option Z :=
  let n := Z.of_nat (nat_of_ascii c) in
  let v :=
    if (48 <=? n) && (n <=? 57) then Some (n - 48)
    else if (97 <=? n) && (n <=? 122) then Some (n - 87)
    else if (65 <=? n) && (n <=? 90) then Some (n - 55)
    else None in
  match v with
  | Some d => if d <? radix then Some d else None
  | None => None
  end.

(** The value of the longest prefix of digits, [None] when there is none. *)
Fixpoint digits (radix : Z) (acc : option Z) (s : string) : option Z :=
  match s with
  | String c r =>
      match digit_value radix c with
      | Some d => digits radix (Some (default 0 acc * radix + d)) r
      | None => acc
      end
  | EmptyString => acc
  end.

(** The integer a string starts with: optional blanks and sign, then digits;
    [hex] says whether a [0x] prefix switches to radix 16. *)
Definition parse_integer (hex : bool) (s : string) : num :=
  let s := skip_spaces s in
  let '(negative, s) :=
    match s with
    | String "-" r => (true, r)
    | String "+" r => (false, r)
    | _ => (false, s)
    end in
  let '(radix, s) :=
    match s with
    | String "0" (String "x" r) => if hex then (16, r) else (10, s)
    | String "0" (String "X" r) => if hex then (16, r) else (10, s)
    | _ => (10, s)
    end in
  match digits radix None s with
  | Some n => Int (if negative : bool then - n else n)
  | None => NaN
  end.

(** [parseInt(s)]: the integer the text denotes, which is the double the
    code gets when it is a safe integer. *)
Definition parseInt (s : string) : num := parse_integer true s.

(** [parseInt(v)] where [v] may be [null] or [undefined]. *)
Definition parseInt_opt (v : option string) : num :=
  match v with
  | Some s => parseInt s
  | None => NaN
  end.

End Js.

(** ** The state of the client: [this.store], [this.ttls], [this.hashes],
    [this.lists] and [this.zsets] *)

Record MemoryRedisClient := mkClient {
  store : gmap string string;
  ttls : gmap string Js.num;
  hashes : gmap string (gmap string string);
  lists : gmap string (list string);
  zsets : gmap string (gmap string Z);
}.

(** The state the constructor builds. *)
Definition new_client : MemoryRedisClient := mkClient ∅ ∅ ∅ ∅ ∅.

Definition with_store (f : gmap string string → gmap string string)
    (this : MemoryRedisClient) : MemoryRedisClient :=
  mkClient (f (store this)) (ttls this) (hashes this) (lists this) (zsets this).

Definition with_ttls (f : gmap string Js.num → gmap string Js.num)
    (this : MemoryRedisClient) : MemoryRedisClient :=
  mkClient (store this) (f (ttls this)) (hashes this) (lists this) (zsets this).

Definition with_hashes
    (f : gmap string (gmap string string) → gmap string (gmap string string))
    (this : MemoryRedisClient) : MemoryRedisClient :=
  mkClient (store this) (ttls this) (f (hashes this)) (lists this) (zsets this).

Definition with_lists
    (f : gmap string (list string) → gmap string (list string))
    (this : MemoryRedisClient) : MemoryRedisClient :=
  mkClient (store this) (ttls this) (hashes this) (f (lists this)) (zsets this).

Definition with_zsets
    (f : gmap string (gmap string Z) → gmap string (gmap string Z))
    (this : MemoryRedisClient) : MemoryRedisClient :=
  mkClient (store this) (ttls this) (hashes this) (lists this) (f (zsets this)).

(** [Map.has]. *)
Definition has {V} (m : gmap string V) (key : string) : bool :=
  bool_decide (is_Some (m !! key)).

(** The test [expire] and [ttl] make: the key is in one of the four
    structures. *)
Definition exists_key (this : MemoryRedisClient) (key : string) : bool :=
  has (store this) key || has (hashes this) key
  || has (lists this) key || has (zsets this) key.

(** ** Basic operations *)

Definition _isExpired (this : MemoryRedisClient) (now : Z) (key : string) : bool :=
  match ttls this !! key with
  | None => false
  | Some t => Js.leb t (Js.Int now)
  end.

Definition _setExpiry (this : MemoryRedisClient) (now : Z) (key : string)
    (seconds : Js.num) : MemoryRedisClient :=
  match seconds with
  | Js.Int sec =>
      if 0 <? sec then with_ttls <[key := Js.Int (now + sec * 1000)]> this else this
  | Js.NaN => this
  end.

(** [get]: an expired key is purged from [store] and [ttls]; a falsy stored
    value reads as [null]. *)
Definition get (this : MemoryRedisClient) (now : Z) (key : string)
    : option string * MemoryRedisClient :=
  if _isExpired this now key then
    (None, with_ttls (delete key) (with_store (delete key) this))
  else
    (match store this !! key with
     | Some v => if Js.truthy v then Some v else None
     | None => None
     end, this).

(** An element of the rest arguments of [set]. *)
Inductive arg := AStr (s : string) | ANum (n : Z).

Definition arg_is (a : arg) (token : string) : bool :=
  match a with
  | AStr s => String.eqb s token
  | ANum _ => false
  end.

(** Truthiness of [args[i + 1]]; out of range it is [undefined]. *)
Definition arg_truthy (a : option arg) : bool :=
  match a with
  | Some (AStr s) => Js.truthy s
  | Some (ANum n) => negb (n =? 0)
  | None => false
  end.

Definition arg_parseInt (a : option arg) : Js.num :=
  match a with
  | Some (AStr s) => Js.parseInt s
  | Some (ANum n) => Js.Int n
  | None => Js.NaN
  end.

(** The loop of [set] over [args], from index [i] on ([args] is the slice
    that starts at [i]).  The value has been written before the loop runs. *)
Fixpoint set_options (this : MemoryRedisClient) (now : Z) (key value : string)
    (args : list arg) : option string * MemoryRedisClient :=
  match args with
  | [] => (Some "OK", this)
  | a :: rest =>
      if arg_is a "EX" && arg_truthy (head rest) then
        set_options (_setExpiry this now key (arg_parseInt (head rest)))
          now key value rest
      else if arg_is a "PX" && arg_truthy (head rest) then
        set_options
          (with_ttls <[key := Js.add (Js.Int now) (arg_parseInt (head rest))]> this)
          now key value rest
      else if arg_is a "NX" then
        if has (store this) key && negb (_isExpired this now key) then (None, this)
        else (Some "OK", with_store <[key := value]> this)
      else set_options this now key value rest
  end.

(** [set(key, value, ...args)]: ['OK'] or [null]. *)
Definition set (this : MemoryRedisClient) (now : Z) (key value : string)
    (args : list arg) : option string * MemoryRedisClient :=
  set_options (with_store <[key := value]> this) now key value args.

Definition setex (this : MemoryRedisClient) (now : Z) (key : string) (ttl : Z)
    (value : string) : string * MemoryRedisClient :=
  ("OK", _setExpiry (with_store <[key := value]> this) now key (Js.Int ttl)).

(** One turn of the loop of [del]. *)
Definition del_key (acc : Z * MemoryRedisClient) (key : string)
    : Z * MemoryRedisClient :=
  let '(deleted, this) := acc in
  (if has (store this) key then deleted + 1 else deleted,
   with_ttls (delete key)
     (with_zsets (delete key)
        (with_lists (delete key)
           (with_hashes (delete key) (with_store (delete key) this))))).

Definition del (this : MemoryRedisClient) (keys : list string)
    : Z * MemoryRedisClient :=
  fold_left del_key keys (0, this).

(** The keys [keys(pattern)] filters: those of the four structures. *)
Definition allKeys (this : MemoryRedisClient) : gset string :=
  dom (store this) ∪ dom (hashes this) ∪ dom (lists this) ∪ dom (zsets this).

(** [keys(pattern)], up to the order of the result; [regex_test pattern key]
    stands for the [RegExp] built from [pattern]. *)
Definition keys (regex_test : string → string → bool) (this : MemoryRedisClient)
    (now : Z) (pattern : string) : list string :=
  filter (λ key, negb (_isExpired this now key) && regex_test pattern key = true)
    (elements (allKeys this)).

Definition expire (this : MemoryRedisClient) (now : Z) (key : string)
    (seconds : Js.num) : Z * MemoryRedisClient :=
  if negb (exists_key this key) then (0, this)
  else (1, _setExpiry this now key seconds).

(** [ttl]: [-2] absent or expired, [-1] no expiry, else the remaining
    seconds, rounded up. *)
Definition ttl (this : MemoryRedisClient) (now : Z) (key : string) : Z :=
  match ttls this !! key with
  | None => if negb (exists_key this key) then -2 else -1
  | Some (Js.Int t) =>
      let remaining := Js.ceil_div (t - now) 1000 in
      if 0 <? remaining then remaining else -2
  | Some Js.NaN => -2
  end.

(** [incr]: a key that holds no number counts from [0]; the sum is the one
    the code computes when it is a safe integer. *)
Definition incr (this : MemoryRedisClient) (now : Z) (key : string)
    : Z * MemoryRedisClient :=
  let '(v, this) := get this now key in
  let current := Js.or0 (Js.parseInt_opt v) + 1 in
  let '(_, this) := set this now key (Js.toString current) [] in
  (current, this).

(** ** Hash operations *)

(** [hset(key, field1, value1, ...)]; the values are already strings. *)
Definition hset (this : MemoryRedisClient) (key : string)
    (fields : list (string * string)) : Z * MemoryRedisClient :=
  let hash := default ∅ (hashes this !! key) in
  let hash := fold_left (λ h fv, <[fv.1 := fv.2]> h) fields hash in
  (1, with_hashes <[key := hash]> this).

Definition hget (this : MemoryRedisClient) (now : Z) (key field : string)
    : option string * MemoryRedisClient :=
  if _isExpired this now key then (None, with_hashes (delete key) this)
  else
    (match hashes this !! key with
     | Some hash =>
         match hash !! field with
         | Some v => if Js.truthy v then Some v else None
         | None => None
         end
     | None => None
     end, this).

(** One turn of the loop of [hdel]. *)
Definition hdel_field (acc : Z * gmap string string) (field : string)
    : Z * gmap string string :=
  let '(deleted, hash) := acc in
  (if has hash field then deleted + 1 else deleted, delete field hash).

Definition hdel (this : MemoryRedisClient) (key : string) (fields : list string)
    : Z * MemoryRedisClient :=
  match hashes this !! key with
  | None => (0, this)
  | Some hash =>
      let '(deleted, hash) := fold_left hdel_field fields (0, hash) in
      (deleted, with_hashes <[key := hash]> this)
  end.

(** [hincrby]: an absent or unparsable field counts as [0].  The sum is the
    one the code computes when its terms and it are safe integers. *)
Definition hincrby (this : MemoryRedisClient) (key field : string) (increment : Z)
    : Z * MemoryRedisClient :=
  let hash := default ∅ (hashes this !! key) in
  let current := Js.or0 (Js.parseInt_opt (hash !! field)) in
  let newValue := current + increment in
  (newValue, with_hashes <[key := <[field := Js.toString newValue]> hash]> this).

(** ** Sorted-set operations: a sorted set is a [Map] from member to score *)

(** [zadd(key, score1, member1, ...)]. *)
Definition zadd (this : MemoryRedisClient) (key : string)
    (entries : list (Z * string)) : Z * MemoryRedisClient :=
  let zset := default ∅ (zsets this !! key) in
  let zset := fold_left (λ z sm, <[sm.2 := sm.1]> z) entries zset in
  (1, with_zsets <[key := zset]> this).

(** One turn of the loop of [zrem]. *)
Definition zrem_member (acc : Z * gmap string Z) (member : string)
    : Z * gmap string Z :=
  let '(removed, zset) := acc in
  (if has zset member then removed + 1 else removed, delete member zset).

Definition zrem (this : MemoryRedisClient) (key : string) (members : list string)
    : Z * MemoryRedisClient :=
  match zsets this !! key with
  | None => (0, this)
  | Some zset =>
      let '(removed, zset) := fold_left zrem_member members (0, zset) in
      (removed, with_zsets <[key := zset]> this)
  end.

Definition zcard (this : MemoryRedisClient) (now : Z) (key : string)
    : Z * MemoryRedisClient :=
  if _isExpired this now key then (0, with_zsets (delete key) this)
  else
    (match zsets this !! key with
     | Some zset => Z.of_nat (size zset)
     | None => 0
     end, this).

Definition zscore (this : MemoryRedisClient) (key member : string) : option Z :=
  match zsets this !! key with
  | None => None
  | Some zset => zset !! member
  end.

(** A bound of [zremrangebyscore]: ['-inf'], ['+inf'] or a number. *)
Inductive bound := MinusInf | PlusInf | Score (z : Z).

(** [score >= minScore]: ['-inf'] is [-Infinity]; ['+inf'] in this position
    goes through [parseFloat] and is [NaN]. *)
Definition above_min (min : bound) (score : Z) : bool :=
  match min with
  | MinusInf => true
  | PlusInf => false
  | Score m => m <=? score
  end.

(** [score <= maxScore]: ['+inf'] is [Infinity]; ['-inf'] in this position
    is [NaN]. *)
Definition below_max (max : bound) (score : Z) : bool :=
  match max with
  | PlusInf => true
  | MinusInf => false
  | Score m => score <=? m
  end.

Definition in_range (min max : bound) (score : Z) : bool :=
  above_min min score && below_max max score.

Definition zremrangebyscore (this : MemoryRedisClient) (key : string)
    (min max : bound) : Z * MemoryRedisClient :=
  match zsets this !! key with
  | None => (0, this)
  | Some zset =>
      let removed := filter (λ ms, in_range min max ms.2 = true) zset in
      let kept := filter (λ ms, in_range min max ms.2 = false) zset in
      (Z.of_nat (size removed), with_zsets <[key := kept]> this)
  end.

(** ** Pipeline *)

(** What a method returns, as an element of the result array. *)
Inductive value := VNull | VNum (n : Z) | VStr (s : string).

Definition value_of_string (v : option string) : value :=
  match v with
  | Some s => VStr s
  | None => VNull
  end.

Definition value_of_number (v : option Z) : value :=
  match v with
  | Some n => VNum n
  | None => VNull
  end.

(** A recorded command: the method and its arguments.  The builder's methods
    [incrbyfloat], [hgetall], [lpush] and [ltrim] record commands in the same
    way; no modelled caller queues them. *)
Inductive command :=
| Chset (key : string) (fields : list (string * string))
| Chincrby (key field : string) (increment : Z)
| Cexpire (key : string) (seconds : Js.num)
| Cset (key value : string) (args : list arg)
| Chget (key field : string)
| Czadd (key : string) (entries : list (Z * string))
| Czrem (key : string) (members : list string)
| Czremrangebyscore (key : string) (min max : bound)
| Czcard (key : string)
| Czscore (key member : string)
| Cdel (keys : list string).

(** [pexpire(key, ms)] records an [expire] of [Math.ceil(ms / 1000)] seconds. *)
Definition pexpire (key : string) (ms : Z) : command :=
  Cexpire key (Js.Int (Js.ceil_div ms 1000)).

(** [self[cmd.method](...cmd.args)]. *)
Definition run_command (this : MemoryRedisClient) (now : Z) (cmd : command)
    : value * MemoryRedisClient :=
  match cmd with
  | Chset key fields => let '(r, this) := hset this key fields in (VNum r, this)
  | Chincrby key field increment =>
      let '(r, this) := hincrby this key field increment in (VNum r, this)
  | Cexpire key seconds =>
      let '(r, this) := expire this now key seconds in (VNum r, this)
  | Cset key value args =>
      let '(r, this) := set this now key value args in (value_of_string r, this)
  | Chget key field =>
      let '(r, this) := hget this now key field in (value_of_string r, this)
  | Czadd key entries => let '(r, this) := zadd this key entries in (VNum r, this)
  | Czrem key members => let '(r, this) := zrem this key members in (VNum r, this)
  | Czremrangebyscore key min max =>
      let '(r, this) := zremrangebyscore this key min max in (VNum r, this)
  | Czcard key => let '(r, this) := zcard this now key in (VNum r, this)
  | Czscore key member => (value_of_number (zscore this key member), this)
  | Cdel keys => let '(r, this) := del this keys in (VNum r, this)
  end.

(** [exec]: the commands run in order; each result is the pair
    [[null, result]], since no method of the class throws. *)
Fixpoint exec (this : MemoryRedisClient) (now : Z) (commands : list command)
    : list value * MemoryRedisClient :=
  match commands with
  | [] => ([], this)
  | cmd :: rest =>
      let '(r, this) := run_command this now cmd in
      let '(rs, this) := exec this now rest in
      (r :: rs, this)
  end.

(** ** Methods that may throw *)

Inductive Error := mkError (message : string).

(** How a call ends: with a value or with a thrown error. *)
Inductive completion (A : Type) := Return (a : A) | Throw (e : Error).
Arguments Return {A} a.
Arguments Throw {A} e.

(** An [async] method over a receiver whose state has type [St]. *)
Definition Async (St A : Type) : Type := St → completion A * St.

Definition ret {St A} (a : A) : Async St A := λ st, (Return a, st).

Definition throw {St A} (e : Error) : Async St A := λ st, (Throw e, st).

(** [const x = await c; k x]: an error of [c] ends the sequence. *)
Definition bind {St A B} (c : Async St A) (k : A → Async St B) : Async St B :=
  λ st,
    match c st with
    | (Return a, st') => k a st'
    | (Throw e, st') => (Throw e, st')
    end.

(** [try { body } catch (error) { handler error }]. *)
Definition try_catch {St A} (body : Async St A) (handler : Error → Async St A)
    : Async St A :=
  λ st,
    match body st with
    | (Return a, st') => (Return a, st')
    | (Throw e, st') => handler e st'
    end.

(** A step that changes the state and cannot throw. *)
Definition update {St} (f : St → St) : Async St unit := λ st, (Return tt, f st).

Notation "'await' x ':=' c 'in' k" := (bind c (λ x, k))
  (at level 10, x name, c at level 200, k at level 200, only parsing).

(** The methods of the receiver ([this]) that the guarded methods call, and
    the direct write [this.ttls.set]. *)
Record Methods (St : Type) := mkMethods {
  m_get : string → Async St (option string);
  m_set : string → string → list arg → Async St (option string);
  m_del : list string → Async St Z;
  m_expire : string → Js.num → Async St Z;
  m_ttl : string → Async St Z;
  m_zadd : string → list (Z * string) → Async St Z;
  m_zrem : string → list string → Async St Z;
  m_zcard : string → Async St Z;
  m_zscore : string → string → Async St (option Z);
  m_zremrangebyscore : string → bound → bound → Async St Z;
  m_ttls_set : string → Js.num → St → St;
}.
Arguments m_get {St}.
Arguments m_set {St}.
Arguments m_del {St}.
Arguments m_expire {St}.
Arguments m_ttl {St}.
Arguments m_zadd {St}.
Arguments m_zrem {St}.
Arguments m_zcard {St}.
Arguments m_zscore {St}.
Arguments m_zremrangebyscore {St}.
Arguments m_ttls_set {St}.

(** A method of the class as an [Async] method: it returns. *)
Definition returns {St A} (f : St → A * St) : Async St A :=
  λ st, let '(a, st') := f st in (Return a, st').

(** The method table of [MemoryRedisClient] itself, at clock [now]. *)
Definition memoryRedisClient (now : Z) : Methods MemoryRedisClient := {|
  m_get key := returns (λ this, get this now key);
  m_set key value args := returns (λ this, set this now key value args);
  m_del keys := returns (λ this, del this keys);
  m_expire key seconds := returns (λ this, expire this now key seconds);
  m_ttl key := returns (λ this, (ttl this now key, this));
  m_zadd key entries := returns (λ this, zadd this key entries);
  m_zrem key members := returns (λ this, zrem this key members);
  m_zcard key := returns (λ this, zcard this now key);
  m_zscore key member := returns (λ this, (zscore this key member, this));
  m_zremrangebyscore key min max :=
    returns (λ this, zremrangebyscore this key min max);
  m_ttls_set key t := with_ttls <[key := t]>;
|}.

(** ** Configuration ([config/config.js] is not part of the class; the
    values it supplies are parameters) *)

Record SessionConfig := {
  stickyTtlHours : option Z;
  renewalThresholdMinutes : option Z;
}.

(** [config.concurrency]: each property may be absent. *)
Record ConcurrencyOverrides := {
  o_leaseSeconds : option Z;
  o_renewIntervalSeconds : option Z;
  o_cleanupGraceSeconds : option Z;
}.

Record Config := {
  timezoneOffset : option Z;      (* config.system.timezoneOffset *)
  metricsWindow : option Z;       (* config.system.metricsWindow *)
  session : option SessionConfig;
  concurrency : option ConcurrencyOverrides;
}.

Record ConcurrencyConfig := {
  leaseSeconds : Z;
  renewIntervalSeconds : Z;
  cleanupGraceSeconds : Z;
}.

(** [{ ...defaults, ...(config.concurrency || {}) }]. *)
Definition _getConcurrencyConfig (config : Config) : ConcurrencyConfig :=
  let over := concurrency config in
  {| leaseSeconds := default 300 (over ≫= o_leaseSeconds);
     renewIntervalSeconds := default 30 (over ≫= o_renewIntervalSeconds);
     cleanupGraceSeconds := default 30 (over ≫= o_cleanupGraceSeconds) |}.

(** ** Concurrency leases *)

Definition concurrency_key (apiKeyId : string) : string :=
  "concurrency:" +:+ apiKeyId.

Definition incrConcurrency {St} (this : Methods St) (config : Config) (now : Z)
    (apiKeyId requestId : string) (leaseSeconds_arg : option Z) : Async St Z :=
  if negb (Js.truthy requestId) then
    throw (mkError "Request ID is required for concurrency tracking")
  else
    try_catch
      (let cfg := _getConcurrencyConfig config in
       let lease := Js.or_opt leaseSeconds_arg (leaseSeconds cfg) in
       let key := concurrency_key apiKeyId in
       let expireAt := now + lease * 1000 in
       let ttl := Z.max ((lease + cleanupGraceSeconds cfg) * 1000) 60000 in
       await _ := m_zremrangebyscore this key MinusInf (Score now) in
       await _ := m_zadd this key [(expireAt, requestId)] in
       await _ := (if 0 <? ttl
              then update (m_ttls_set this key (Js.Int (now + ttl)))
              else ret tt) in
       await count := m_zcard this key in
       ret count)
      (λ error, throw error).

Definition refreshConcurrencyLease {St} (this : Methods St) (config : Config)
    (now : Z) (apiKeyId requestId : string) (leaseSeconds_arg : option Z)
    : Async St Z :=
  if negb (Js.truthy requestId) then ret 0
  else
    try_catch
      (let cfg := _getConcurrencyConfig config in
       let lease := Js.or_opt leaseSeconds_arg (leaseSeconds cfg) in
       let key := concurrency_key apiKeyId in
       let expireAt := now + lease * 1000 in
       let ttl := Z.max ((lease + cleanupGraceSeconds cfg) * 1000) 60000 in
       await _ := m_zremrangebyscore this key MinusInf (Score now) in
       await exists_ := m_zscore this key requestId in
       match exists_ with
       | Some _ =>
           await _ := m_zadd this key [(expireAt, requestId)] in
           await _ := (if 0 <? ttl
                  then update (m_ttls_set this key (Js.Int (now + ttl)))
                  else ret tt) in
           ret 1
       | None => ret 0
       end)
      (λ _, ret 0).

Definition decrConcurrency {St} (this : Methods St) (now : Z)
    (apiKeyId requestId : string) : Async St Z :=
  try_catch
    (let key := concurrency_key apiKeyId in
     await _ := (if Js.truthy requestId
            then (await _ := m_zrem this key [requestId] in ret tt)
            else ret tt) in
     await _ := m_zremrangebyscore this key MinusInf (Score now) in
     await count := m_zcard this key in
     if count <=? 0 then (await _ := m_del this [key] in ret 0)
     else ret count)
    (λ error, throw error).

Definition getConcurrency {St} (this : Methods St) (now : Z) (apiKeyId : string)
    : Async St Z :=
  try_catch
    (let key := concurrency_key apiKeyId in
     await _ := m_zremrangebyscore this key MinusInf (Score now) in
     m_zcard this key)
    (λ _, ret 0).

(** The same four operations for a console account: its subject is the
    composite key [console_account:<accountId>]. *)
Definition console_account_key (accountId : string) : string :=
  "console_account:" +:+ accountId.

Definition incrConsoleAccountConcurrency {St} (this : Methods St) (config : Config)
    (now : Z) (accountId requestId : string) (leaseSeconds_arg : option Z)
    : Async St Z :=
  if negb (Js.truthy requestId) then
    throw (mkError "Request ID is required for console account concurrency tracking")
  else
    incrConcurrency this config now (console_account_key accountId) requestId
      leaseSeconds_arg.

Definition refreshConsoleAccountConcurrencyLease {St} (this : Methods St)
    (config : Config) (now : Z) (accountId requestId : string)
    (leaseSeconds_arg : option Z) : Async St Z :=
  if negb (Js.truthy requestId) then ret 0
  else
    refreshConcurrencyLease this config now (console_account_key accountId)
      requestId leaseSeconds_arg.

Definition decrConsoleAccountConcurrency {St} (this : Methods St) (now : Z)
    (accountId requestId : string) : Async St Z :=
  decrConcurrency this now (console_account_key accountId) requestId.

Definition getConsoleAccountConcurrency {St} (this : Methods St) (now : Z)
    (accountId : string) : Async St Z :=
  getConcurrency this now (console_account_key accountId).

(** ** Sticky sessions *)

Definition sticky_session_key (sessionHash : string) : string :=
  "sticky_session:" +:+ sessionHash.

Definition setSessionAccountMapping {St} (this : Methods St) (appConfig : Config)
    (sessionHash accountId : string) (ttl_arg : option Z) : Async St unit :=
  let defaultTTL :=
    match ttl_arg with
    | Some t => t
    | None => Js.or_opt (session appConfig ≫= stickyTtlHours) 1 * 60 * 60
    end in
  let key := sticky_session_key sessionHash in
  await _ := m_set this key accountId [AStr "EX"; ANum defaultTTL] in
  ret tt.

Definition getSessionAccountMapping {St} (this : Methods St) (sessionHash : string)
    : Async St (option string) :=
  m_get this (sticky_session_key sessionHash).

Definition extendSessionAccountMappingTTL {St} (this : Methods St)
    (appConfig : Config) (sessionHash : string) : Async St bool :=
  let key := sticky_session_key sessionHash in
  let ttlHours := Js.or_opt (session appConfig ≫= stickyTtlHours) 1 in
  let thresholdMinutes := Js.or_opt (session appConfig ≫= renewalThresholdMinutes) 0 in
  if thresholdMinutes =? 0 then ret true
  else
    let fullTTL := ttlHours * 60 * 60 in
    let renewalThreshold := thresholdMinutes * 60 in
    try_catch
      (await remainingTTL := m_ttl this key in
       if remainingTTL =? -2 then ret false
       else if remainingTTL =? -1 then ret true
       else if remainingTTL <? renewalThreshold then
         (await _ := m_expire this key (Js.Int fullTTL) in ret true)
       else ret true)
      (λ _, ret false).

Definition deleteSessionAccountMapping {St} (this : Methods St)
    (sessionHash : string) : Async St Z :=
  m_del this [sticky_session_key sessionHash].

(** ** The account lock *)

Definition setAccountLock {St} (this : Methods St) (lockKey lockValue : string)
    (ttlMs : Z) : Async St bool :=
  try_catch
    (await result :=
       m_set this lockKey lockValue [AStr "PX"; ANum ttlMs; AStr "NX"] in
     ret (bool_decide (result = Some "OK")))
    (λ _, ret false).

Definition releaseAccountLock {St} (this : Methods St) (lockKey lockValue : string)
    : Async St bool :=
  try_catch
    (await current := m_get this lockKey in
     if bool_decide (current = Some lockValue) then
       (await _ := m_del this [lockKey] in ret true)
     else ret false)
    (λ _, ret false).

(** ** Dates

    [Date]'s UTC accessors are built into the language; they are written out
    here for the proleptic Gregorian calendar, over epoch milliseconds. *)

Module Date.

(** Year, month (1 to 12) and day of the month of a day number counted from
    1970-01-01. *)
Definition civil_from_days (days : Z) : Z * Z * Z :=
  let z := days + 719468 in
  let era := z / 146097 in
  let doe := z - era * 146097 in
  let yoe := (doe - doe / 1460 + doe / 36524 - doe / 146096) / 365 in
  let doy := doe - (365 * yoe + yoe / 4 - yoe / 100) in
  let mp := (5 * doy + 2) / 153 in
  let d := doy - (153 * mp + 2) / 5 + 1 in
  let m := if mp <? 10 then mp + 3 else mp - 9 in
  (yoe + era * 400 + (if m <=? 2 then 1 else 0), m, d).

Definition getUTCFullYear (t : Z) : Z := (civil_from_days (t / 86400000)).1.1.
Definition getUTCMonth (t : Z) : Z := (civil_from_days (t / 86400000)).1.2 - 1.
Definition getUTCDate (t : Z) : Z := (civil_from_days (t / 86400000)).2.
Definition getUTCHours (t : Z) : Z := (t / 3600000) mod 24.

End Date.

(** [String(n).padStart(2, '0')]. *)
Definition pad2 (n : Z) : string := Js.padStart 2 "0" (Js.toString n).

Definition getDateInTimezone (config : Config) (date : Z) : Z :=
  let offset := Js.or_opt (timezoneOffset config) 8 in
  let offsetMs := offset * 3600000 in
  date + offsetMs.

Definition getDateStringInTimezone (config : Config) (date : Z) : string :=
  let tzDate := getDateInTimezone config date in
  Js.toString (Date.getUTCFullYear tzDate) +:+ "-"
  +:+ pad2 (Date.getUTCMonth tzDate + 1) +:+ "-" +:+ pad2 (Date.getUTCDate tzDate).

Definition getHourInTimezone (config : Config) (date : Z) : Z :=
  Date.getUTCHours (getDateInTimezone config date).

(** The expression both counters use for [currentMonth]. *)
Definition month_string (config : Config) (date : Z) : string :=
  let tzDate := getDateInTimezone config date in
  Js.toString (Date.getUTCFullYear tzDate) +:+ "-" +:+ pad2 (Date.getUTCMonth tzDate + 1).

(** The expression both counters use for [currentHour]. *)
Definition hour_string (config : Config) (date : Z) : string :=
  getDateStringInTimezone config date +:+ ":" +:+ pad2 (getHourInTimezone config date).

(** ** Model names *)

(** [s.includes(sub)]. *)
Definition includes (s sub : string) : bool :=
  bool_decide (is_Some (String.index 0 sub s)).

Definition is_digit (c : ascii) : bool :=
  let n := nat_of_ascii c in (Nat.leb 48 n && Nat.leb n 57)%bool.

(** The class [[a-z0-9-]]. *)
Definition is_vendor_char (c : ascii) : bool :=
  let n := nat_of_ascii c in
  ((Nat.leb 97 n && Nat.leb n 122) || is_digit c || Nat.eqb n 45)%bool.

Fixpoint drop_while (p : ascii → bool) (s : string) : string :=
  match s with
  | String c r => if p c then drop_while p r else s
  | EmptyString => s
  end.

(** [s.replace(/^[a-z0-9-]+\./, '')]. *)
Definition strip_vendor_prefix (s : string) : string :=
  match s with
  | String c r =>
      if is_vendor_char c then
        match drop_while is_vendor_char r with
        | String "." rest => rest
        | _ => s
        end
      else s
  | EmptyString => s
  end.

(** [s.replace(sub, '')] for a string [sub]: the first occurrence goes. *)
Definition remove_first (sub s : string) : string :=
  match String.index 0 sub s with
  | Some i =>
      String.substring 0 i s
      +:+ String.substring (i + String.length sub)
            (String.length s - (i + String.length sub)) s
  | None => s
  end.

(** The whole of [s] is [\d+]. *)
Definition all_digits (s : string) : bool :=
  match s with
  | String c r => is_digit c && bool_decide (drop_while is_digit r = EmptyString)
  | EmptyString => false
  end.

(** The whole of [s] matches [-v\d+:\d+]. *)
Definition is_version_tag (s : string) : bool :=
  match s with
  | String "-" (String "v" (String c r)) =>
      is_digit c &&
      match drop_while is_digit r with
      | String ":" rest => all_digits rest
      | _ => false
      end
  | _ => false
  end.

(** [s.replace(re, '')] for a pattern anchored at the end: the text from the
    leftmost position whose suffix [matches] goes. *)
Fixpoint strip_suffix (matches : string → bool) (s : string) : string :=
  match s with
  | String c r => if matches s then EmptyString else String c (strip_suffix matches r)
  | EmptyString => s
  end.

Definition _normalizeModelName (model : string) : string :=
  if negb (Js.truthy model) || String.eqb model "unknown" then model
  else if includes model ".anthropic." || includes model ".claude" then
    let normalized := strip_vendor_prefix model in
    let normalized := remove_first "anthropic." normalized in
    strip_suffix is_version_tag normalized
  else
    strip_suffix (λ s, is_version_tag s || String.eqb s ":latest") model.

(** ** Token counters *)

Definition usage_key (keyId : string) : string := "usage:" +:+ keyId.

Definition usage_daily_key (keyId today : string) : string :=
  "usage:daily:" +:+ keyId +:+ ":" +:+ today.

Definition usage_monthly_key (keyId currentMonth : string) : string :=
  "usage:monthly:" +:+ keyId +:+ ":" +:+ currentMonth.

Definition usage_hourly_key (keyId currentHour : string) : string :=
  "usage:hourly:" +:+ keyId +:+ ":" +:+ currentHour.

Definition model_daily_key (normalizedModel today : string) : string :=
  "usage:model:daily:" +:+ normalizedModel +:+ ":" +:+ today.

Definition key_model_daily_key (keyId normalizedModel today : string) : string :=
  "usage:" +:+ keyId +:+ ":model:daily:" +:+ normalizedModel +:+ ":" +:+ today.

Definition system_minute_key (minuteTimestamp : Z) : string :=
  "system:metrics:minute:" +:+ Js.toString minuteTimestamp.

(** The commands [incrementTokenUsage] queues, in order.  The keys
    [modelMonthly], [modelHourly], [keyModelMonthly] and [keyModelHourly] are
    computed by the source and never used. *)
Definition incrementTokenUsage_commands (config : Config) (now : Z)
    (keyId : string) (tokens inputTokens outputTokens cacheCreateTokens
      cacheReadTokens : Z) (model : string)
    (ephemeral5mTokens ephemeral1hTokens : Z) (isLongContextRequest : bool)
    : list command :=
  let key := usage_key keyId in
  let today := getDateStringInTimezone config now in
  let currentMonth := month_string config now in
  let currentHour := hour_string config now in
  let daily := usage_daily_key keyId today in
  let monthly := usage_monthly_key keyId currentMonth in
  let hourly := usage_hourly_key keyId currentHour in
  let normalizedModel := _normalizeModelName model in
  let modelDaily := model_daily_key normalizedModel today in
  let keyModelDaily := key_model_daily_key keyId normalizedModel today in
  let minuteTimestamp := now / 60000 in
  let systemMinuteKey := system_minute_key minuteTimestamp in
  let finalInputTokens := Js.or inputTokens 0 in
  let finalOutputTokens :=
    Js.or outputTokens (if 0 <? finalInputTokens then 0 else tokens) in
  let finalCacheCreateTokens := Js.or cacheCreateTokens 0 in
  let finalCacheReadTokens := Js.or cacheReadTokens 0 in
  let totalTokens :=
    finalInputTokens + finalOutputTokens + finalCacheCreateTokens
    + finalCacheReadTokens in
  let coreTokens := finalInputTokens + finalOutputTokens in
  [ Chincrby key "totalTokens" coreTokens;
    Chincrby key "totalInputTokens" finalInputTokens;
    Chincrby key "totalOutputTokens" finalOutputTokens;
    Chincrby key "totalCacheCreateTokens" finalCacheCreateTokens;
    Chincrby key "totalCacheReadTokens" finalCacheReadTokens;
    Chincrby key "totalAllTokens" totalTokens;
    Chincrby key "totalEphemeral5mTokens" ephemeral5mTokens;
    Chincrby key "totalEphemeral1hTokens" ephemeral1hTokens ]
  ++ (if isLongContextRequest then
        [ Chincrby key "totalLongContextInputTokens" finalInputTokens;
          Chincrby key "totalLongContextOutputTokens" finalOutputTokens;
          Chincrby key "totalLongContextRequests" 1 ]
      else [])
  ++ [ Chincrby key "totalRequests" 1;
       (* daily *)
       Chincrby daily "tokens" coreTokens;
       Chincrby daily "inputTokens" finalInputTokens;
       Chincrby daily "outputTokens" finalOutputTokens;
       Chincrby daily "cacheCreateTokens" finalCacheCreateTokens;
       Chincrby daily "cacheReadTokens" finalCacheReadTokens;
       Chincrby daily "allTokens" totalTokens;
       Chincrby daily "requests" 1;
       Chincrby daily "ephemeral5mTokens" ephemeral5mTokens;
       Chincrby daily "ephemeral1hTokens" ephemeral1hTokens;
       (* monthly *)
       Chincrby monthly "tokens" coreTokens;
       Chincrby monthly "inputTokens" finalInputTokens;
       Chincrby monthly "outputTokens" finalOutputTokens;
       Chincrby monthly "cacheCreateTokens" finalCacheCreateTokens;
       Chincrby monthly "cacheReadTokens" finalCacheReadTokens;
       Chincrby monthly "allTokens" totalTokens;
       Chincrby monthly "requests" 1;
       (* hourly *)
       Chincrby hourly "tokens" coreTokens;
       Chincrby hourly "inputTokens" finalInputTokens;
       Chincrby hourly "outputTokens" finalOutputTokens;
       Chincrby hourly "allTokens" totalTokens;
       Chincrby hourly "requests" 1;
       (* per model *)
       Chincrby modelDaily "inputTokens" finalInputTokens;
       Chincrby modelDaily "outputTokens" finalOutputTokens;
       Chincrby modelDaily "allTokens" totalTokens;
       Chincrby modelDaily "requests" 1;
       (* per key and model *)
       Chincrby keyModelDaily "inputTokens" finalInputTokens;
       Chincrby keyModelDaily "outputTokens" finalOutputTokens;
       Chincrby keyModelDaily "allTokens" totalTokens;
       Chincrby keyModelDaily "requests" 1;
       (* system, per minute *)
       Chincrby systemMinuteKey "requests" 1;
       Chincrby systemMinuteKey "totalTokens" totalTokens;
       Chincrby systemMinuteKey "inputTokens" finalInputTokens;
       Chincrby systemMinuteKey "outputTokens" finalOutputTokens;
       (* expiry *)
       Cexpire daily (Js.Int (86400 * 32));
       Cexpire monthly (Js.Int (86400 * 365));
       Cexpire hourly (Js.Int (86400 * 7));
       Cexpire systemMinuteKey
         (match metricsWindow config with
          | Some w => Js.Int (w * 60 * 2)
          | None => Js.NaN
          end) ].

Definition incrementTokenUsage (this : MemoryRedisClient) (config : Config)
    (now : Z) (keyId : string) (tokens inputTokens outputTokens
      cacheCreateTokens cacheReadTokens : Z) (model : string)
    (ephemeral5mTokens ephemeral1hTokens : Z) (isLongContextRequest : bool)
    : MemoryRedisClient :=
  (exec this now
     (incrementTokenUsage_commands config now keyId tokens inputTokens
        outputTokens cacheCreateTokens cacheReadTokens model ephemeral5mTokens
        ephemeral1hTokens isLongContextRequest)).2.

(** ** Cost counters *)

(** Floating-point numbers and the operations [incrbyfloat] applies to them. *)
Class FloatArith := {
  float : Type;
  (** [parseFloat(v)], [NaN] for [null] *)
  parseFloat : option string → float;
  (** [x || 0] *)
  float_or0 : float → float;
  float_add : float → float → float;
  float_toString : float → string;
}.

Section Cost.
Context `{FloatArith}.

(** [incrbyfloat] from the point where [await this.get(key)] resumes. *)
Definition incrbyfloat_resume (this : MemoryRedisClient) (now : Z) (key : string)
    (read : option string) (increment : float) : float * MemoryRedisClient :=
  let current := float_or0 (parseFloat read) in
  let current := float_add current increment in
  let '(_, this) := set this now key (float_toString current) [] in
  (current, this).

Definition incrbyfloat (this : MemoryRedisClient) (now : Z) (key : string)
    (increment : float) : float * MemoryRedisClient :=
  let '(read, this) := get this now key in
  incrbyfloat_resume this now key read increment.

Definition cost_daily_key (keyId today : string) : string :=
  "usage:cost:daily:" +:+ keyId +:+ ":" +:+ today.

Definition cost_monthly_key (keyId currentMonth : string) : string :=
  "usage:cost:monthly:" +:+ keyId +:+ ":" +:+ currentMonth.

Definition cost_hourly_key (keyId currentHour : string) : string :=
  "usage:cost:hourly:" +:+ keyId +:+ ":" +:+ currentHour.

Definition cost_total_key (keyId : string) : string :=
  "usage:cost:total:" +:+ keyId.

(** [incrementDailyCost].  The seven calls inside [Promise.all([...])] are
    started in order and each runs up to its first [await]: an [incrbyfloat]
    stops after its [get], an [expire] has no [await] and runs to its end.
    The four [incrbyfloat] resume afterwards, in order, and write. *)
Definition incrementDailyCost (this : MemoryRedisClient) (config : Config)
    (now : Z) (keyId : string) (amount : float) : MemoryRedisClient :=
  let today := getDateStringInTimezone config now in
  let currentMonth := month_string config now in
  let currentHour := hour_string config now in
  let dailyKey := cost_daily_key keyId today in
  let monthlyKey := cost_monthly_key keyId currentMonth in
  let hourlyKey := cost_hourly_key keyId currentHour in
  let totalKey := cost_total_key keyId in
  let '(readDaily, this) := get this now dailyKey in
  let '(readMonthly, this) := get this now monthlyKey in
  let '(readHourly, this) := get this now hourlyKey in
  let '(readTotal, this) := get this now totalKey in
  let '(_, this) := expire this now dailyKey (Js.Int (86400 * 30)) in
  let '(_, this) := expire this now monthlyKey (Js.Int (86400 * 90)) in
  let '(_, this) := expire this now hourlyKey (Js.Int (86400 * 7)) in
  let '(_, this) := incrbyfloat_resume this now dailyKey readDaily amount in
  let '(_, this) := incrbyfloat_resume this now monthlyKey readMonthly amount in
  let '(_, this) := incrbyfloat_resume this now hourlyKey readHourly amount in
  let '(_, this) := incrbyfloat_resume this now totalKey readTotal amount in
  this.

End Cost.

(** Whole amounts: a double that holds an integer below [2^53] adds exactly
    and prints as that integer, so integers model the counters whose stored
    text is a decimal integer.  [NaN] is [None]. *)
#[local] Instance whole_amounts : FloatArith := {|
  float := option Z;
  parseFloat v :=
    match v with
    | Some s =>
        match Js.parse_integer false s with
        | Js.Int z => Some z
        | Js.NaN => None
        end
    | None => None
    end;
  float_or0 x := Some (default 0 x);
  float_add x y := z1 ← x; z2 ← y; Some (z1 + z2);
  float_toString x :=
    match x with
    | Some z => Js.toString z
    | None => "NaN"
    end;
|}.

(** ** Views of the state used to state the properties *)

(** The value a key holds in the plain store; an expired key holds none. *)
Definition stored_value (this : MemoryRedisClient) (now : Z) (key : string)
    : option string :=
  if _isExpired this now key then None else store this !! key.

(** The leases of a subject: the sorted set under its key, empty when the key
    has none. *)
Definition leases (this : MemoryRedisClient) (apiKeyId : string) : gmap string Z :=
  default ∅ (zsets this !! concurrency_key apiKeyId).

(** The members whose score lies after [now]. *)
Definition unexpired (now : Z) (zset : gmap string Z) : gmap string Z :=
  filter (λ ms, now < ms.2) zset.

(** The lease and the key's lifetime (in milliseconds) that [incrConcurrency]
    and [refreshConcurrencyLease] compute. *)
Definition effective_lease (config : Config) (leaseSeconds_arg : option Z) : Z :=
  Js.or_opt leaseSeconds_arg (leaseSeconds (_getConcurrencyConfig config)).

Definition key_lifetime (config : Config) (leaseSeconds_arg : option Z) : Z :=
  Z.max
    ((effective_lease config leaseSeconds_arg
      + cleanupGraceSeconds (_getConcurrencyConfig config)) * 1000)
    60000.

(** The state after the sweep [zremrangebyscore(key, '-inf', now)]. *)
Definition swept (this : MemoryRedisClient) (now : Z) (key : string)
    : MemoryRedisClient :=
  match zsets this !! key with
  | Some zset => with_zsets <[key := unexpired now zset]> this
  | None => this
  end.

(** The leases that are left once [requestId] is released at [now]: none
    when the key itself has expired. *)
Definition remaining_leases (this : MemoryRedisClient) (now : Z)
    (apiKeyId requestId : string) : gmap string Z :=
  if _isExpired this now (concurrency_key apiKeyId) then ∅
  else
    unexpired now
      (if Js.truthy requestId then delete requestId (leases this apiKeyId)
       else leases this apiKeyId).

(** The state after [zrem(key, requestId)]. *)
Definition without_member (this : MemoryRedisClient) (key requestId : string)
    : MemoryRedisClient :=
  match zsets this !! key with
  | Some zset => with_zsets <[key := delete requestId zset]> this
  | None => this
  end.

(** The state after the optional [zrem] of [decrConcurrency]. *)
Definition after_zrem (this : MemoryRedisClient) (key requestId : string)
    : MemoryRedisClient :=
  if Js.truthy requestId then without_member this key requestId else this.

(** The configuration in which every optional value is absent. *)
Definition bare_config : Config :=
  {| timezoneOffset := None; metricsWindow := None; session := None;
     concurrency := None |}.

(** What a TTL query can answer. *)
Inductive ttl_answer := Absent | NoExpiry | Remaining (seconds : Z).

(** The answer for a key of the client at [now]: absent when no structure
    holds it or its expiry has passed, otherwise its remaining seconds,
    rounded up, if it has an expiry. *)
Definition ttl_query (this : MemoryRedisClient) (now : Z) (key : string)
    : ttl_answer :=
  match ttls this !! key with
  | None => if exists_key this key then NoExpiry else Absent
  | Some (Js.Int t) =>
      if now <? t then Remaining (Js.ceil_div (t - now) 1000) else Absent
  | Some Js.NaN => Absent
  end.

(** The number [ttl] returns for an answer. *)
Definition ttl_code (answer : ttl_answer) : Z :=
  match answer with
  | Absent => -2
  | NoExpiry => -1
  | Remaining seconds => seconds
  end.

(** The rules of lazy renewal, as the specification words them: the result,
    and the TTL to write when one is written. *)
Definition lazy_renewal (renewalThreshold fullTTL : Z) (answer : ttl_answer)
    : bool * option Z :=
  match answer with
  | Absent => (false, None)
  | NoExpiry => (true, None)
  | Remaining seconds =>
      if seconds <? renewalThreshold then (true, Some fullTTL) else (true, None)
  end.

(** The two values [extendSessionAccountMappingTTL] reads from the
    configuration. *)
Definition threshold_minutes (appConfig : Config) : Z :=
  Js.or_opt (session appConfig ≫= renewalThresholdMinutes) 0.

Definition full_ttl (appConfig : Config) : Z :=
  Js.or_opt (session appConfig ≫= stickyTtlHours) 1 * 60 * 60.

(** A receiver whose store cannot be reached: every method throws [e]. *)
Definition unavailable (e : Error) : Methods unit := {|
  m_get _ := throw e;
  m_set _ _ _ := throw e;
  m_del _ := throw e;
  m_expire _ _ := throw e;
  m_ttl _ := throw e;
  m_zadd _ _ := throw e;
  m_zrem _ _ := throw e;
  m_zcard _ := throw e;
  m_zscore _ _ := throw e;
  m_zremrangebyscore _ _ _ := throw e;
  m_ttls_set _ _ := id;
|}.

(** A bucket of the plain store is held at [now]: the key is there and has
    not expired. *)
Definition bucket_held (this : MemoryRedisClient) (now : Z) (key : string) : bool :=
  has (store this) key && negb (_isExpired this now key).

(** ** The TTL cleaner *)

(** One turn of the cleaner's loop over [this.ttls.entries()]: an entry whose
    time has come takes its key out of the five maps. *)
Definition _startTTLCleaner_entry (now : Z) (acc : Z * MemoryRedisClient)
    (entry : string * Js.num) : Z * MemoryRedisClient :=
  let '(cleaned, this) := acc in
  let '(key, expireTime) := entry in
  if Js.leb expireTime (Js.Int now) then
    (cleaned + 1,
     with_ttls (delete key)
       (with_zsets (delete key)
          (with_lists (delete key)
             (with_hashes (delete key) (with_store (delete key) this)))))
  else (cleaned, this).

(** The function [_startTTLCleaner] hands to [setInterval], run at [now]: the
    number of keys it cleaned, which it only logs, and the state it leaves. *)
Definition _startTTLCleaner_callback (this : MemoryRedisClient) (now : Z)
    : Z * MemoryRedisClient :=
  fold_left (_startTTLCleaner_entry now) (map_to_list (ttls this)) (0, this).

(** ** Reading a whole hash *)

(** The object the loop [result[field] = value] builds from the entries of a
    hash.  An assignment to the name [__proto__] reaches the setter that
    [Object.prototype] has for it, which ignores a string, so the object
    never holds a field of that name. *)
Definition object_of_entries (hash : gmap string string) : gmap string string :=
  delete "__proto__" hash.

(** [hgetall]: the object built from the entries of the hash; [{}] for a key
    that has expired, whose hash goes, and for a key without a hash. *)
Definition hgetall (this : MemoryRedisClient) (now : Z) (key : string)
    : gmap string string * MemoryRedisClient :=
  if _isExpired this now key then (∅, with_hashes (delete key) this)
  else
    (match hashes this !! key with
     | Some hash => object_of_entries hash
     | None => ∅
     end, this).

(** ** List operations *)

Module JsArray.

(** [array.slice(start, end)]: a negative index counts from the end; both are
    clamped to the list. *)
Definition slice {A} (array : list A) (start end_ : Z) : list A :=
  let len := Z.of_nat (List.length array) in
  let k := if start <? 0 then Z.max (len + start) 0 else Z.min start len in
  let final := if end_ <? 0 then Z.max (len + end_) 0 else Z.min end_ len in
  take (Z.to_nat (final - k)) (drop (Z.to_nat k) array).

End JsArray.

(** [lpush(key, ...values)]: [unshift] puts the values in front of the list,
    in the order given; the new length is returned. *)
Definition lpush (this : MemoryRedisClient) (key : string) (values : list string)
    : Z * MemoryRedisClient :=
  let list_ := values ++ default [] (lists this !! key) in
  (Z.of_nat (List.length list_), with_lists <[key := list_]> this).

Definition lrange (this : MemoryRedisClient) (now : Z) (key : string)
    (start stop : Z) : list string * MemoryRedisClient :=
  if _isExpired this now key then ([], with_lists (delete key) this)
  else
    match lists this !! key with
    | None => ([], this)
    | Some list_ =>
        let length_ := Z.of_nat (List.length list_) in
        let realStart := if start <? 0 then Z.max 0 (length_ + start) else start in
        let realStop := if stop <? 0 then Z.max 0 (length_ + stop) else stop in
        (JsArray.slice list_ realStart (realStop + 1), this)
    end.

Definition ltrim (this : MemoryRedisClient) (now : Z) (key : string)
    (start stop : Z) : string * MemoryRedisClient :=
  match lists this !! key with
  | None => ("OK", this)
  | Some _ =>
      let '(trimmed, this) := lrange this now key start stop in
      ("OK", with_lists <[key := trimmed]> this)
  end.

(** ** Usage records

    A record is a JavaScript value that [JSON.stringify] turns into a text
    or refuses by throwing (an object, an array, a number, a string; not
    [undefined] or a function, for which it returns [undefined]).
    [JSON.stringify] and [JSON.parse] are built into the language, and
    [Boolean] is the truthiness [filter(Boolean)] tests. *)

Definition usage_records_key (keyId : string) : string :=
  "usage:records:" +:+ keyId.

Section UsageRecords.
Context {json : Type}.
Variable JSON_stringify : json → completion string.
Variable JSON_parse : string → completion json.
Variable Boolean : json → bool.

(** An expression that may throw, inside an [async] method. *)
Definition evaluate {St A} (outcome : completion A) : Async St A :=
  λ st, (outcome, st).

Definition addUsageRecord (now : Z) (keyId : string) (record : json)
    (maxRecords : option Z) : Async MemoryRedisClient unit :=
  let maxRecords := default 200 maxRecords in
  let listKey := usage_records_key keyId in
  try_catch
    (await text := evaluate (JSON_stringify record) in
     await _ := returns (λ this, lpush this listKey [text]) in
     await _ := returns (λ this,
                  ltrim this now listKey 0 (Z.max 0 (maxRecords - 1))) in
     await _ := returns (λ this, expire this now listKey (Js.Int (86400 * 90))) in
     ret tt)
    (λ _, ret tt).

(** [JSON.parse(entry)] under its own [try]: [null] when it throws. *)
Definition parse_entry (entry : string) : option json :=
  match JSON_parse entry with
  | Return v => Some v
  | Throw _ => None
  end.

(** [filter(Boolean)]: [null] and the other falsy values go. *)
Definition keep_truthy (parsed : list (option json)) : list json :=
  omap (λ v, v ≫= λ j, if Boolean j then Some j else None) parsed.

Definition getUsageRecords (now : Z) (keyId : string) (limit : option Z)
    : Async MemoryRedisClient (list json) :=
  let limit := default 50 limit in
  let listKey := usage_records_key keyId in
  try_catch
    (await rawRecords := returns (λ this,
                           lrange this now listKey 0 (Z.max 0 (limit - 1))) in
     ret (keep_truthy (map parse_entry rawRecords)))
    (λ _, ret []).

End UsageRecords.

(** ** More views of the state *)

(** The state [del] and the cleaner leave for one key. *)
Definition without_key (this : MemoryRedisClient) (key : string) : MemoryRedisClient :=
  mkClient (delete key (store this)) (delete key (ttls this))
    (delete key (hashes this)) (delete key (lists this)) (delete key (zsets this)).

(** The number a field of a hash counts as: [parseInt(hash.get(field)) || 0]. *)
Definition counter (this : MemoryRedisClient) (key field : string) : Z :=
  Js.or0 (Js.parseInt_opt (default ∅ (hashes this !! key) !! field)).

(** ** API keys

    An API key is the hash [apikey:<keyId>]; the hash [apikey:hash_map] maps
    the hash of each key to its id.  [keyData] is an object: its entries are
    the pairs [hset] writes. *)

Definition apikey_key (keyId : string) : string := "apikey:" +:+ keyId.

Definition setApiKey (this : MemoryRedisClient) (now : Z) (keyId : string)
    (keyData : list (string * string)) (hashedKey : option string)
    : MemoryRedisClient :=
  let key := apikey_key keyId in
  let this :=
    match hashedKey with
    | Some hashed =>
        if Js.truthy hashed then
          let map := default ∅ (hashes this !! "apikey:hash_map") in
          with_hashes <["apikey:hash_map" := <[hashed := keyId]> map]> this
        else this
    | None => this
    end in
  let '(_, this) := hset this key keyData in
  let '(_, this) := expire this now key (Js.Int (86400 * 365)) in
  this.

Definition getApiKey (this : MemoryRedisClient) (now : Z) (keyId : string)
    : gmap string string * MemoryRedisClient :=
  hgetall this now (apikey_key keyId).

Definition deleteApiKey (this : MemoryRedisClient) (now : Z) (keyId : string)
    : Z * MemoryRedisClient :=
  let key := apikey_key keyId in
  let '(keyData, this) := hgetall this now key in
  let this :=
    match keyData !! "apiKey" with
    | Some hashed =>
        if Js.truthy hashed then (hdel this "apikey:hash_map" [hashed]).2 else this
    | None => this
    end in
  del this [key].

(** [{ id, ...keyData }]: the entries of [keyData], and [id] unless
    [keyData] has an entry of that name. *)
Definition with_id (id : string) (keyData : gmap string string)
    : gmap string string :=
  keyData ∪ {["id" := id]}.

(** [Object.keys(keyData).length > 0]. *)
Definition nonempty_object (keyData : gmap string string) : bool :=
  0 <? Z.of_nat (size keyData).

Definition findApiKeyByHash (this : MemoryRedisClient) (now : Z)
    (hashedKey : string) : option (gmap string string) * MemoryRedisClient :=
  let '(keyId, this) := hget this now "apikey:hash_map" hashedKey in
  match keyId with
  | None => (None, this)
  | Some keyId =>
      if negb (Js.truthy keyId) then (None, this)
      else
        let '(keyData, this) := hgetall this now (apikey_key keyId) in
        if nonempty_object keyData then (Some (with_id keyId keyData), this)
        else
          let '(_, this) := hdel this "apikey:hash_map" [hashedKey] in
          (None, this)
  end.

(** ** Accounts and sessions kept as hashes *)

Definition claude_account_key (accountId : string) : string :=
  "claude:account:" +:+ accountId.

Definition setClaudeAccount (this : MemoryRedisClient) (accountId : string)
    (accountData : list (string * string)) : MemoryRedisClient :=
  (hset this (claude_account_key accountId) accountData).2.

Definition getClaudeAccount (this : MemoryRedisClient) (now : Z) (accountId : string)
    : gmap string string * MemoryRedisClient :=
  hgetall this now (claude_account_key accountId).

Definition deleteClaudeAccount (this : MemoryRedisClient) (accountId : string)
    : Z * MemoryRedisClient :=
  del this [claude_account_key accountId].

(** One turn of the loop of [getAllClaudeAccounts] and its two siblings:
    a key whose hash is not empty adds [{ id, ...accountData }], the id being
    the key with the first occurrence of [prefix] removed. *)
Definition collect_account (now : Z) (prefix : string)
    (acc : list (gmap string string) * MemoryRedisClient) (key : string)
    : list (gmap string string) * MemoryRedisClient :=
  let '(accounts, this) := acc in
  let '(accountData, this) := hgetall this now key in
  if nonempty_object accountData then
    (accounts ++ [with_id (remove_first prefix key) accountData], this)
  else (accounts, this).

Definition getAllClaudeAccounts (regex_test : string → string → bool)
    (this : MemoryRedisClient) (now : Z)
    : list (gmap string string) * MemoryRedisClient :=
  fold_left (collect_account now "claude:account:")
    (keys regex_test this now "claude:account:*") ([], this).

Definition session_key (sessionId : string) : string := "session:" +:+ sessionId.

Definition setSession (this : MemoryRedisClient) (now : Z) (sessionId : string)
    (sessionData : list (string * string)) (ttl : option Z) : MemoryRedisClient :=
  let ttl := default 86400 ttl in
  let key := session_key sessionId in
  let '(_, this) := hset this key sessionData in
  let '(_, this) := expire this now key (Js.Int ttl) in
  this.

Definition getSession (this : MemoryRedisClient) (now : Z) (sessionId : string)
    : gmap string string * MemoryRedisClient :=
  hgetall this now (session_key sessionId).

Definition deleteSession (this : MemoryRedisClient) (sessionId : string)
    : Z * MemoryRedisClient :=
  del this [session_key sessionId].

Definition apikey_hash_key (hashedKey : string) : string :=
  "apikey_hash:" +:+ hashedKey.

Definition setApiKeyHash (this : MemoryRedisClient) (now : Z) (hashedKey : string)
    (keyData : list (string * string)) (ttl : option Z) : MemoryRedisClient :=
  let ttl := default 0 ttl in
  let key := apikey_hash_key hashedKey in
  let '(_, this) := hset this key keyData in
  if 0 <? ttl then (expire this now key (Js.Int ttl)).2 else this.

Definition getApiKeyHash (this : MemoryRedisClient) (now : Z) (hashedKey : string)
    : gmap string string * MemoryRedisClient :=
  hgetall this now (apikey_hash_key hashedKey).

Definition deleteApiKeyHash (this : MemoryRedisClient) (hashedKey : string)
    : Z * MemoryRedisClient :=
  del this [apikey_hash_key hashedKey].

Definition droid_account_key (accountId : string) : string :=
  "droid:account:" +:+ accountId.

Definition setDroidAccount (this : MemoryRedisClient) (accountId : string)
    (accountData : list (string * string)) : MemoryRedisClient :=
  (hset this (droid_account_key accountId) accountData).2.

Definition getDroidAccount (this : MemoryRedisClient) (now : Z) (accountId : string)
    : gmap string string * MemoryRedisClient :=
  hgetall this now (droid_account_key accountId).

Definition getAllDroidAccounts (regex_test : string → string → bool)
    (this : MemoryRedisClient) (now : Z)
    : list (gmap string string) * MemoryRedisClient :=
  fold_left (collect_account now "droid:account:")
    (keys regex_test this now "droid:account:*") ([], this).

Definition deleteDroidAccount (this : MemoryRedisClient) (accountId : string)
    : Z * MemoryRedisClient :=
  del this [droid_account_key accountId].

Definition openai_account_key (accountId : string) : string :=
  "openai:account:" +:+ accountId.

Definition setOpenAiAccount (this : MemoryRedisClient) (accountId : string)
    (accountData : list (string * string)) : MemoryRedisClient :=
  (hset this (openai_account_key accountId) accountData).2.

Definition getOpenAiAccount (this : MemoryRedisClient) (now : Z) (accountId : string)
    : gmap string string * MemoryRedisClient :=
  hgetall this now (openai_account_key accountId).

Definition deleteOpenAiAccount (this : MemoryRedisClient) (accountId : string)
    : Z * MemoryRedisClient :=
  del this [openai_account_key accountId].

Definition getAllOpenAIAccounts (regex_test : string → string → bool)
    (this : MemoryRedisClient) (now : Z)
    : list (gmap string string) * MemoryRedisClient :=
  fold_left (collect_account now "openai:account:")
    (keys regex_test this now "openai:account:*") ([], this).

(** The entry [collect_account] builds for a key, if it builds one. *)
Definition account_entry (this : MemoryRedisClient) (prefix key : string)
    : option (gmap string string) :=
  let accountData := object_of_entries (default ∅ (hashes this !! key)) in
  if nonempty_object accountData
  then Some (with_id (remove_first prefix key) accountData)
  else None.

(** ** Account usage *)

Definition account_usage_key (accountId : string) : string :=
  "account_usage:" +:+ accountId.

Definition account_usage_daily_key (accountId today : string) : string :=
  "account_usage:daily:" +:+ accountId +:+ ":" +:+ today.

Definition account_usage_monthly_key (accountId currentMonth : string) : string :=
  "account_usage:monthly:" +:+ accountId +:+ ":" +:+ currentMonth.

Definition account_usage_hourly_key (accountId currentHour : string) : string :=
  "account_usage:hourly:" +:+ accountId +:+ ":" +:+ currentHour.

(** The calls in the array [operations] of [incrementAccountUsage], in
    order.  [hincrby] and [expire] contain no [await], so each call has run
    to its end when the next element of the array is evaluated. *)
Definition incrementAccountUsage_operations (config : Config) (now : Z)
    (accountId : string) (totalTokens inputTokens outputTokens cacheCreateTokens
      cacheReadTokens : Z) (model : string) (isLongContextRequest : bool)
    : list command :=
  let today := getDateStringInTimezone config now in
  let currentMonth := month_string config now in
  let currentHour := hour_string config now in
  let accountKey := account_usage_key accountId in
  let accountDaily := account_usage_daily_key accountId today in
  let accountMonthly := account_usage_monthly_key accountId currentMonth in
  let accountHourly := account_usage_hourly_key accountId currentHour in
  let normalizedModel := _normalizeModelName model in
  let finalInputTokens := Js.or inputTokens 0 in
  let finalOutputTokens := Js.or outputTokens 0 in
  let finalCacheCreateTokens := Js.or cacheCreateTokens 0 in
  let finalCacheReadTokens := Js.or cacheReadTokens 0 in
  let actualTotalTokens :=
    finalInputTokens + finalOutputTokens + finalCacheCreateTokens
    + finalCacheReadTokens in
  let coreTokens := finalInputTokens + finalOutputTokens in
  [ Chincrby accountKey "totalTokens" coreTokens;
    Chincrby accountKey "totalInputTokens" finalInputTokens;
    Chincrby accountKey "totalOutputTokens" finalOutputTokens;
    Chincrby accountKey "totalAllTokens" actualTotalTokens;
    Chincrby accountKey "totalRequests" 1;
    Chincrby accountDaily "tokens" coreTokens;
    Chincrby accountDaily "inputTokens" finalInputTokens;
    Chincrby accountDaily "outputTokens" finalOutputTokens;
    Chincrby accountDaily "allTokens" actualTotalTokens;
    Chincrby accountDaily "requests" 1;
    Chincrby accountHourly "inputTokens" finalInputTokens;
    Chincrby accountHourly "outputTokens" finalOutputTokens;
    Chincrby accountHourly "allTokens" actualTotalTokens;
    Chincrby accountHourly "requests" 1;
    Chincrby accountHourly ("model:" +:+ normalizedModel +:+ ":inputTokens")
      finalInputTokens;
    Chincrby accountHourly ("model:" +:+ normalizedModel +:+ ":outputTokens")
      finalOutputTokens;
    Chincrby accountHourly ("model:" +:+ normalizedModel +:+ ":allTokens")
      actualTotalTokens;
    Chincrby accountHourly ("model:" +:+ normalizedModel +:+ ":requests") 1;
    Cexpire accountDaily (Js.Int (86400 * 32));
    Cexpire accountMonthly (Js.Int (86400 * 365));
    Cexpire accountHourly (Js.Int (86400 * 7)) ].

Definition incrementAccountUsage (this : MemoryRedisClient) (config : Config)
    (now : Z) (accountId : string) (totalTokens inputTokens outputTokens
      cacheCreateTokens cacheReadTokens : Z) (model : string)
    (isLongContextRequest : bool) : MemoryRedisClient :=
  (exec this now
     (incrementAccountUsage_operations config now accountId totalTokens
        inputTokens outputTokens cacheCreateTokens cacheReadTokens model
        isLongContextRequest)).2.

Module AccountData.
Record t := {
  tokens : Z;
  inputTokens : Z;
  outputTokens : Z;
  allTokens : Z;
  requests : Z;
}.
End AccountData.

(** [parseInt(data[field]) || 0]. *)
Definition field_or0 (data : gmap string string) (field : string) : Z :=
  Js.or0 (Js.parseInt_opt (data !! field)).

(** The arrow function [handleAccountData] of [getAccountUsageStats]. *)
Definition handleAccountData (data : gmap string string) : AccountData.t := {|
  AccountData.tokens := field_or0 data "totalTokens";
  AccountData.inputTokens := field_or0 data "totalInputTokens";
  AccountData.outputTokens := field_or0 data "totalOutputTokens";
  AccountData.allTokens := field_or0 data "totalAllTokens";
  AccountData.requests := field_or0 data "totalRequests";
|}.

(** What [getAccountUsageStats] returns; [averages] holds four zeros. *)
Record AccountUsageStats := {
  stats_accountId : string;
  stats_total : AccountData.t;
  stats_daily : AccountData.t;
  stats_daily_cost : Z;
  stats_monthly : AccountData.t;
  stats_averages : Z * Z * Z * Z;
}.

Definition getAccountUsageStats (this : MemoryRedisClient) (config : Config)
    (now : Z) (accountId : string) : AccountUsageStats * MemoryRedisClient :=
  let accountKey := account_usage_key accountId in
  let today := getDateStringInTimezone config now in
  let accountDailyKey := account_usage_daily_key accountId today in
  let '(total, this) := hgetall this now accountKey in
  let '(daily, this) := hgetall this now accountDailyKey in
  ({| stats_accountId := accountId;
      stats_total := handleAccountData total;
      stats_daily := handleAccountData daily;
      stats_daily_cost := 0;
      stats_monthly := handleAccountData ∅;
      stats_averages := (0, 0, 0, 0) |}, this).

(** A counter that holds [count] has room for [amount] more: the count and
    the count with the amount added are safe integers, so for an amount that
    is not negative every sum up to it is the sum the code computes. *)
Definition has_room (count amount : Z) : bool :=
  Js.isSafeInteger count && Js.isSafeInteger (count + amount).

(** What a command adds to the number a field of a hash counts as. *)
Definition increment_of (key field : string) (cmd : command) : Z :=
  match cmd with
  | Chincrby key' field' increment =>
      if String.eqb field' field && bool_decide (key' = key) then increment else 0
  | _ => 0
  end.

(** The commands the counters queue: [hincrby] and [expire]. *)
Definition counting (cmd : command) : bool :=
  match cmd with
  | Chincrby _ _ _ | Cexpire _ _ => true
  | _ => false
  end.

(** The sum of a list of numbers. *)
Definition total (numbers : list Z) : Z := foldr Z.add 0 numbers.

(** ** Reading the cost counters *)

Section CostReaders.
Context `{FloatArith}.

(** [parseFloat(cost || 0)] for what [get] returns, [null] or a string that
    is not empty: the number of the string, or [0], which is the value of
    [NaN || 0]. *)
Definition parseFloat_or0 (cost : option string) : float :=
  match cost with
  | Some text => parseFloat (Some text)
  | None => float_or0 (parseFloat None)
  end.

Definition getDailyCost (this : MemoryRedisClient) (config : Config) (now : Z)
    (keyId : string) : float * MemoryRedisClient :=
  let today := getDateStringInTimezone config now in
  let costKey := cost_daily_key keyId today in
  let '(cost, this) := get this now costKey in
  (parseFloat_or0 cost, this).

Record CostStats := {
  cost_daily : float;
  cost_monthly : float;
  cost_hourly : float;
  cost_total : float;
}.

(** [getCostStats]: [get] has no [await], so the four calls inside
    [Promise.all([...])] run one after the other. *)
Definition getCostStats (this : MemoryRedisClient) (config : Config) (now : Z)
    (keyId : string) : CostStats * MemoryRedisClient :=
  let today := getDateStringInTimezone config now in
  let currentMonth := month_string config now in
  let currentHour := hour_string config now in
  let '(daily, this) := get this now (cost_daily_key keyId today) in
  let '(monthly, this) := get this now (cost_monthly_key keyId currentMonth) in
  let '(hourly, this) := get this now (cost_hourly_key keyId currentHour) in
  let '(total, this) := get this now (cost_total_key keyId) in
  ({| cost_daily := parseFloat_or0 daily;
      cost_monthly := parseFloat_or0 monthly;
      cost_hourly := parseFloat_or0 hourly;
      cost_total := parseFloat_or0 total |}, this).

End CostReaders.

(** * Properties *)

(** ** Lookups in the five maps *)

Lemma has_true {V} (m : gmap string V) (key : string) :
  has m key = true ↔ is_Some (m !! key).
Proof. unfold has. apply bool_decide_eq_true. Qed.

Lemma has_false {V} (m : gmap string V) (key : string) :
  has m key = false ↔ m !! key = None.
Proof.
  unfold has. rewrite bool_decide_eq_false. symmetry. apply eq_None_not_Some.
Qed.

Lemma not_elem_of_allKeys (this : MemoryRedisClient) (key : string) :
  store this !! key = None → hashes this !! key = None →
  lists this !! key = None → zsets this !! key = None →
  key ∉ allKeys this.
Proof.
  intros Hs Hh Hl Hz. unfold allKeys.
  rewrite !not_elem_of_union, !not_elem_of_dom. auto.
Qed.

Lemma not_elem_of_keys regex_test (this : MemoryRedisClient) now pattern key :
  key ∉ allKeys this → key ∉ keys regex_test this now pattern.
Proof.
  intros Hk Hin. unfold keys in Hin.
  apply list_elem_of_filter in Hin as [_ Hin].
  apply elem_of_elements in Hin. contradiction.
Qed.

(** ** [del] *)

(** The loop of [del]: the count grows by what the plain store loses, and
    each key of the list leaves the five maps. *)
Lemma del_loop (keys : list string) : ∀ (n : Z) (this : MemoryRedisClient),
  let r := fold_left del_key keys (n, this) in
  r.1 = n + Z.of_nat (size (store this)) - Z.of_nat (size (store r.2))
  ∧ ∀ k,
      store r.2 !! k = (if decide (k ∈ keys) then None else store this !! k)
      ∧ hashes r.2 !! k = (if decide (k ∈ keys) then None else hashes this !! k)
      ∧ lists r.2 !! k = (if decide (k ∈ keys) then None else lists this !! k)
      ∧ zsets r.2 !! k = (if decide (k ∈ keys) then None else zsets this !! k)
      ∧ ttls r.2 !! k = (if decide (k ∈ keys) then None else ttls this !! k).
Proof.
  induction keys as [|key keys IH]; intros n this; cbn zeta; cbn [fold_left].
  - split; [simpl; lia|]. intros k. rewrite !decide_False by apply not_elem_of_nil. done.
  - cbn [del_key]. specialize (IH (if has (store this) key then n + 1 else n)
      (with_ttls (delete key)
         (with_zsets (delete key)
            (with_lists (delete key)
               (with_hashes (delete key) (with_store (delete key) this)))))).
    cbn zeta in IH. destruct IH as [Hcount Hmaps]. split.
    + rewrite Hcount. cbn [store with_ttls with_zsets with_lists with_hashes with_store].
      rewrite map_size_delete.
      destruct (has (store this) key) eqn:Hhas.
      * apply has_true in Hhas as [v Hv]. rewrite Hv.
        assert (size (store this) ≠ 0%nat).
        { intros Hz. apply map_size_empty_inv in Hz. rewrite Hz in Hv.
          by rewrite lookup_empty in Hv. }
        simpl. lia.
      * apply has_false in Hhas. rewrite Hhas. simpl. lia.
    + intros k. destruct (Hmaps k) as (Hs & Hh & Hl & Hz & Ht).
      rewrite Hs, Hh, Hl, Hz, Ht.
      cbn [store ttls hashes lists zsets with_ttls with_zsets with_lists with_hashes with_store].
      destruct (decide (k = key)) as [->|Hne].
      * rewrite !(decide_True (P := key ∈ key :: keys)) by apply list_elem_of_here.
        rewrite !lookup_delete_eq. by destruct (decide (key ∈ keys)).
      * rewrite !lookup_delete_ne by done.
        destruct (decide (k ∈ keys)) as [Hin|Hnin].
        -- rewrite !(decide_True (P := k ∈ key :: keys))
             by (by apply list_elem_of_further).
           done.
        -- rewrite !(decide_False (P := k ∈ key :: keys)); [done|..];
             intros Hin; apply elem_of_cons in Hin as [?|?]; done.
Qed.

(** After [del] of one key, no structure holds it. *)
Lemma del_single_gone (this : MemoryRedisClient) (key : string) :
  key ∉ allKeys (del this [key]).2.
Proof. cbn. apply not_elem_of_allKeys; cbn; apply lookup_delete_eq. Qed.

(** C10. The count [del] returns is the number of entries the plain store
    loses: a key of the list leaves all five maps, a key outside it is
    untouched, and a key that was only a hash, a list or a sorted set adds
    nothing to the count although it ceases to exist. *)
Theorem del_counts_plain_store_keys (this : MemoryRedisClient) (keys : list string) :
  (del this keys).1
    = Z.of_nat (size (store this)) - Z.of_nat (size (store (del this keys).2))
  ∧ (∀ k, k ∈ keys →
       store (del this keys).2 !! k = None
       ∧ hashes (del this keys).2 !! k = None
       ∧ lists (del this keys).2 !! k = None
       ∧ zsets (del this keys).2 !! k = None
       ∧ ttls (del this keys).2 !! k = None)
  ∧ (∀ k, k ∉ keys →
       store (del this keys).2 !! k = store this !! k
       ∧ hashes (del this keys).2 !! k = hashes this !! k
       ∧ lists (del this keys).2 !! k = lists this !! k
       ∧ zsets (del this keys).2 !! k = zsets this !! k
       ∧ ttls (del this keys).2 !! k = ttls this !! k)
  ∧ (∀ k, (del this [k]).1 = (if has (store this) k then 1 else 0)
          ∧ k ∉ allKeys (del this [k]).2).
Proof.
  unfold del. pose proof (del_loop keys 0 this) as [Hcount Hmaps].
  cbn zeta in Hcount, Hmaps. repeat split.
  - rewrite Hcount. lia.
  - destruct (Hmaps k) as (Hs & _). by rewrite Hs, decide_True.
  - destruct (Hmaps k) as (_ & Hh & _). by rewrite Hh, decide_True.
  - destruct (Hmaps k) as (_ & _ & Hl & _). by rewrite Hl, decide_True.
  - destruct (Hmaps k) as (_ & _ & _ & Hz & _). by rewrite Hz, decide_True.
  - destruct (Hmaps k) as (_ & _ & _ & _ & Ht). by rewrite Ht, decide_True.
  - destruct (Hmaps k) as (Hs & _). by rewrite Hs, decide_False.
  - destruct (Hmaps k) as (_ & Hh & _). by rewrite Hh, decide_False.
  - destruct (Hmaps k) as (_ & _ & Hl & _). by rewrite Hl, decide_False.
  - destruct (Hmaps k) as (_ & _ & _ & Hz & _). by rewrite Hz, decide_False.
  - destruct (Hmaps k) as (_ & _ & _ & _ & Ht). by rewrite Ht, decide_False.
  - apply del_single_gone.
Qed.

(** ** The account lock *)

Lemma truthy_nonempty (s : string) : s ≠ "" → Js.truthy s = true.
Proof.
  intros Hs. unfold Js.truthy. destruct (String.eqb_spec s ""); [done|done].
Qed.

(** Unfolds one guarded method down to the calls of the class's methods. *)
Ltac async_unfold :=
  unfold try_catch, bind, ret, throw, update;
  cbn [m_get m_set m_del m_expire m_ttl m_zadd m_zrem m_zcard m_zscore
       m_zremrangebyscore m_ttls_set memoryRedisClient];
  unfold returns; cbn beta.

(** With a positive expiry, [set ... 'PX', ttlMs, 'NX'] has written the value
    and its expiry before it looks at ['NX'], finds the key it has just
    written, and answers [null]. *)
Lemma set_PX_NX_positive (now : Z) (key value : string) (ttlMs : Z)
    (this : MemoryRedisClient) :
  0 < ttlMs →
  set this now key value [AStr "PX"; ANum ttlMs; AStr "NX"]
  = (None, with_ttls <[key := Js.Int (now + ttlMs)]> (with_store <[key := value]> this)).
Proof.
  intros Hpos. unfold set. simpl.
  replace (ttlMs =? 0) with false by lia. simpl.
  assert (Hhas : has (<[key := value]> (store this)) key = true).
  { apply has_true. rewrite lookup_insert_eq. eauto. }
  rewrite Hhas. unfold _isExpired. simpl. rewrite lookup_insert_eq. simpl.
  replace (now + ttlMs <=? now) with false by lia. reflexivity.
Qed.

Lemma setAccountLock_positive_ttl (now : Z) (lockKey lockValue : string)
    (ttlMs : Z) (this : MemoryRedisClient) :
  0 < ttlMs →
  setAccountLock (memoryRedisClient now) lockKey lockValue ttlMs this
  = (Return false,
     with_ttls <[lockKey := Js.Int (now + ttlMs)]>
       (with_store <[lockKey := lockValue]> this)).
Proof.
  intros Hpos. unfold setAccountLock. async_unfold.
  by rewrite set_PX_NX_positive.
Qed.

(** C1, at the failing inputs.  On a fresh client the lock is free, yet the
    call answers [false] and leaves the token stored; a second caller is
    refused as well, and its token replaces the first. *)
Theorem setAccountLock_refuses_free_key :
  setAccountLock (memoryRedisClient 1000) "lock:account:1" "token-A" 5000 new_client
  = (Return false,
     mkClient {["lock:account:1" := "token-A"]}
       {["lock:account:1" := Js.Int 6000]} ∅ ∅ ∅)
  ∧ setAccountLock (memoryRedisClient 2000) "lock:account:1" "token-B" 5000
      (mkClient {["lock:account:1" := "token-A"]}
         {["lock:account:1" := Js.Int 6000]} ∅ ∅ ∅)
    = (Return false,
       mkClient {["lock:account:1" := "token-B"]}
         {["lock:account:1" := Js.Int 7000]} ∅ ∅ ∅).
Proof.
  split; rewrite setAccountLock_positive_ttl by lia;
    unfold with_ttls, with_store, new_client; simpl;
    rewrite ?insert_empty, ?insert_singleton_eq; reflexivity.
Qed.

Lemma get_stored_value (this : MemoryRedisClient) (now : Z) (key value : string) :
  value ≠ "" → stored_value this now key = Some value →
  get this now key = (Some value, this).
Proof.
  intros Hne Hv. unfold stored_value in Hv. unfold get.
  destruct (_isExpired this now key); [done|].
  rewrite Hv. by rewrite truthy_nonempty.
Qed.

(** What [get] returns is the stored value, when it returns one. *)
Lemma get_Some (this : MemoryRedisClient) (now : Z) (key value : string) :
  (get this now key).1 = Some value → stored_value this now key = Some value.
Proof.
  unfold get, stored_value. destruct (_isExpired this now key); [done|].
  simpl. destruct (store this !! key) as [v|]; [|done].
  destruct (Js.truthy v); [|done]. done.
Qed.

(** [get] never changes what a key holds. *)
Lemma get_preserves_stored_value (this : MemoryRedisClient) (now : Z)
    (key key' : string) :
  stored_value (get this now key).2 now key' = stored_value this now key'.
Proof.
  unfold get, stored_value, _isExpired.
  destruct (ttls this !! key) as [t|] eqn:Ht; simpl; [|done].
  destruct (Js.leb t (Js.Int now)) eqn:Hexp; simpl; [|done].
  destruct (decide (key' = key)) as [->|Hne].
  - rewrite !lookup_delete_eq, Ht, Hexp. done.
  - rewrite !lookup_delete_ne by done. done.
Qed.

Lemma get_absent (this : MemoryRedisClient) (now : Z) (key : string) :
  store this !! key = None → ttls this !! key = None →
  get this now key = (None, this).
Proof.
  intros Hs Ht. unfold get, _isExpired. by rewrite Ht, Hs.
Qed.

Lemma get_unexpired (this : MemoryRedisClient) (now : Z) (key : string) :
  _isExpired this now key = false → (get this now key).2 = this.
Proof. intros Hexp. unfold get. by rewrite Hexp. Qed.

(** C9, as amended: for a non-empty token, [releaseAccountLock] answers
    [true] exactly when the key holds that token; it then deletes the key
    from every map, and a second release with the same token answers
    [false].  With any other content it answers [false], the key holds what
    it held, and a key that has not expired leaves the state as it was. *)
Theorem releaseAccountLock_owner_only (now : Z) (lockKey lockValue : string)
    (this : MemoryRedisClient) :
  lockValue ≠ "" →
  (stored_value this now lockKey = Some lockValue →
     releaseAccountLock (memoryRedisClient now) lockKey lockValue this
       = (Return true, (del this [lockKey]).2)
     ∧ stored_value (del this [lockKey]).2 now lockKey = None
     ∧ (lockKey ∉ allKeys (del this [lockKey]).2)
     ∧ releaseAccountLock (memoryRedisClient now) lockKey lockValue
         (del this [lockKey]).2
       = (Return false, (del this [lockKey]).2))
  ∧ (stored_value this now lockKey ≠ Some lockValue →
     ∃ this',
       releaseAccountLock (memoryRedisClient now) lockKey lockValue this
         = (Return false, this')
       ∧ stored_value this' now lockKey = stored_value this now lockKey
       ∧ (_isExpired this now lockKey = false → this' = this)).
Proof.
  intros Hne. split.
  - intros Hheld.
    assert (Hgone : stored_value (del this [lockKey]).2 now lockKey = None).
    { unfold stored_value, _isExpired. cbn. by rewrite !lookup_delete_eq. }
    split; [|split; [done|split]].
    + unfold releaseAccountLock. async_unfold.
      rewrite (get_stored_value _ _ _ _ Hne Hheld).
      rewrite bool_decide_eq_true_2 by done. by destruct (del this [lockKey]).
    + apply del_single_gone.
    + unfold releaseAccountLock. async_unfold.
      rewrite get_absent by (cbn; apply lookup_delete_eq).
      by rewrite bool_decide_eq_false_2.
  - intros Hother. exists (get this now lockKey).2.
    split; [|split].
    + unfold releaseAccountLock. async_unfold.
      destruct (get this now lockKey) as [v this'] eqn:Hget.
      rewrite bool_decide_eq_false_2; [done|].
      intros ->. apply Hother. apply get_Some. by rewrite Hget.
    + apply get_preserves_stored_value.
    + apply get_unexpired.
Qed.

(** The theorem at work: a lock held with token [A] resists [B] and yields
    to [A]. *)
Lemma releaseAccountLock_owner_only_witness :
  releaseAccountLock (memoryRedisClient 2000) "lock:account:1" "A"
    (mkClient {["lock:account:1" := "A"]} {["lock:account:1" := Js.Int 6000]} ∅ ∅ ∅)
  = (Return true,
     (del (mkClient {["lock:account:1" := "A"]}
             {["lock:account:1" := Js.Int 6000]} ∅ ∅ ∅) ["lock:account:1"]).2).
Proof.
  refine (proj1 (proj1 (releaseAccountLock_owner_only 2000 "lock:account:1" "A"
    (mkClient {["lock:account:1" := "A"]} {["lock:account:1" := Js.Int 6000]} ∅ ∅ ∅)
    _) _)).
  - discriminate.
  - vm_compute. reflexivity.
Defined.

(** C9 as stated fails on the empty token: the key holds [""], the token is
    [""], and the release is refused, because [get] reads an empty value as
    [null]. *)
Lemma releaseAccountLock_empty_token :
  stored_value (mkClient {["lock:account:1" := ""]} ∅ ∅ ∅ ∅) 0 "lock:account:1"
    = Some ""
  ∧ releaseAccountLock (memoryRedisClient 0) "lock:account:1" ""
      (mkClient {["lock:account:1" := ""]} ∅ ∅ ∅ ∅)
    = (Return false, mkClient {["lock:account:1" := ""]} ∅ ∅ ∅ ∅).
Proof. split; vm_compute; reflexivity. Qed.

(** ** Sorted sets and the sweep *)

Lemma unexpired_empty (now : Z) : unexpired now ∅ = ∅.
Proof. apply map_filter_empty. Qed.

Lemma unexpired_lookup (now : Z) (zset : gmap string Z) (member : string) (score : Z) :
  unexpired now zset !! member = Some score ↔ zset !! member = Some score ∧ now < score.
Proof. unfold unexpired. by rewrite map_lookup_filter_Some. Qed.

Lemma unexpired_idemp (now : Z) (zset : gmap string Z) :
  unexpired now (unexpired now zset) = unexpired now zset.
Proof.
  apply map_filter_id. intros member score Hm.
  by apply unexpired_lookup in Hm as [_ ?].
Qed.

Lemma unexpired_insert (now : Z) (zset : gmap string Z) (member : string) (score : Z) :
  now < score →
  unexpired now (<[member := score]> zset) = <[member := score]> (unexpired now zset).
Proof. intros Hlt. unfold unexpired. by rewrite map_filter_insert_True. Qed.

Lemma unexpired_delete (now : Z) (zset : gmap string Z) (member : string) :
  unexpired now (delete member zset) = delete member (unexpired now zset).
Proof. unfold unexpired. by rewrite map_filter_delete. Qed.

(** The sweep keeps the members scored after [now] and nothing else. *)
Lemma zremrangebyscore_sweep (this : MemoryRedisClient) (now : Z) (key : string) :
  (zremrangebyscore this key MinusInf (Score now)).2 = swept this now key.
Proof.
  unfold zremrangebyscore, swept. destruct (zsets this !! key) as [zset|]; [|done].
  cbn. f_equal. f_equal. unfold unexpired. apply map_filter_ext.
  intros member score _. cbn. unfold in_range. cbn.
  destruct (Z.leb_spec score now); split; intros; try done; lia.
Qed.

Lemma swept_zsets (this : MemoryRedisClient) (now : Z) (key : string) :
  zsets (swept this now key) !! key = unexpired now <$> zsets this !! key.
Proof.
  unfold swept. destruct (zsets this !! key) as [zset|] eqn:Hz; cbn.
  - by rewrite lookup_insert_eq.
  - by rewrite Hz.
Qed.

Lemma swept_ttls (this : MemoryRedisClient) (now : Z) (key : string) :
  ttls (swept this now key) = ttls this.
Proof. unfold swept. by destruct (zsets this !! key). Qed.

Lemma swept_isExpired (this : MemoryRedisClient) (now : Z) (key key' : string) :
  _isExpired (swept this now key) now key' = _isExpired this now key'.
Proof. unfold _isExpired. by rewrite swept_ttls. Qed.

(** Writing the sorted set of [key] makes an earlier sweep of it invisible. *)
Lemma with_zsets_swept (this : MemoryRedisClient) (now : Z) (key : string)
    (zset : gmap string Z) :
  with_zsets <[key := zset]> (swept this now key) = with_zsets <[key := zset]> this.
Proof.
  unfold swept. destruct (zsets this !! key); [|done].
  unfold with_zsets; cbn. by rewrite insert_insert_eq.
Qed.

Lemma with_zsets_delete_swept (this : MemoryRedisClient) (now : Z) (key : string) :
  with_zsets (delete key) (swept this now key) = with_zsets (delete key) this.
Proof.
  unfold swept. destruct (zsets this !! key); [|done].
  unfold with_zsets; cbn. by rewrite delete_insert_eq.
Qed.

Lemma default_unexpired (now : Z) (o : option (gmap string Z)) :
  default ∅ (unexpired now <$> o) = unexpired now (default ∅ o).
Proof. destruct o; cbn; [done|]. by rewrite unexpired_empty. Qed.

Lemma key_lifetime_positive (config : Config) (leaseSeconds_arg : option Z) :
  0 < key_lifetime config leaseSeconds_arg.
Proof. unfold key_lifetime. lia. Qed.

(** ** [incrConcurrency] on the class *)

(** What [incrConcurrency] does for a request id that is not empty: the
    sorted set becomes the swept one with the request added, the key gets its
    lifetime, and the size of that set is returned. *)
Lemma incrConcurrency_memory (config : Config) (now : Z) (apiKeyId requestId : string)
    (leaseSeconds_arg : option Z) (this : MemoryRedisClient) :
  requestId ≠ "" →
  let key := concurrency_key apiKeyId in
  let zset :=
    <[requestId := now + effective_lease config leaseSeconds_arg * 1000]>
      (unexpired now (leases this apiKeyId)) in
  incrConcurrency (memoryRedisClient now) config now apiKeyId requestId
    leaseSeconds_arg this
  = (Return (Z.of_nat (size zset)),
     with_ttls <[key := Js.Int (now + key_lifetime config leaseSeconds_arg)]>
       (with_zsets <[key := zset]> this)).
Proof.
  intros Hid key zset. unfold incrConcurrency.
  rewrite (truthy_nonempty _ Hid). cbn [negb]. async_unfold.
  fold key. fold (effective_lease config leaseSeconds_arg).
  fold (key_lifetime config leaseSeconds_arg).
  pose proof (key_lifetime_positive config leaseSeconds_arg) as Hlife.
  destruct (zremrangebyscore this key MinusInf (Score now)) as [n this0] eqn:Hsweep.
  apply (f_equal snd) in Hsweep. rewrite zremrangebyscore_sweep in Hsweep.
  cbn in Hsweep. subst this0.
  replace (0 <? key_lifetime config leaseSeconds_arg) with true by lia.
  unfold zadd. cbn [fold_left fst snd].
  rewrite swept_zsets, default_unexpired, with_zsets_swept.
  fold (leases this apiKeyId). fold zset.
  unfold zcard, _isExpired. cbn. rewrite !lookup_insert_eq. cbn.
  replace (now + key_lifetime config leaseSeconds_arg <=? now) with false by lia.
  reflexivity.
Qed.

(** ** Sequencing, one call at a time *)

Lemma bind_Return {St A B} (c : Async St A) (k : A → Async St B) (st st' : St) (a : A) :
  c st = (Return a, st') → bind c k st = k a st'.
Proof. intros Hc. unfold bind. by rewrite Hc. Qed.

Lemma bind_Throw {St A B} (c : Async St A) (k : A → Async St B) (st st' : St)
    (e : Error) :
  c st = (Throw e, st') → bind c k st = (Throw e, st').
Proof. intros Hc. unfold bind. by rewrite Hc. Qed.

Lemma try_catch_Return {St A} (body : Async St A) (handler : Error → Async St A)
    (st st' : St) (a : A) :
  body st = (Return a, st') → try_catch body handler st = (Return a, st').
Proof. intros Hb. unfold try_catch. by rewrite Hb. Qed.

Lemma returns_eq {St A} (f : St → A * St) (st : St) :
  returns f st = (Return (f st).1, (f st).2).
Proof. unfold returns. by destruct (f st). Qed.

Lemma memory_sweep (now : Z) (key : string) (this : MemoryRedisClient) :
  m_zremrangebyscore (memoryRedisClient now) key MinusInf (Score now) this
  = (Return (zremrangebyscore this key MinusInf (Score now)).1, swept this now key).
Proof. cbn. by rewrite returns_eq, zremrangebyscore_sweep. Qed.

Lemma memory_zcard (now : Z) (key : string) (this : MemoryRedisClient) :
  m_zcard (memoryRedisClient now) key this
  = (Return (zcard this now key).1, (zcard this now key).2).
Proof. cbn. by rewrite returns_eq. Qed.

Lemma memory_del (now : Z) (keys : list string) (this : MemoryRedisClient) :
  m_del (memoryRedisClient now) keys this
  = (Return (del this keys).1, (del this keys).2).
Proof. cbn. by rewrite returns_eq. Qed.

(** ** [getConcurrency], [decrConcurrency] and [refreshConcurrencyLease] on
    the class *)

Lemma getConcurrency_memory (now : Z) (apiKeyId : string) (this : MemoryRedisClient) :
  let key := concurrency_key apiKeyId in
  getConcurrency (memoryRedisClient now) now apiKeyId this
  = if _isExpired this now key
    then (Return 0, with_zsets (delete key) this)
    else (Return (Z.of_nat (size (unexpired now (leases this apiKeyId)))),
          swept this now key).
Proof.
  intros key. unfold getConcurrency. fold key.
  rewrite (try_catch_Return _ _ this
             (zcard (swept this now key) now key).2
             (zcard (swept this now key) now key).1).
  2:{ rewrite (bind_Return _ _ _ _ _ (memory_sweep now key this)).
      cbn. by rewrite returns_eq. }
  unfold zcard. rewrite swept_isExpired.
  destruct (_isExpired this now key).
  - cbn. by rewrite with_zsets_delete_swept.
  - cbn. rewrite swept_zsets. unfold leases. fold key.
    destruct (zsets this !! key); cbn; [done|].
    by rewrite unexpired_empty, map_size_empty.
Qed.

(** The state [del] leaves is the same whatever the sorted set of the key
    was. *)
Lemma del_with_zsets (this : MemoryRedisClient) (key : string) (zset : gmap string Z) :
  (del (with_zsets <[key := zset]> this) [key]).2 = (del this [key]).2.
Proof. cbn. unfold with_zsets; cbn. by rewrite delete_insert_eq. Qed.

Lemma del_with_zsets_delete (this : MemoryRedisClient) (key : string) :
  (del (with_zsets (delete key) this) [key]).2 = (del this [key]).2.
Proof. cbn. unfold with_zsets; cbn. by rewrite delete_delete_eq. Qed.

Lemma del_single_state (this : MemoryRedisClient) (key : string) :
  (del this [key]).2
  = mkClient (delete key (store this)) (delete key (ttls this))
      (delete key (hashes this)) (delete key (lists this))
      (delete key (zsets this)).
Proof. by destruct this. Qed.

Lemma del_del (this : MemoryRedisClient) (key : string) :
  (del (del this [key]).2 [key]).2 = (del this [key]).2.
Proof.
  rewrite !del_single_state. cbn [store ttls hashes lists zsets].
  by rewrite !delete_delete_eq.
Qed.

Lemma zrem_single (this : MemoryRedisClient) (key requestId : string) :
  (zrem this key [requestId]).2 = without_member this key requestId.
Proof.
  unfold zrem, without_member. by destruct (zsets this !! key) as [zset|].
Qed.

Lemma memory_zrem (now : Z) (key requestId : string) (this : MemoryRedisClient) :
  m_zrem (memoryRedisClient now) key [requestId] this
  = (Return (zrem this key [requestId]).1, without_member this key requestId).
Proof. cbn. by rewrite returns_eq, zrem_single. Qed.

Lemma without_member_isExpired (this : MemoryRedisClient) (now : Z)
    (key requestId key' : string) :
  _isExpired (without_member this key requestId) now key' = _isExpired this now key'.
Proof. unfold without_member, _isExpired. by destruct (zsets this !! key). Qed.

(** The sorted set of the key after the optional [zrem] and the sweep. *)
Lemma after_zrem_swept_zsets (this : MemoryRedisClient) (now : Z)
    (apiKeyId requestId : string) :
  zsets (swept (after_zrem this (concurrency_key apiKeyId) requestId) now
           (concurrency_key apiKeyId)) !! concurrency_key apiKeyId
  = (λ _, unexpired now
            (if Js.truthy requestId then delete requestId (leases this apiKeyId)
             else leases this apiKeyId))
      <$> zsets this !! concurrency_key apiKeyId.
Proof.
  rewrite swept_zsets. unfold after_zrem, leases.
  destruct (Js.truthy requestId); [unfold without_member|];
    destruct (zsets this !! concurrency_key apiKeyId) as [zset|] eqn:Hz; cbn;
    rewrite ?lookup_insert_eq, ?Hz; done.
Qed.

Lemma after_zrem_with_zsets (this : MemoryRedisClient) (key requestId : string)
    (zset : gmap string Z) :
  with_zsets <[key := zset]> (after_zrem this key requestId)
  = with_zsets <[key := zset]> this.
Proof.
  unfold after_zrem, without_member.
  destruct (Js.truthy requestId); [|done].
  destruct (zsets this !! key); [|done].
  unfold with_zsets; cbn. by rewrite insert_insert_eq.
Qed.

Lemma after_zrem_del (this : MemoryRedisClient) (key requestId : string) :
  (del (after_zrem this key requestId) [key]).2 = (del this [key]).2.
Proof.
  unfold after_zrem, without_member. destruct (Js.truthy requestId); [|done].
  destruct (zsets this !! key); [|done]. apply del_with_zsets.
Qed.

Lemma swept_del (this : MemoryRedisClient) (now : Z) (key : string) :
  (del (swept this now key) [key]).2 = (del this [key]).2.
Proof.
  unfold swept. destruct (zsets this !! key); [|done]. apply del_with_zsets.
Qed.

(** A swept set that is still there is written where it was. *)
Lemma swept_as_write (this : MemoryRedisClient) (now : Z) (key : string)
    (zset : gmap string Z) :
  zsets (swept this now key) !! key = Some zset →
  swept this now key = with_zsets <[key := zset]> this.
Proof.
  rewrite swept_zsets. unfold swept.
  destruct (zsets this !! key) as [z|]; cbn; [|done].
  by intros [= <-].
Qed.

Lemma decrConcurrency_memory (now : Z) (apiKeyId requestId : string)
    (this : MemoryRedisClient) :
  let key := concurrency_key apiKeyId in
  let rest := remaining_leases this now apiKeyId requestId in
  decrConcurrency (memoryRedisClient now) now apiKeyId requestId this
  = (Return (Z.of_nat (size rest)),
     if decide (size rest = 0%nat) then (del this [key]).2
     else with_zsets <[key := rest]> this).
Proof.
  intros key rest. unfold decrConcurrency. fold key.
  set (this1 := after_zrem this key requestId).
  pose proof (after_zrem_swept_zsets this now apiKeyId requestId) as Hzsets.
  fold key in Hzsets. fold this1 in Hzsets.
  assert (Hexp : _isExpired (swept this1 now key) now key = _isExpired this now key).
  { rewrite swept_isExpired. unfold this1, after_zrem.
    destruct (Js.truthy requestId); [apply without_member_isExpired|done]. }
  assert (Hdel : (del (swept this1 now key) [key]).2 = (del this [key]).2).
  { rewrite swept_del. apply after_zrem_del. }
  apply try_catch_Return.
  rewrite (bind_Return _ _ this this1 tt).
  2:{ unfold this1, after_zrem. destruct (Js.truthy requestId); [|done].
      by rewrite (bind_Return _ _ _ _ _ (memory_zrem now key requestId this)). }
  rewrite (bind_Return _ _ _ _ _ (memory_sweep now key this1)).
  rewrite (bind_Return _ _ _ _ _ (memory_zcard now key _)).
  unfold zcard. rewrite Hexp.
  unfold rest, remaining_leases. fold key.
  destruct (_isExpired this now key) eqn:Hexpired.
  - cbn [fst snd]. rewrite map_size_empty.
    change (Z.of_nat 0) with 0. rewrite Z.leb_refl.
    rewrite (bind_Return _ _ _ _ _ (memory_del now _ _)). unfold ret.
    rewrite del_with_zsets_delete. by rewrite Hdel.
  - cbn [fst snd]. rewrite Hzsets.
    destruct (zsets this !! key) as [zset|] eqn:Hz; cbn [fmap option_fmap option_map].
    + set (left := unexpired now _).
      destruct (decide (size left = 0%nat)) as [Hzero|Hpos].
      * rewrite Hzero. change (Z.of_nat 0) with 0. rewrite Z.leb_refl.
        rewrite (bind_Return _ _ _ _ _ (memory_del now _ _)). unfold ret.
        by rewrite Hdel.
      * replace (Z.of_nat (size left) <=? 0) with false by lia.
        unfold ret. f_equal.
        rewrite (swept_as_write this1 now key left).
        -- apply after_zrem_with_zsets.
        -- by rewrite Hzsets.
    + assert (Hnone : unexpired now
                 (if Js.truthy requestId
                  then delete requestId (leases this apiKeyId)
                  else leases this apiKeyId) = ∅).
      { unfold leases. fold key. rewrite Hz. cbn.
        destruct (Js.truthy requestId);
          rewrite ?delete_empty; apply unexpired_empty. }
      rewrite Hnone, map_size_empty.
      change (Z.of_nat 0) with 0. rewrite Z.leb_refl.
      rewrite (bind_Return _ _ _ _ _ (memory_del now _ _)). unfold ret.
      by rewrite Hdel.
Qed.

Lemma memory_zscore (now : Z) (key member : string) (this : MemoryRedisClient) :
  m_zscore (memoryRedisClient now) key member this
  = (Return (zscore this key member), this).
Proof. reflexivity. Qed.

Lemma memory_zadd (now : Z) (key : string) (score : Z) (member : string)
    (this : MemoryRedisClient) :
  m_zadd (memoryRedisClient now) key [(score, member)] this
  = (Return 1,
     with_zsets <[key := <[member := score]> (default ∅ (zsets this !! key))]> this).
Proof. reflexivity. Qed.

Lemma leases_swept (this : MemoryRedisClient) (now : Z) (apiKeyId : string) :
  leases (swept this now (concurrency_key apiKeyId)) apiKeyId
  = unexpired now (leases this apiKeyId).
Proof. unfold leases. by rewrite swept_zsets, default_unexpired. Qed.

Lemma zscore_swept (this : MemoryRedisClient) (now : Z) (apiKeyId member : string) :
  zscore (swept this now (concurrency_key apiKeyId)) (concurrency_key apiKeyId) member
  = unexpired now (leases this apiKeyId) !! member.
Proof.
  unfold zscore. rewrite swept_zsets. unfold leases.
  destruct (zsets this !! concurrency_key apiKeyId); cbn; [done|].
  by rewrite unexpired_empty, lookup_empty.
Qed.

Lemma refreshConcurrencyLease_memory (config : Config) (now : Z)
    (apiKeyId requestId : string) (leaseSeconds_arg : option Z)
    (this : MemoryRedisClient) :
  requestId ≠ "" →
  let key := concurrency_key apiKeyId in
  let live := unexpired now (leases this apiKeyId) in
  refreshConcurrencyLease (memoryRedisClient now) config now apiKeyId requestId
    leaseSeconds_arg this
  = match live !! requestId with
    | Some _ =>
        (Return 1,
         with_ttls <[key := Js.Int (now + key_lifetime config leaseSeconds_arg)]>
           (with_zsets
              <[key := <[requestId := now + effective_lease config leaseSeconds_arg * 1000]>
                         live]> this))
    | None => (Return 0, swept this now key)
    end.
Proof.
  intros Hid key live. unfold refreshConcurrencyLease.
  rewrite (truthy_nonempty _ Hid). cbn [negb]. cbv zeta.
  fold key. fold (effective_lease config leaseSeconds_arg).
  fold (key_lifetime config leaseSeconds_arg).
  pose proof (key_lifetime_positive config leaseSeconds_arg) as Hlife.
  replace (0 <? key_lifetime config leaseSeconds_arg) with true by lia.
  assert (Hscore : zscore (swept this now key) key requestId = live !! requestId)
    by apply zscore_swept.
  destruct (live !! requestId) as [score|] eqn:Hlive; apply try_catch_Return;
    rewrite (bind_Return _ _ _ _ _ (memory_sweep now key this));
    rewrite (bind_Return _ _ _ _ _ (memory_zscore now key requestId _));
    rewrite Hscore; [|done].
  rewrite (bind_Return _ _ _ _ _ (memory_zadd now key _ requestId _)).
  unfold key at 2. rewrite swept_zsets, default_unexpired.
  fold (leases this apiKeyId). fold live. rewrite with_zsets_swept.
  reflexivity.
Qed.

Lemma leases_with_zsets (this : MemoryRedisClient) (apiKeyId : string)
    (zset : gmap string Z) :
  leases (with_zsets <[concurrency_key apiKeyId := zset]> this) apiKeyId = zset.
Proof. unfold leases. cbn. by rewrite lookup_insert_eq. Qed.

Lemma leases_del (this : MemoryRedisClient) (apiKeyId : string) :
  leases (del this [concurrency_key apiKeyId]).2 apiKeyId = ∅.
Proof. unfold leases. cbn. by rewrite lookup_delete_eq. Qed.

Lemma remaining_leases_lookup (this : MemoryRedisClient) (now : Z)
    (apiKeyId requestId member : string) (score : Z) :
  remaining_leases this now apiKeyId requestId !! member = Some score →
  now < score ∧ leases this apiKeyId !! member = Some score.
Proof.
  unfold remaining_leases.
  destruct (_isExpired this now (concurrency_key apiKeyId)); [by rewrite lookup_empty|].
  intros Hm. apply unexpired_lookup in Hm as [Hm Hlt]. split; [done|].
  destruct (Js.truthy requestId); [|done].
  by apply lookup_delete_Some in Hm as [_ Hm].
Qed.

(** The state [decrConcurrency] leaves holds exactly the remaining leases. *)
Lemma leases_after_release (this : MemoryRedisClient) (now : Z)
    (apiKeyId requestId : string) :
  let rest := remaining_leases this now apiKeyId requestId in
  leases (if decide (size rest = 0%nat)
          then (del this [concurrency_key apiKeyId]).2
          else with_zsets <[concurrency_key apiKeyId := rest]> this) apiKeyId
  = rest.
Proof.
  intros rest. destruct (decide (size rest = 0%nat)) as [Hzero|Hpos].
  - rewrite leases_del. symmetry. by apply map_size_empty_iff.
  - apply leases_with_zsets.
Qed.

(** Releasing again changes nothing: the remaining leases of the state a
    release leaves are the leases it holds. *)
Lemma remaining_leases_after_release (this : MemoryRedisClient) (now : Z)
    (apiKeyId requestId : string) :
  let key := concurrency_key apiKeyId in
  let rest := remaining_leases this now apiKeyId requestId in
  remaining_leases
    (if decide (size rest = 0%nat) then (del this [key]).2
     else with_zsets <[key := rest]> this) now apiKeyId requestId
  = rest.
Proof.
  intros key rest. subst key.
  destruct (decide (size rest = 0%nat)) as [Hzero|Hpos].
  - apply map_size_empty_iff in Hzero. rewrite Hzero.
    unfold remaining_leases. rewrite leases_del.
    assert (Hexp : _isExpired (del this [concurrency_key apiKeyId]).2 now
                     (concurrency_key apiKeyId) = false).
    { unfold _isExpired. cbn. by rewrite lookup_delete_eq. }
    rewrite Hexp. destruct (Js.truthy requestId);
      rewrite ?delete_empty; apply unexpired_empty.
  - unfold remaining_leases at 1.
    assert (Hexp : _isExpired (with_zsets <[concurrency_key apiKeyId := rest]> this)
                     now (concurrency_key apiKeyId)
                   = _isExpired this now (concurrency_key apiKeyId)) by done.
    rewrite Hexp, leases_with_zsets.
    unfold rest, remaining_leases in *.
    destruct (_isExpired this now (concurrency_key apiKeyId)).
    { by rewrite map_size_empty in Hpos. }
    destruct (Js.truthy requestId).
    + rewrite <- unexpired_delete, delete_delete_eq. apply unexpired_idemp.
    + apply unexpired_idemp.
Qed.

(** ** Acquire, then count *)

(** C5, as amended: for a request id that is not empty and a lease (the one
    passed or the configured one) that is positive, [incrConcurrency] sweeps
    the members scored at or before [now], adds the request with score
    [now + lease * 1000], returns the size of that set, which is at least 1,
    and [getConcurrency] at the same time returns the same number. *)
Theorem acquire_then_getCount (config : Config) (now : Z)
    (apiKeyId requestId : string) (leaseSeconds_arg : option Z)
    (this : MemoryRedisClient) :
  requestId ≠ "" →
  0 < effective_lease config leaseSeconds_arg →
  ∃ (count : Z) (this' : MemoryRedisClient),
    incrConcurrency (memoryRedisClient now) config now apiKeyId requestId
      leaseSeconds_arg this = (Return count, this')
    ∧ leases this' apiKeyId
      = <[requestId := now + effective_lease config leaseSeconds_arg * 1000]>
          (unexpired now (leases this apiKeyId))
    ∧ count = Z.of_nat (size (leases this' apiKeyId))
    ∧ 1 ≤ count
    ∧ (getConcurrency (memoryRedisClient now) now apiKeyId this').1 = Return count.
Proof.
  intros Hid Hlease.
  pose proof (incrConcurrency_memory config now apiKeyId requestId
                leaseSeconds_arg this Hid) as Hincr.
  cbv zeta in Hincr.
  set (zset := <[requestId := now + effective_lease config leaseSeconds_arg * 1000]>
                 (unexpired now (leases this apiKeyId))) in *.
  set (this' := with_ttls _ _) in Hincr.
  assert (Hleases : leases this' apiKeyId = zset).
  { unfold this', leases. cbn. by rewrite lookup_insert_eq. }
  exists (Z.of_nat (size zset)), this'.
  split; [done|]. split; [done|]. split; [by rewrite Hleases|]. split.
  - assert (size zset ≠ 0%nat); [|lia].
    apply map_size_non_empty_iff. intros Hempty.
    assert (Hin : zset !! requestId = Some (now + effective_lease config leaseSeconds_arg * 1000))
      by apply lookup_insert_eq.
    by rewrite Hempty, lookup_empty in Hin.
  - rewrite getConcurrency_memory.
    pose proof (key_lifetime_positive config leaseSeconds_arg) as Hlife.
    assert (Hexp : _isExpired this' now (concurrency_key apiKeyId) = false).
    { unfold this', _isExpired. cbn. rewrite lookup_insert_eq. cbn. lia. }
    rewrite Hexp, Hleases. cbn [fst]. do 2 f_equal.
    unfold zset. rewrite unexpired_insert by lia. by rewrite unexpired_idemp.
Qed.

(** The theorem at work: the second request of a key, one second after the
    first, both with a lease of 5 seconds. *)
Lemma acquire_then_getCount_witness :
  ∃ (count : Z) (this' : MemoryRedisClient),
    incrConcurrency (memoryRedisClient 1000) bare_config 1000 "key1" "r2" (Some 5)
      (mkClient ∅ {["concurrency:key1" := Js.Int 60000]} ∅ ∅
         {["concurrency:key1" := {["r1" := 5000]}]})
      = (Return count, this')
    ∧ leases this' "key1"
      = <["r2" := 1000 + effective_lease bare_config (Some 5) * 1000]>
          (unexpired 1000
             (leases (mkClient ∅ {["concurrency:key1" := Js.Int 60000]} ∅ ∅
                        {["concurrency:key1" := {["r1" := 5000]}]}) "key1"))
    ∧ count = Z.of_nat (size (leases this' "key1"))
    ∧ 1 ≤ count
    ∧ (getConcurrency (memoryRedisClient 1000) 1000 "key1" this').1 = Return count.
Proof.
  apply (acquire_then_getCount bare_config 1000 "key1" "r2" (Some 5)).
  - discriminate.
  - vm_compute. reflexivity.
Defined.

(** C5 as stated fails for a lease that is not positive: the request is
    added with a score that is already past, [incrConcurrency] counts it, and
    the sweep of [getConcurrency] removes it at once. *)
Lemma acquire_negative_lease_uncounted :
  (incrConcurrency (memoryRedisClient 1000) bare_config 1000 "key1" "r1"
     (Some (-1)) new_client).1 = Return 1
  ∧ (getConcurrency (memoryRedisClient 1000) 1000 "key1"
       (incrConcurrency (memoryRedisClient 1000) bare_config 1000 "key1" "r1"
          (Some (-1)) new_client).2).1 = Return 0.
Proof. split; vm_compute; reflexivity. Qed.

(** ** Release *)

(** C7, as amended.  [decrConcurrency] on the class always returns, and
    releasing again returns the same count and leaves the same state.  While
    the key's own expiry has not passed, the count is the number of leases
    that are left once the request is removed and the set is swept, whether
    or not the request was a member, and exactly those leases are kept.
    Once the key's own expiry has passed the count is 0 and no lease is kept,
    whatever leases were still live.  When the count is 0 the key is deleted
    from every map and [keys] cannot list it; a sorted set that is left is
    never empty. *)
Theorem release_idempotent_and_tidy (now : Z) (apiKeyId requestId : string)
    (this : MemoryRedisClient) :
  let key := concurrency_key apiKeyId in
  let others :=
    if Js.truthy requestId then delete requestId (leases this apiKeyId)
    else leases this apiKeyId in
  ∃ (count : Z) (this' : MemoryRedisClient),
    decrConcurrency (memoryRedisClient now) now apiKeyId requestId this
      = (Return count, this')
    ∧ (_isExpired this now key = false →
         count = Z.of_nat (size (unexpired now others))
         ∧ leases this' apiKeyId = unexpired now others)
    ∧ (_isExpired this now key = true →
         count = 0 ∧ leases this' apiKeyId = ∅)
    ∧ decrConcurrency (memoryRedisClient now) now apiKeyId requestId this'
      = (Return count, this')
    ∧ (count = 0 →
         (key ∉ allKeys this')
         ∧ ttls this' !! key = None
         ∧ ∀ regex_test now' pattern, key ∉ keys regex_test this' now' pattern)
    ∧ (∀ zset, zsets this' !! key = Some zset → zset ≠ ∅).
Proof.
  intros key others.
  pose proof (decrConcurrency_memory now apiKeyId requestId this) as Hdecr.
  cbv zeta in Hdecr. fold key in Hdecr.
  assert (Hrest : remaining_leases this now apiKeyId requestId
                  = if _isExpired this now key then ∅ else unexpired now others)
    by done.
  set (rest := remaining_leases this now apiKeyId requestId) in *.
  set (this' := if decide (size rest = 0%nat) then _ else _) in Hdecr.
  assert (Hleases : leases this' apiKeyId = rest)
    by apply leases_after_release.
  exists (Z.of_nat (size rest)), this'.
  split; [done|]. split; [|split; [|split; [|split]]].
  - intros Hheld. rewrite Hheld in Hrest. by rewrite Hleases, Hrest.
  - intros Hended. rewrite Hended in Hrest.
    by rewrite Hleases, Hrest, map_size_empty.
  - pose proof (decrConcurrency_memory now apiKeyId requestId this') as Hagain.
    cbv zeta in Hagain. fold key in Hagain.
    pose proof (remaining_leases_after_release this now apiKeyId requestId) as Hsame.
    cbv zeta in Hsame. fold key in Hsame. fold rest in Hsame. fold this' in Hsame.
    rewrite Hsame in Hagain. rewrite Hagain. f_equal.
    unfold this'. destruct (decide (size rest = 0%nat)) as [Hzero|Hpos].
    + apply del_del.
    + unfold with_zsets; cbn. by rewrite insert_insert_eq.
  - intros Hzero.
    assert (Hdel : this' = (del this [key]).2).
    { unfold this'. destruct (decide (size rest = 0%nat)); [done|lia]. }
    rewrite Hdel. split; [apply del_single_gone|]. split.
    + cbn. apply lookup_delete_eq.
    + intros regex_test now' pattern. apply not_elem_of_keys, del_single_gone.
  - intros zset Hzset. unfold this' in Hzset.
    destruct (decide (size rest = 0%nat)) as [Hzero|Hpos].
    + cbn in Hzset. by rewrite lookup_delete_eq in Hzset.
    + cbn in Hzset. rewrite lookup_insert_eq in Hzset.
      injection Hzset as <-. by apply map_size_non_empty_iff.
Qed.

(** C7 as stated fails once the key's own expiry has passed.  A lease of 300
    seconds is taken at 0 and one of 5 seconds at 1000, which sets the
    expiry of the key to 61000.  At 62000 the first lease is still live, so
    one lease is left after the sweep; the release of the second request
    returns 0 and deletes the key with the live lease. *)
Lemma release_drops_live_lease :
  let held :=
    (incrConcurrency (memoryRedisClient 1000) bare_config 1000 "key1" "r2" (Some 5)
       (incrConcurrency (memoryRedisClient 0) bare_config 0 "key1" "r1" (Some 300)
          new_client).2).2 in
  let released := decrConcurrency (memoryRedisClient 62000) 62000 "key1" "r2" held in
  ttls held !! concurrency_key "key1" = Some (Js.Int 61000)
  ∧ unexpired 62000 (delete "r2" (leases held "key1")) = {["r1" := 300000]}
  ∧ released.1 = Return 0
  ∧ zsets released.2 !! concurrency_key "key1" = None.
Proof. vm_compute. repeat split. Qed.

(** ** Renew *)

(** C6, as amended: for a request id that is not empty,
    [refreshConcurrencyLease] sweeps first; a request that is still a member
    gets the new score, the key gets its lifetime, and 1 is returned; a
    request that is no member (expired, released or never admitted) is not
    added, the state is the swept one, and 0 is returned.  For the empty
    request id, 0 is returned and the state is unchanged. *)
Theorem renew_without_readmission (config : Config) (now : Z)
    (apiKeyId requestId : string) (leaseSeconds_arg : option Z)
    (this : MemoryRedisClient) :
  (requestId = "" →
     refreshConcurrencyLease (memoryRedisClient now) config now apiKeyId
       requestId leaseSeconds_arg this = (Return 0, this))
  ∧ (requestId ≠ "" →
     (∀ score, unexpired now (leases this apiKeyId) !! requestId = Some score →
        ∃ this',
          refreshConcurrencyLease (memoryRedisClient now) config now apiKeyId
            requestId leaseSeconds_arg this = (Return 1, this')
          ∧ leases this' apiKeyId
            = <[requestId := now + effective_lease config leaseSeconds_arg * 1000]>
                (unexpired now (leases this apiKeyId))
          ∧ ttls this' !! concurrency_key apiKeyId
            = Some (Js.Int (now + key_lifetime config leaseSeconds_arg)))
     ∧ (unexpired now (leases this apiKeyId) !! requestId = None →
        refreshConcurrencyLease (memoryRedisClient now) config now apiKeyId
          requestId leaseSeconds_arg this
          = (Return 0, swept this now (concurrency_key apiKeyId))
        ∧ leases (swept this now (concurrency_key apiKeyId)) apiKeyId
          = unexpired now (leases this apiKeyId)
        ∧ leases (swept this now (concurrency_key apiKeyId)) apiKeyId !! requestId
          = None)).
Proof.
  split.
  - intros ->. reflexivity.
  - intros Hid.
    pose proof (refreshConcurrencyLease_memory config now apiKeyId requestId
                  leaseSeconds_arg this Hid) as Hrefresh.
    cbv zeta in Hrefresh. split.
    + intros score Hmember. rewrite Hmember in Hrefresh.
      eexists. split; [exact Hrefresh|]. split.
      * unfold leases at 1. cbn. by rewrite lookup_insert_eq.
      * cbn. by rewrite lookup_insert_eq.
    + intros Hgone. rewrite Hgone in Hrefresh.
      split; [done|]. rewrite leases_swept. by split.
Qed.

(** The theorem at work: a request that is still a member is renewed. *)
Lemma renew_without_readmission_witness :
  ∃ this',
    refreshConcurrencyLease (memoryRedisClient 1000) bare_config 1000 "key1" "r1"
      (Some 5)
      (mkClient ∅ {["concurrency:key1" := Js.Int 60000]} ∅ ∅
         {["concurrency:key1" := {["r1" := 5000]}]})
      = (Return 1, this')
    ∧ leases this' "key1"
      = <["r1" := 1000 + effective_lease bare_config (Some 5) * 1000]>
          (unexpired 1000
             (leases (mkClient ∅ {["concurrency:key1" := Js.Int 60000]} ∅ ∅
                        {["concurrency:key1" := {["r1" := 5000]}]}) "key1"))
    ∧ ttls this' !! concurrency_key "key1"
      = Some (Js.Int (1000 + key_lifetime bare_config (Some 5))).
Proof.
  refine (proj1 (proj2 (renew_without_readmission bare_config 1000 "key1" "r1"
    (Some 5)
    (mkClient ∅ {["concurrency:key1" := Js.Int 60000]} ∅ ∅
       {["concurrency:key1" := {["r1" := 5000]}]})) _) 5000 _).
  - discriminate.
  - vm_compute. reflexivity.
Defined.

(** C6 as stated fails for the empty request id: the call returns before the
    sweep, and a member whose score is past stays in the set. *)
Lemma renew_empty_id_skips_sweep :
  refreshConcurrencyLease (memoryRedisClient 10000) bare_config 10000 "key1" ""
    None (mkClient ∅ ∅ ∅ ∅ {["concurrency:key1" := {["r1" := 5000]}]})
  = (Return 0, mkClient ∅ ∅ ∅ ∅ {["concurrency:key1" := {["r1" := 5000]}]})
  ∧ zscore (mkClient ∅ ∅ ∅ ∅ {["concurrency:key1" := {["r1" := 5000]}]})
      "concurrency:key1" "r1" = Some 5000.
Proof. split; vm_compute; reflexivity. Qed.

(** ** Sweep before read *)

(** C2, as amended: [getConcurrency] and [decrConcurrency] return the size
    of the set they leave, and every member of that set was a member before
    and has a score after [now]; [refreshConcurrencyLease] with a request id
    that is not empty returns 1 exactly when the request was a member with a
    score after [now], and every other member it leaves has a score after
    [now]. *)
Theorem sweep_before_count (now : Z) (apiKeyId : string) (this : MemoryRedisClient) :
  (∃ (count : Z) (this' : MemoryRedisClient),
     getConcurrency (memoryRedisClient now) now apiKeyId this = (Return count, this')
     ∧ count = Z.of_nat (size (leases this' apiKeyId))
     ∧ ∀ member score, leases this' apiKeyId !! member = Some score →
         now < score ∧ leases this apiKeyId !! member = Some score)
  ∧ (∀ requestId, ∃ (count : Z) (this' : MemoryRedisClient),
       decrConcurrency (memoryRedisClient now) now apiKeyId requestId this
         = (Return count, this')
       ∧ count = Z.of_nat (size (leases this' apiKeyId))
       ∧ ∀ member score, leases this' apiKeyId !! member = Some score →
           now < score ∧ leases this apiKeyId !! member = Some score)
  ∧ (∀ config requestId leaseSeconds_arg, requestId ≠ "" →
       ∃ (renewed : Z) (this' : MemoryRedisClient),
         refreshConcurrencyLease (memoryRedisClient now) config now apiKeyId
           requestId leaseSeconds_arg this = (Return renewed, this')
         ∧ (renewed = 1
              ∧ (∃ score, leases this apiKeyId !! requestId = Some score ∧ now < score)
            ∨ renewed = 0
              ∧ ¬ (∃ score, leases this apiKeyId !! requestId = Some score ∧ now < score))
         ∧ ∀ member score, member ≠ requestId →
             leases this' apiKeyId !! member = Some score →
             now < score ∧ leases this apiKeyId !! member = Some score).
Proof.
  split; [|split].
  - rewrite getConcurrency_memory. cbv zeta.
    destruct (_isExpired this now (concurrency_key apiKeyId)).
    + eexists _, _. split; [done|].
      assert (Hnone : leases (with_zsets (delete (concurrency_key apiKeyId)) this)
                        apiKeyId = ∅).
      { unfold leases. cbn. by rewrite lookup_delete_eq. }
      rewrite Hnone. split; [by rewrite map_size_empty|].
      intros member score. by rewrite lookup_empty.
    + eexists _, _. split; [done|]. rewrite leases_swept. split; [done|].
      intros member score Hm. apply unexpired_lookup in Hm. tauto.
  - intros requestId.
    pose proof (decrConcurrency_memory now apiKeyId requestId this) as Hdecr.
    cbv zeta in Hdecr. eexists _, _. split; [exact Hdecr|].
    rewrite leases_after_release. split; [done|].
    intros member score. apply remaining_leases_lookup.
  - intros config requestId leaseSeconds_arg Hid.
    pose proof (refreshConcurrencyLease_memory config now apiKeyId requestId
                  leaseSeconds_arg this Hid) as Hrefresh.
    cbv zeta in Hrefresh.
    destruct (unexpired now (leases this apiKeyId) !! requestId) as [score|] eqn:Hm.
    + eexists _, _. split; [exact Hrefresh|]. split.
      * left. split; [done|]. apply unexpired_lookup in Hm. exists score. tauto.
      * intros member sc Hne. unfold leases at 1. cbn. rewrite lookup_insert_eq. cbn.
        rewrite lookup_insert_ne by done. intros Hsc.
        apply unexpired_lookup in Hsc. tauto.
    + eexists _, _. split; [exact Hrefresh|]. split.
      * right. split; [done|]. intros (score & Hscore & Hlt).
        assert (Hin : unexpired now (leases this apiKeyId) !! requestId = Some score)
          by (by apply unexpired_lookup).
        by rewrite Hm in Hin.
      * intros member sc _. rewrite leases_swept. intros Hsc.
        apply unexpired_lookup in Hsc. tauto.
Qed.

(** The theorem at work on [refreshConcurrencyLease]: at 10 s the lease that
    ended at 5 s is not renewed. *)
Lemma sweep_before_count_witness :
  ∃ (renewed : Z) (this' : MemoryRedisClient),
    refreshConcurrencyLease (memoryRedisClient 10000) bare_config 10000 "key1"
      "r1" None (mkClient ∅ ∅ ∅ ∅ {["concurrency:key1" := {["r1" := 5000]}]})
      = (Return renewed, this')
    ∧ (renewed = 1
         ∧ (∃ score,
              leases (mkClient ∅ ∅ ∅ ∅ {["concurrency:key1" := {["r1" := 5000]}]})
                "key1" !! "r1" = Some score ∧ 10000 < score)
       ∨ renewed = 0
         ∧ ¬ (∃ score,
                leases (mkClient ∅ ∅ ∅ ∅ {["concurrency:key1" := {["r1" := 5000]}]})
                  "key1" !! "r1" = Some score ∧ 10000 < score))
    ∧ ∀ member score, member ≠ "r1" →
        leases this' "key1" !! member = Some score →
        10000 < score
        ∧ leases (mkClient ∅ ∅ ∅ ∅ {["concurrency:key1" := {["r1" := 5000]}]})
            "key1" !! member = Some score.
Proof.
  apply (proj2 (proj2 (sweep_before_count 10000 "key1"
    (mkClient ∅ ∅ ∅ ∅ {["concurrency:key1" := {["r1" := 5000]}]})))).
  discriminate.
Defined.

(** C2 as stated fails for [refreshConcurrencyLease] with the empty request
    id: nothing is removed, and the member whose score is 5000 is still in
    the set at time 10000. *)
Lemma renew_empty_id_keeps_expired_member :
  (refreshConcurrencyLease (memoryRedisClient 10000) bare_config 10000 "key1" ""
     None (mkClient ∅ ∅ ∅ ∅ {["concurrency:key1" := {["old" := 5000]}]})).1
  = Return 0
  ∧ leases
      (refreshConcurrencyLease (memoryRedisClient 10000) bare_config 10000 "key1" ""
         None (mkClient ∅ ∅ ∅ ∅ {["concurrency:key1" := {["old" := 5000]}]})).2
      "key1" !! "old" = Some 5000.
Proof. split; vm_compute; reflexivity. Qed.

(** ** Sticky sessions: lazy renewal *)

Lemma ceil_div_positive (a : Z) : 0 < a → 0 < Js.ceil_div a 1000.
Proof.
  intros Ha. unfold Js.ceil_div.
  assert (- a / 1000 < 0); [|lia].
  apply Z.div_lt_upper_bound; lia.
Qed.

(** [ttl] returns the code of the answer, and remaining seconds are
    positive. *)
Lemma ttl_ttl_query (this : MemoryRedisClient) (now : Z) (key : string) :
  ttl this now key = ttl_code (ttl_query this now key)
  ∧ ∀ seconds, ttl_query this now key = Remaining seconds → 0 < seconds.
Proof.
  unfold ttl, ttl_query. destruct (ttls this !! key) as [[t|]|].
  - destruct (Z.ltb_spec now t) as [Hlt|Hge].
    + pose proof (ceil_div_positive (t - now) ltac:(lia)) as Hpos.
      replace (0 <? Js.ceil_div (t - now) 1000) with true by lia.
      split; [done|]. by intros seconds [= <-].
    + assert (Js.ceil_div (t - now) 1000 <= 0).
      { unfold Js.ceil_div. assert (0 <= - (t - now) / 1000); [|lia].
        apply Z.div_pos; lia. }
      replace (0 <? Js.ceil_div (t - now) 1000) with false by lia.
      split; [done|]. done.
  - split; done.
  - destruct (exists_key this key); split; done.
Qed.

(** C8, as amended.  [extendSessionAccountMappingTTL] follows the rules of
    lazy renewal.  With a threshold of zero it returns [true] whatever the
    receiver is, and the state is untouched: nothing is read or written.
    Otherwise, on the class, the answer of the TTL query decides: absent
    gives [false], no expiry gives [true], remaining seconds below the
    threshold give [true] after [expire(key, fullTTL)], anything else gives
    [true]; and only that [expire] changes the state.  Where a structure
    holds the key and the full TTL is positive, the write sets the expiry to
    [now] plus the full TTL; where the full TTL is not positive or no
    structure holds the key, it changes nothing. *)
Theorem extendTTL_lazy_renewal (appConfig : Config) (now : Z) (sessionHash : string)
    (this : MemoryRedisClient) :
  (threshold_minutes appConfig = 0 →
     ∀ St (receiver : Methods St) (st : St),
       extendSessionAccountMappingTTL receiver appConfig sessionHash st
       = (Return true, st))
  ∧ (threshold_minutes appConfig ≠ 0 →
     extendSessionAccountMappingTTL (memoryRedisClient now) appConfig sessionHash this
     = match lazy_renewal (threshold_minutes appConfig * 60) (full_ttl appConfig)
               (ttl_query this now (sticky_session_key sessionHash)) with
       | (result, None) => (Return result, this)
       | (result, Some fullTTL) =>
           (Return result,
            (expire this now (sticky_session_key sessionHash) (Js.Int fullTTL)).2)
       end)
  ∧ (exists_key this (sticky_session_key sessionHash) = true →
     0 < full_ttl appConfig →
     ttls (expire this now (sticky_session_key sessionHash)
             (Js.Int (full_ttl appConfig))).2 !! sticky_session_key sessionHash
     = Some (Js.Int (now + full_ttl appConfig * 1000)))
  ∧ (exists_key this (sticky_session_key sessionHash) = false
     ∨ full_ttl appConfig ≤ 0 →
     (expire this now (sticky_session_key sessionHash)
        (Js.Int (full_ttl appConfig))).2 = this).
Proof.
  split; [|split; [|split]].
  - intros Hzero St receiver st. unfold extendSessionAccountMappingTTL.
    fold (threshold_minutes appConfig). by rewrite Hzero.
  - intros Hthreshold. unfold extendSessionAccountMappingTTL.
    fold (threshold_minutes appConfig). fold (full_ttl appConfig).
    replace (threshold_minutes appConfig =? 0) with false by lia.
    set (key := sticky_session_key sessionHash).
    destruct (ttl_ttl_query this now key) as [Hcode Hpos].
    assert (Hread : m_ttl (memoryRedisClient now) key this
                    = (Return (ttl_code (ttl_query this now key)), this)).
    { cbn. by rewrite Hcode. }
    destruct (ttl_query this now key) as [| |seconds] eqn:Hanswer; cbn [lazy_renewal].
    + apply try_catch_Return. by rewrite (bind_Return _ _ _ _ _ Hread).
    + apply try_catch_Return. by rewrite (bind_Return _ _ _ _ _ Hread).
    + specialize (Hpos seconds eq_refl). cbn [ttl_code] in Hread.
      destruct (seconds <? threshold_minutes appConfig * 60) eqn:Hbelow;
        apply try_catch_Return; rewrite (bind_Return _ _ _ _ _ Hread);
        replace (seconds =? -2) with false by lia;
        replace (seconds =? -1) with false by lia;
        rewrite Hbelow; [|done].
      cbn. unfold bind, returns, ret.
      by destruct (expire this now key (Js.Int (full_ttl appConfig))).
  - intros Hheld Hfull. unfold expire. rewrite Hheld. cbn.
    replace (0 <? full_ttl appConfig) with true by lia. cbn.
    by rewrite lookup_insert_eq.
  - intros Hnone. unfold expire.
    destruct (exists_key this (sticky_session_key sessionHash)); [|done].
    destruct Hnone as [Hnone|Hfull]; [done|]. cbn.
    by replace (0 <? full_ttl appConfig) with false by lia.
Qed.

(** The theorem at work: twenty minutes are left, the threshold is thirty,
    and the mapping gets its full hour again. *)
Lemma extendTTL_lazy_renewal_witness :
  extendSessionAccountMappingTTL (memoryRedisClient 0)
    {| timezoneOffset := None; metricsWindow := None;
       session := Some {| stickyTtlHours := Some 1;
                          renewalThresholdMinutes := Some 30 |};
       concurrency := None |}
    "abc"
    (mkClient {["sticky_session:abc" := "account-1"]}
       {["sticky_session:abc" := Js.Int 1200000]} ∅ ∅ ∅)
  = (Return true,
     mkClient {["sticky_session:abc" := "account-1"]}
       {["sticky_session:abc" := Js.Int 3600000]} ∅ ∅ ∅).
Proof.
  rewrite (proj1 (proj2 (extendTTL_lazy_renewal
    {| timezoneOffset := None; metricsWindow := None;
       session := Some {| stickyTtlHours := Some 1;
                          renewalThresholdMinutes := Some 30 |};
       concurrency := None |} 0 "abc"
    (mkClient {["sticky_session:abc" := "account-1"]}
       {["sticky_session:abc" := Js.Int 1200000]} ∅ ∅ ∅)))).
  - vm_compute. reflexivity.
  - vm_compute. discriminate.
Defined.

(** C8 as stated fails for a full TTL that is not positive.  With
    [stickyTtlHours] -1 and a threshold of 30 minutes, a mapping with 20
    minutes left is below the threshold; [expire(key, -3600)] writes nothing,
    and [true] is returned with the 20 minutes unchanged. *)
Lemma extendTTL_negative_full_ttl :
  let appConfig :=
    {| timezoneOffset := None; metricsWindow := None;
       session := Some {| stickyTtlHours := Some (-1);
                          renewalThresholdMinutes := Some 30 |};
       concurrency := None |} in
  let this :=
    mkClient {["sticky_session:abc" := "account-1"]}
      {["sticky_session:abc" := Js.Int 1200000]} ∅ ∅ ∅ in
  full_ttl appConfig = -3600
  ∧ ttl this 0 (sticky_session_key "abc") = 1200
  ∧ extendSessionAccountMappingTTL (memoryRedisClient 0) appConfig "abc" this
    = (Return true, this).
Proof. vm_compute. repeat split. Qed.

(** ** Errors of the store *)

(** A handler that throws what it caught changes nothing. *)
Lemma try_catch_rethrow {St A} (body : Async St A) (st : St) :
  try_catch body (λ error, throw error) st = body st.
Proof. unfold try_catch, throw. by destruct (body st) as [[a|e] st']. Qed.

(** A handler that returns a value turns every error into that value. *)
Lemma try_catch_default {St A} (body : Async St A) (a : A) (st : St) :
  try_catch body (λ _, ret a) st
  = match body st with
    | (Return r, st') => (Return r, st')
    | (Throw _, st') => (Return a, st')
    end.
Proof. unfold try_catch, ret. by destruct (body st) as [[r|e] st']. Qed.

(** C4, as amended.  Whatever the receiver's methods do, [incrConcurrency]
    and [decrConcurrency] end as their first failing call ends ([zrem], the
    sweep, [zcard] or [del] for the release), with the same error and the
    state that call left, and [incrConcurrency] returns only what [zcard]
    returned; [getConcurrency] and [refreshConcurrencyLease] turn the error
    of any of their calls (the sweep, [zcard], [zscore], [zadd]) into the
    result 0.  A hash field that does not parse as a number counts as 0 in
    [hincrby]: the call returns and leaves what it does for a field that
    holds [0]. *)
Theorem lease_error_paths {St} (this : Methods St) (config : Config) (now : Z)
    (apiKeyId requestId : string) (leaseSeconds_arg : option Z) (st : St) :
  let key := concurrency_key apiKeyId in
  let sweep := m_zremrangebyscore this key MinusInf (Score now) in
  let count_after_sweep st0 :=
    match sweep st0 with
    | (Throw e, st1) => (Throw e, st1)
    | (Return _, st1) =>
        match m_zcard this key st1 with
        | (Throw e, st2) => (Throw e, st2)
        | (Return count, st2) =>
            if count <=? 0 then
              match m_del this [key] st2 with
              | (Throw e, st3) => (Throw e, st3)
              | (Return _, st3) => (Return 0, st3)
              end
            else (Return count, st2)
        end
    end in
  (requestId ≠ "" →
     incrConcurrency this config now apiKeyId requestId leaseSeconds_arg st
     = match sweep st with
       | (Throw e, st1) => (Throw e, st1)
       | (Return _, st1) =>
           match m_zadd this key
                   [(now + effective_lease config leaseSeconds_arg * 1000, requestId)]
                   st1 with
           | (Throw e, st2) => (Throw e, st2)
           | (Return _, st2) =>
               m_zcard this key
                 (m_ttls_set this key
                    (Js.Int (now + key_lifetime config leaseSeconds_arg)) st2)
           end
       end)
  ∧ decrConcurrency this now apiKeyId requestId st
    = (if Js.truthy requestId then
         match m_zrem this key [requestId] st with
         | (Throw e, st0) => (Throw e, st0)
         | (Return _, st0) => count_after_sweep st0
         end
       else count_after_sweep st)
  ∧ getConcurrency this now apiKeyId st
    = match sweep st with
      | (Throw _, st1) => (Return 0, st1)
      | (Return _, st1) =>
          match m_zcard this key st1 with
          | (Throw _, st2) => (Return 0, st2)
          | (Return count, st2) => (Return count, st2)
          end
      end
  ∧ refreshConcurrencyLease this config now apiKeyId requestId leaseSeconds_arg st
    = (if Js.truthy requestId then
         match sweep st with
         | (Throw _, st1) => (Return 0, st1)
         | (Return _, st1) =>
             match m_zscore this key requestId st1 with
             | (Throw _, st2) => (Return 0, st2)
             | (Return None, st2) => (Return 0, st2)
             | (Return (Some _), st2) =>
                 match m_zadd this key
                         [(now + effective_lease config leaseSeconds_arg * 1000,
                           requestId)] st2 with
                 | (Throw _, st3) => (Return 0, st3)
                 | (Return _, st3) =>
                     (Return 1,
                      m_ttls_set this key
                        (Js.Int (now + key_lifetime config leaseSeconds_arg)) st3)
                 end
             end
         end
       else (Return 0, st))
  ∧ (∀ (client : MemoryRedisClient) (hashKey field text : string) (increment : Z),
       default ∅ (hashes client !! hashKey) !! field = Some text →
       Js.parseInt text = Js.NaN →
       hincrby client hashKey field increment
       = hincrby
           (with_hashes
              <[hashKey := <[field := "0"]> (default ∅ (hashes client !! hashKey))]>
              client)
           hashKey field increment).
Proof.
  intros key sweep count_after_sweep.
  pose proof (key_lifetime_positive config leaseSeconds_arg) as Hlife.
  assert (Hrest : ∀ st0,
            (await _ := sweep in
             await count := m_zcard this key in
             if count <=? 0 then (await _ := m_del this [key] in ret 0)
             else ret count) st0
            = count_after_sweep st0).
  { intros st0. unfold count_after_sweep, bind at 1.
    destruct (sweep st0) as [[n|e] st1]; [|done].
    unfold bind at 1. destruct (m_zcard this key st1) as [[count|e] st2]; [|done].
    destruct (count <=? 0); [|done].
    unfold bind, ret. by destruct (m_del this [key] st2) as [[d|e] st3]. }
  split; [|split; [|split; [|split]]].
  - intros Hid. unfold incrConcurrency.
    rewrite (truthy_nonempty _ Hid). cbn [negb]. cbv zeta.
    fold key. fold sweep. fold (effective_lease config leaseSeconds_arg).
    fold (key_lifetime config leaseSeconds_arg).
    replace (0 <? key_lifetime config leaseSeconds_arg) with true by lia.
    rewrite try_catch_rethrow. unfold bind at 1.
    destruct (sweep st) as [[n|e] st1]; [|done].
    unfold bind at 1. destruct (m_zadd this key _ st1) as [[m|e] st2]; [|done].
    unfold bind, update, ret.
    by destruct (m_zcard this key _) as [[c|e] st3].
  - unfold decrConcurrency. cbv zeta. fold key. fold sweep.
    rewrite try_catch_rethrow. unfold bind at 1.
    destruct (Js.truthy requestId).
    + unfold bind at 1.
      destruct (m_zrem this key [requestId] st) as [[n|e] st0]; [|done].
      unfold ret at 1. apply Hrest.
    + unfold ret at 1. apply Hrest.
  - unfold getConcurrency. cbv zeta. fold key. fold sweep.
    rewrite try_catch_default. unfold bind.
    destruct (sweep st) as [[n|e] st1]; [|done].
    by destruct (m_zcard this key st1) as [[count|e] st2].
  - unfold refreshConcurrencyLease.
    destruct (Js.truthy requestId); cbn [negb]; [|done].
    cbv zeta. fold key. fold sweep. fold (effective_lease config leaseSeconds_arg).
    fold (key_lifetime config leaseSeconds_arg).
    replace (0 <? key_lifetime config leaseSeconds_arg) with true by lia.
    rewrite try_catch_default. unfold bind at 1.
    destruct (sweep st) as [[n|e] st1]; [|done].
    unfold bind at 1.
    destruct (m_zscore this key requestId st1) as [[[score|]|e] st2]; [|done..].
    unfold bind at 1.
    destruct (m_zadd this key _ st2) as [[m|e] st3]; [|done].
    done.
  - intros client hashKey field text increment Hfield Hnan.
    unfold hincrby. cbn [hashes with_hashes].
    rewrite lookup_insert_eq. cbn [from_option id].
    rewrite Hfield, lookup_insert_eq. cbn [Js.parseInt_opt]. rewrite Hnan.
    change (Js.parseInt "0") with (Js.Int 0). cbn [Js.or0]. f_equal.
    destruct client. unfold with_hashes. cbn. f_equal.
    by rewrite !insert_insert_eq.
Qed.

(** The theorem at work on a store that cannot be reached:
    [incrConcurrency] throws the store's error. *)
Lemma lease_error_paths_witness :
  incrConcurrency (unavailable (mkError "ECONNREFUSED")) bare_config 0 "key1" "r1"
    None tt
  = (Throw (mkError "ECONNREFUSED"), tt).
Proof.
  rewrite (proj1 (lease_error_paths (unavailable (mkError "ECONNREFUSED"))
    bare_config 0 "key1" "r1" None tt)).
  - reflexivity.
  - discriminate.
Defined.

(** C4 as stated fails for [getConcurrency] and [refreshConcurrencyLease]:
    on a store that cannot be reached they return 0 and throw nothing. *)
Lemma getConcurrency_swallows_store_error :
  getConcurrency (unavailable (mkError "ECONNREFUSED")) 0 "key1" tt = (Return 0, tt)
  ∧ refreshConcurrencyLease (unavailable (mkError "ECONNREFUSED")) bare_config 0
      "key1" "r1" None tt = (Return 0, tt).
Proof. split; reflexivity. Qed.

(** ** Counters and their expiry *)

(** The state [exec] leaves is the fold of the commands' effects. *)
Lemma exec_state (commands : list command) : ∀ (this : MemoryRedisClient) (now : Z),
  (exec this now commands).2
  = fold_left (λ client cmd, (run_command client now cmd).2) commands this.
Proof.
  induction commands as [|cmd rest IH]; intros this now; [done|].
  cbn [exec fold_left].
  destruct (run_command this now cmd) as [r client] eqn:Hrun.
  specialize (IH client now).
  destruct (exec client now rest) as [rs client']. cbn in *. done.
Qed.

(** [hincrby] leaves the expiries alone, creates its key and removes none. *)
Lemma hincrby_ttls (this : MemoryRedisClient) (now : Z) (key field : string)
    (increment : Z) :
  ttls (run_command this now (Chincrby key field increment)).2 = ttls this.
Proof. done. Qed.

Lemma hincrby_exists (this : MemoryRedisClient) (now : Z) (key field : string)
    (increment : Z) :
  exists_key (run_command this now (Chincrby key field increment)).2 key = true.
Proof.
  cbn. unfold exists_key. cbn.
  assert (Hhas : has (<[key := <[field :=
            Js.toString
              (Js.or0 (Js.parseInt_opt (default ∅ (hashes this !! key) !! field))
               + increment)]> (default ∅ (hashes this !! key))]> (hashes this)) key
          = true).
  { apply has_true. rewrite lookup_insert_eq. eauto. }
  rewrite Hhas. by rewrite orb_true_r.
Qed.

Lemma has_insert_mono {V} (m : gmap string V) (key key' : string) (v : V) :
  has m key' = true → has (<[key := v]> m) key' = true.
Proof.
  rewrite !has_true. intros [w Hw].
  destruct (decide (key = key')) as [->|Hne].
  - rewrite lookup_insert_eq. eauto.
  - rewrite lookup_insert_ne by done. eauto.
Qed.

Lemma hincrby_exists_mono (this : MemoryRedisClient) (now : Z)
    (key field key' : string) (increment : Z) :
  exists_key this key' = true →
  exists_key (run_command this now (Chincrby key field increment)).2 key' = true.
Proof.
  cbn. unfold exists_key. cbn. intros Hex.
  repeat (apply orb_prop in Hex as [Hex|Hex]); rewrite ?Hex, ?orb_true_r; try done.
  by rewrite (has_insert_mono _ _ _ _ Hex), orb_true_r.
Qed.

(** [expire] changes no structure, and no expiry but that of its key. *)
Lemma expire_structures (this : MemoryRedisClient) (now : Z) (key : string)
    (seconds : Js.num) :
  store (expire this now key seconds).2 = store this
  ∧ ∀ key', exists_key (expire this now key seconds).2 key' = exists_key this key'.
Proof.
  unfold expire. destruct (exists_key this key); cbn; [|done].
  unfold _setExpiry. destruct seconds as [sec|]; [|done].
  by destruct (0 <? sec).
Qed.

Lemma expire_other (this : MemoryRedisClient) (now : Z) (key key' : string)
    (seconds : Js.num) :
  key' ≠ key →
  ttls (expire this now key seconds).2 !! key' = ttls this !! key'.
Proof.
  intros Hne. unfold expire. destruct (exists_key this key); cbn; [|done].
  unfold _setExpiry. destruct seconds as [sec|]; [|done].
  destruct (0 <? sec); [|done]. cbn. by rewrite lookup_insert_ne.
Qed.

Lemma expire_held (this : MemoryRedisClient) (now : Z) (key : string) (seconds : Z) :
  exists_key this key = true → 0 < seconds →
  ttls (expire this now key (Js.Int seconds)).2 !! key
  = Some (Js.Int (now + seconds * 1000)).
Proof.
  intros Hex Hpos. unfold expire. rewrite Hex. cbn.
  replace (0 <? seconds) with true by lia. cbn. by rewrite lookup_insert_eq.
Qed.

Lemma run_expire (this : MemoryRedisClient) (now : Z) (key : string)
    (seconds : Js.num) :
  (run_command this now (Cexpire key seconds)).2 = (expire this now key seconds).2.
Proof. cbn. by destruct (expire this now key seconds). Qed.

(** An expiry [seconds] ahead reads as a TTL of [seconds]. *)
Lemma ttl_of_expiry (this : MemoryRedisClient) (now : Z) (key : string) (seconds : Z) :
  0 < seconds →
  ttls this !! key = Some (Js.Int (now + seconds * 1000)) →
  ttl this now key = seconds.
Proof.
  intros Hpos Hexpiry. unfold ttl. rewrite Hexpiry.
  replace (now + seconds * 1000 - now) with (seconds * 1000) by lia.
  unfold Js.ceil_div. replace (- (seconds * 1000)) with ((- seconds) * 1000) by lia.
  rewrite Z.div_mul by lia.
  replace (0 <? - - seconds) with true by lia. lia.
Qed.

(** The keys of one call are told apart by their prefixes. *)
Lemma token_keys_distinct (keyId keyId' today month hour model : string) (minute : Z) :
  usage_daily_key keyId today ≠ usage_monthly_key keyId' month
  ∧ usage_daily_key keyId today ≠ usage_hourly_key keyId' hour
  ∧ usage_daily_key keyId today ≠ system_minute_key minute
  ∧ usage_monthly_key keyId month ≠ usage_hourly_key keyId' hour
  ∧ usage_monthly_key keyId month ≠ system_minute_key minute
  ∧ usage_hourly_key keyId hour ≠ system_minute_key minute
  ∧ model_daily_key model today ≠ usage_daily_key keyId today
  ∧ model_daily_key model today ≠ usage_monthly_key keyId month
  ∧ model_daily_key model today ≠ usage_hourly_key keyId hour
  ∧ model_daily_key model today ≠ system_minute_key minute.
Proof.
  unfold usage_daily_key, usage_monthly_key, usage_hourly_key, system_minute_key,
    model_daily_key.
  repeat split; intros Heq; cbn in Heq; discriminate.
Qed.

(** What [incrementTokenUsage] does to the expiries: the key's daily,
    monthly and hourly buckets and the system's minute bucket get theirs, and
    no other key's expiry changes. *)
Lemma incrementTokenUsage_ttls (this : MemoryRedisClient) (config : Config)
    (now : Z) (keyId : string) (tokens inputTokens outputTokens
      cacheCreateTokens cacheReadTokens : Z) (model : string)
    (ephemeral5mTokens ephemeral1hTokens : Z) (isLongContextRequest : bool) :
  let this' :=
    incrementTokenUsage this config now keyId tokens inputTokens outputTokens
      cacheCreateTokens cacheReadTokens model ephemeral5mTokens ephemeral1hTokens
      isLongContextRequest in
  let daily := usage_daily_key keyId (getDateStringInTimezone config now) in
  let monthly := usage_monthly_key keyId (month_string config now) in
  let hourly := usage_hourly_key keyId (hour_string config now) in
  let minute := system_minute_key (now / 60000) in
  ttls this' !! daily = Some (Js.Int (now + 86400 * 32 * 1000))
  ∧ ttls this' !! monthly = Some (Js.Int (now + 86400 * 365 * 1000))
  ∧ ttls this' !! hourly = Some (Js.Int (now + 86400 * 7 * 1000))
  ∧ (∀ w, metricsWindow config = Some w → 0 < w →
       ttls this' !! minute = Some (Js.Int (now + w * 60 * 2 * 1000)))
  ∧ (∀ key, key ≠ daily → key ≠ monthly → key ≠ hourly → key ≠ minute →
       ttls this' !! key = ttls this !! key).
Proof.
  intros this' daily monthly hourly minute.
  pose proof (token_keys_distinct keyId keyId (getDateStringInTimezone config now)
                (month_string config now) (hour_string config now)
                (_normalizeModelName model) (now / 60000))
    as (Hdm & Hdh & Hds & Hmh & Hms & Hhs & _).
  fold daily monthly hourly minute in Hdm, Hdh, Hds, Hmh, Hms, Hhs.
  unfold this', incrementTokenUsage. rewrite exec_state.
  unfold incrementTokenUsage_commands. cbv zeta.
  fold daily monthly hourly minute.
  rewrite !fold_left_app.
  set (step := λ (client : MemoryRedisClient) (cmd : command),
                 (run_command client now cmd).2).
  set (totals := fold_left step _ this).
  set (flagged := fold_left step _ totals).
  assert (Htotals : ttls totals = ttls this) by done.
  assert (Hflagged : ttls flagged = ttls this).
  { unfold flagged. by destruct isLongContextRequest. }
  cbn [fold_left]. unfold step.
  match goal with
  | |- context [run_command ?client now (Cexpire daily _)] => set (counted := client)
  end.
  assert (Httls : ttls counted = ttls this).
  { unfold counted. by rewrite !hincrby_ttls. }
  assert (Hdaily : exists_key counted daily = true).
  { unfold counted. repeat first [apply hincrby_exists | apply hincrby_exists_mono]. }
  assert (Hmonthly : exists_key counted monthly = true).
  { unfold counted. repeat first [apply hincrby_exists | apply hincrby_exists_mono]. }
  assert (Hhourly : exists_key counted hourly = true).
  { unfold counted. repeat first [apply hincrby_exists | apply hincrby_exists_mono]. }
  assert (Hminute : exists_key counted minute = true).
  { unfold counted. repeat first [apply hincrby_exists | apply hincrby_exists_mono]. }
  clearbody counted. clear totals flagged Htotals Hflagged step.
  rewrite !run_expire.
  set (e1 := (expire counted now daily (Js.Int (86400 * 32))).2).
  set (e2 := (expire e1 now monthly (Js.Int (86400 * 365))).2).
  set (e3 := (expire e2 now hourly (Js.Int (86400 * 7))).2).
  assert (He1 : ∀ key, exists_key e1 key = exists_key counted key)
    by apply expire_structures.
  assert (He2 : ∀ key, exists_key e2 key = exists_key counted key).
  { intros key. unfold e2. by rewrite (proj2 (expire_structures _ _ _ _)). }
  assert (He3 : ∀ key, exists_key e3 key = exists_key counted key).
  { intros key. unfold e3. by rewrite (proj2 (expire_structures _ _ _ _)). }
  split; [|split; [|split; [|split]]].
  - rewrite expire_other by done. unfold e3. rewrite expire_other by done.
    unfold e2. rewrite expire_other by done.
    unfold e1. by rewrite expire_held.
  - rewrite expire_other by done. unfold e3. rewrite expire_other by done.
    unfold e2. rewrite expire_held; [done| |done]. by rewrite He1.
  - rewrite expire_other by done.
    unfold e3. rewrite expire_held; [done| |done]. by rewrite He2.
  - intros w -> Hw. rewrite expire_held; [done| |lia]. by rewrite He3.
  - intros key Hkd Hkm Hkh Hks. rewrite expire_other by done.
    unfold e3. rewrite expire_other by done.
    unfold e2. rewrite expire_other by done.
    unfold e1. rewrite expire_other by done. by rewrite Httls.
Qed.

(** [get] keeps a bucket that is held: reading another key touches only that
    key, and reading the bucket's own key changes nothing. *)
Lemma get_keeps_bucket (this : MemoryRedisClient) (now : Z) (key bucket : string) :
  bucket_held this now bucket = true →
  bucket_held (get this now key).2 now bucket = true.
Proof.
  unfold bucket_held, get. intros Hheld.
  destruct (_isExpired this now key) eqn:Hexp; [|done].
  apply andb_prop in Hheld as [Hhas Hlive]. apply negb_true_iff in Hlive.
  assert (Hne : bucket ≠ key) by (intros ->; congruence).
  cbn. apply andb_true_intro. split.
  - apply has_true. rewrite lookup_delete_ne by done. by apply has_true.
  - apply negb_true_iff. unfold _isExpired in *. cbn.
    by rewrite lookup_delete_ne.
Qed.

Lemma bucket_held_exists (this : MemoryRedisClient) (now : Z) (bucket : string) :
  bucket_held this now bucket = true → exists_key this bucket = true.
Proof.
  unfold bucket_held, exists_key. intros Hheld.
  apply andb_prop in Hheld as [-> _]. done.
Qed.

Lemma cost_keys_distinct (keyId today month hour : string) :
  cost_daily_key keyId today ≠ cost_monthly_key keyId month
  ∧ cost_daily_key keyId today ≠ cost_hourly_key keyId hour
  ∧ cost_monthly_key keyId month ≠ cost_hourly_key keyId hour.
Proof.
  unfold cost_daily_key, cost_monthly_key, cost_hourly_key.
  repeat split; intros Heq; cbn in Heq; discriminate.
Qed.

Section CostExpiry.
Context `{FloatArith}.

(** What [incrementDailyCost] does to the expiry of a bucket that is held
    when the call is made. *)
Lemma incrementDailyCost_ttls (this : MemoryRedisClient) (config : Config)
    (now : Z) (keyId : string) (amount : float) :
  let this' := incrementDailyCost this config now keyId amount in
  let daily := cost_daily_key keyId (getDateStringInTimezone config now) in
  let monthly := cost_monthly_key keyId (month_string config now) in
  let hourly := cost_hourly_key keyId (hour_string config now) in
  (bucket_held this now daily = true →
     ttls this' !! daily = Some (Js.Int (now + 86400 * 30 * 1000)))
  ∧ (bucket_held this now monthly = true →
     ttls this' !! monthly = Some (Js.Int (now + 86400 * 90 * 1000)))
  ∧ (bucket_held this now hourly = true →
     ttls this' !! hourly = Some (Js.Int (now + 86400 * 7 * 1000))).
Proof.
  intros this' daily monthly hourly.
  pose proof (cost_keys_distinct keyId (getDateStringInTimezone config now)
                (month_string config now) (hour_string config now))
    as (Hdm & Hdh & Hmh).
  fold daily monthly hourly in Hdm, Hdh, Hmh.
  set (total := cost_total_key keyId).
  set (g1 := (get this now daily).2).
  set (g2 := (get g1 now monthly).2).
  set (g3 := (get g2 now hourly).2).
  set (g4 := (get g3 now total).2).
  set (e1 := (expire g4 now daily (Js.Int (86400 * 30))).2).
  set (e2 := (expire e1 now monthly (Js.Int (86400 * 90))).2).
  set (e3 := (expire e2 now hourly (Js.Int (86400 * 7))).2).
  assert (Hthis' : ttls this' = ttls e3).
  { unfold this', incrementDailyCost. cbv zeta.
    fold daily monthly hourly total.
    destruct (get this now daily) as [r1 c1] eqn:E1.
    replace c1 with g1 by (unfold g1; rewrite ?E1; done).
    destruct (get g1 now monthly) as [r2 c2] eqn:E2.
    replace c2 with g2 by (unfold g2; rewrite ?E2; done).
    destruct (get g2 now hourly) as [r3 c3] eqn:E3.
    replace c3 with g3 by (unfold g3; rewrite ?E3; done).
    destruct (get g3 now total) as [r4 c4] eqn:E4.
    replace c4 with g4 by (unfold g4; rewrite ?E4; done).
    destruct (expire g4 now daily _) as [x1 c5] eqn:E5.
    replace c5 with e1 by (unfold e1; rewrite ?E5; done).
    destruct (expire e1 now monthly _) as [x2 c6] eqn:E6.
    replace c6 with e2 by (unfold e2; rewrite ?E6; done).
    destruct (expire e2 now hourly _) as [x3 c7] eqn:E7.
    replace c7 with e3 by (unfold e3; rewrite ?E7; done).
    done. }
  rewrite Hthis'.
  assert (Hgets : ∀ bucket, bucket_held this now bucket = true →
                            exists_key g4 bucket = true).
  { intros bucket Hheld. apply (bucket_held_exists _ now).
    unfold g4, g3, g2, g1. by do 4 apply get_keeps_bucket. }
  assert (He1 : ∀ key, exists_key e1 key = exists_key g4 key)
    by apply expire_structures.
  assert (He2 : ∀ key, exists_key e2 key = exists_key g4 key).
  { intros key. unfold e2. by rewrite (proj2 (expire_structures _ _ _ _)). }
  split; [|split]; intros Hheld; specialize (Hgets _ Hheld).
  - unfold e3. rewrite expire_other by done.
    unfold e2. rewrite expire_other by done.
    unfold e1. by rewrite expire_held.
  - unfold e3. rewrite expire_other by done.
    unfold e2. rewrite expire_held; [done| |done]. by rewrite He1.
  - unfold e3. rewrite expire_held; [done| |done]. by rewrite He2.
Qed.

End CostExpiry.

Lemma length_append (s1 s2 : string) :
  String.length (s1 +:+ s2) = (String.length s1 + String.length s2)%nat.
Proof.
  induction s1 as [|c s1 IH]; [done|].
  change (String c s1 +:+ s2) with (String c (s1 +:+ s2)). cbn. by rewrite IH.
Qed.

(** An hour of the day is written with two digits. *)
Lemma length_pad2_hour (h : Z) : 0 ≤ h < 24 → String.length (pad2 h) = 2%nat.
Proof.
  intros Hh. replace h with (Z.of_nat (Z.to_nat h)) by lia.
  assert (Hn : (Z.to_nat h < 24)%nat) by lia. revert Hn.
  generalize (Z.to_nat h). intros n Hn.
  do 24 (destruct n as [|n]; [vm_compute; reflexivity|]). lia.
Qed.

(** The key's per-model daily bucket is none of the four keys that
    [incrementTokenUsage] expires. *)
Lemma key_model_daily_key_distinct (config : Config) (now : Z)
    (keyId model : string) :
  let bucket := key_model_daily_key keyId model (getDateStringInTimezone config now) in
  bucket ≠ usage_daily_key keyId (getDateStringInTimezone config now)
  ∧ bucket ≠ usage_monthly_key keyId (month_string config now)
  ∧ bucket ≠ usage_hourly_key keyId (hour_string config now)
  ∧ bucket ≠ system_minute_key (now / 60000).
Proof.
  intros bucket. unfold bucket.
  assert (Hhour : String.length (pad2 (getHourInTimezone config now)) = 2%nat).
  { apply length_pad2_hour. unfold getHourInTimezone, Date.getUTCHours.
    apply Z.mod_pos_bound. lia. }
  unfold key_model_daily_key, usage_daily_key, usage_monthly_key, usage_hourly_key,
    system_minute_key, hour_string, month_string, getDateStringInTimezone.
  cbv zeta.
  generalize dependent (pad2 (getHourInTimezone config now)).
  generalize (Js.toString (Date.getUTCFullYear (getDateInTimezone config now))).
  generalize (pad2 (Date.getUTCMonth (getDateInTimezone config now) + 1)).
  generalize (pad2 (Date.getUTCDate (getDateInTimezone config now))).
  generalize (Js.toString (now / 60000)).
  intros minute day month year hour Hhour.
  repeat split; intros Heq; try discriminate Heq;
    injection Heq as Heq; apply (f_equal String.length) in Heq;
    rewrite !length_append in Heq; cbn in Heq; lia.
Qed.

(** C3, as amended.  After [incrementTokenUsage] the key's daily bucket has a
    TTL of 32 days, its monthly bucket 365 days, its hourly bucket 7 days and
    the system's minute bucket twice the metrics window when that is
    positive; the expiry of every other key is what it was, those of the two
    per-model daily buckets among them.  After [incrementDailyCost] a cost
    bucket that was held when the call was made has a TTL of 30 days (daily),
    90 days (monthly) or 7 days (hourly). *)
Theorem bucket_ttls (this : MemoryRedisClient) (config : Config) (now : Z)
    (keyId : string) (tokens inputTokens outputTokens cacheCreateTokens
      cacheReadTokens : Z) (model : string)
    (ephemeral5mTokens ephemeral1hTokens : Z) (isLongContextRequest : bool) :
  let counted :=
    incrementTokenUsage this config now keyId tokens inputTokens outputTokens
      cacheCreateTokens cacheReadTokens model ephemeral5mTokens ephemeral1hTokens
      isLongContextRequest in
  let today := getDateStringInTimezone config now in
  let month := month_string config now in
  let hour := hour_string config now in
  ttl counted now (usage_daily_key keyId today) = 86400 * 32
  ∧ ttl counted now (usage_monthly_key keyId month) = 86400 * 365
  ∧ ttl counted now (usage_hourly_key keyId hour) = 86400 * 7
  ∧ (∀ w, metricsWindow config = Some w → 0 < w →
       ttl counted now (system_minute_key (now / 60000)) = w * 60 * 2)
  ∧ (∀ key, key ≠ usage_daily_key keyId today →
       key ≠ usage_monthly_key keyId month → key ≠ usage_hourly_key keyId hour →
       key ≠ system_minute_key (now / 60000) →
       ttls counted !! key = ttls this !! key)
  ∧ ttls counted !! model_daily_key (_normalizeModelName model) today
    = ttls this !! model_daily_key (_normalizeModelName model) today
  ∧ ttls counted !! key_model_daily_key keyId (_normalizeModelName model) today
    = ttls this !! key_model_daily_key keyId (_normalizeModelName model) today
  ∧ ∀ (F : FloatArith) (amount : float),
      let charged := incrementDailyCost this config now keyId amount in
      (bucket_held this now (cost_daily_key keyId today) = true →
         ttl charged now (cost_daily_key keyId today) = 86400 * 30)
      ∧ (bucket_held this now (cost_monthly_key keyId month) = true →
         ttl charged now (cost_monthly_key keyId month) = 86400 * 90)
      ∧ (bucket_held this now (cost_hourly_key keyId hour) = true →
         ttl charged now (cost_hourly_key keyId hour) = 86400 * 7).
Proof.
  intros counted today month hour.
  pose proof (incrementTokenUsage_ttls this config now keyId tokens inputTokens
                outputTokens cacheCreateTokens cacheReadTokens model
                ephemeral5mTokens ephemeral1hTokens isLongContextRequest)
    as (Hdaily & Hmonthly & Hhourly & Hminute & Hframe).
  fold counted today month hour in Hdaily, Hmonthly, Hhourly, Hminute, Hframe.
  split; [|split; [|split; [|split; [|split; [|split; [|split]]]]]].
  - by apply ttl_of_expiry.
  - by apply ttl_of_expiry.
  - by apply ttl_of_expiry.
  - intros w Hw Hpos. apply ttl_of_expiry; [lia|]. by apply Hminute.
  - exact Hframe.
  - pose proof (token_keys_distinct keyId keyId today month hour
                  (_normalizeModelName model) (now / 60000))
      as (_ & _ & _ & _ & _ & _ & H1 & H2 & H3 & H4).
    by apply Hframe.
  - pose proof (key_model_daily_key_distinct config now keyId
                  (_normalizeModelName model)) as (H1 & H2 & H3 & H4).
    by apply Hframe.
  - intros F amount charged.
    pose proof (incrementDailyCost_ttls this config now keyId amount)
      as (Hcd & Hcm & Hch).
    fold charged today month hour in Hcd, Hcm, Hch.
    split; [|split]; intros Hheld; apply ttl_of_expiry; auto; lia.
Qed.

(** The theorem at work: a daily cost bucket that is held gets 30 days. *)
Lemma bucket_ttls_witness :
  ttl
    (incrementDailyCost
       (mkClient {["usage:cost:daily:k1:2023-11-15" := "1"]} ∅ ∅ ∅ ∅)
       bare_config 1700000000000 "k1" (Some 2))
    1700000000000
    (cost_daily_key "k1" (getDateStringInTimezone bare_config 1700000000000))
  = 86400 * 30.
Proof.
  apply (proj1 (proj2 (proj2 (proj2 (proj2 (proj2 (proj2 (proj2
    (bucket_ttls (mkClient {["usage:cost:daily:k1:2023-11-15" := "1"]} ∅ ∅ ∅ ∅)
       bare_config 1700000000000 "k1" 0 0 0 0 0 "unknown" 0 0 false)))))))
    whole_amounts (Some 2))).
  vm_compute. reflexivity.
Defined.

(** C3 as stated fails.  On 2023-11-15 (UTC+8), with the cost buckets of key
    [k1] held, [incrementDailyCost] leaves the daily cost bucket with 30 days
    and the monthly one with 90 days, not 32 and 365; and
    [incrementTokenUsage] leaves the per-model daily buckets with no expiry. *)
Lemma cost_bucket_ttls_differ :
  ttl
    (incrementDailyCost
       (mkClient {["usage:cost:daily:k1:2023-11-15" := "1";
                   "usage:cost:monthly:k1:2023-11" := "1"]} ∅ ∅ ∅ ∅)
       bare_config 1700000000000 "k1" (Some 2))
    1700000000000 "usage:cost:daily:k1:2023-11-15" = 86400 * 30
  ∧ ttl
      (incrementDailyCost
         (mkClient {["usage:cost:daily:k1:2023-11-15" := "1";
                     "usage:cost:monthly:k1:2023-11" := "1"]} ∅ ∅ ∅ ∅)
         bare_config 1700000000000 "k1" (Some 2))
      1700000000000 "usage:cost:monthly:k1:2023-11" = 86400 * 90
  ∧ ttl
      (incrementTokenUsage new_client bare_config 1700000000000 "k1" 15 10 5 0 0
         "claude-3-opus" 0 0 false)
      1700000000000 "usage:model:daily:claude-3-opus:2023-11-15" = -1
  ∧ ttl
      (incrementTokenUsage new_client bare_config 1700000000000 "k1" 15 10 5 0 0
         "claude-3-opus" 0 0 false)
      1700000000000 "usage:k1:model:daily:claude-3-opus:2023-11-15" = -1.
Proof. split; [|split; [|split]]; vm_compute; reflexivity. Qed.

(** The first write of a cost bucket: each [expire] of [incrementDailyCost]
    runs while the [incrbyfloat] of its key is still waiting on its [get],
    finds no key and sets nothing, so the bucket is created with no expiry;
    the second write finds it and sets one. *)
Lemma incrementDailyCost_first_write :
  ttl (incrementDailyCost new_client bare_config 1700000000000 "k1" (Some 2))
    1700000000000 "usage:cost:daily:k1:2023-11-15" = -1
  ∧ ttl
      (incrementDailyCost
         (incrementDailyCost new_client bare_config 1700000000000 "k1" (Some 2))
         bare_config 1700000000000 "k1" (Some 2))
      1700000000000 "usage:cost:daily:k1:2023-11-15" = 86400 * 30
  ∧ get
      (incrementDailyCost
         (incrementDailyCost new_client bare_config 1700000000000 "k1" (Some 2))
         bare_config 1700000000000 "k1" (Some 2))
      1700000000000 "usage:cost:daily:k1:2023-11-15"
    = (Some "4",
       incrementDailyCost
         (incrementDailyCost new_client bare_config 1700000000000 "k1" (Some 2))
         bare_config 1700000000000 "k1" (Some 2)).
Proof. split; [|split]; vm_compute; reflexivity. Qed.

(** ** The definitions on concrete inputs *)

Example parseInt_examples :
  Js.parseInt "42" = Js.Int 42
  ∧ Js.parseInt "  -12abc" = Js.Int (-12)
  ∧ Js.parseInt "0x1F" = Js.Int 31
  ∧ Js.parseInt "abc" = Js.NaN
  ∧ Js.parseInt "" = Js.NaN.
Proof. repeat split. Qed.

(** [parseInt] skips the no-break space (U+00A0) and the byte order mark
    (U+FEFF), here in UTF-8, as it skips a blank. *)
Example parseInt_unicode_blanks :
  Js.parseInt (String (ascii_of_nat 194) (String (ascii_of_nat 160) "12"))
  = Js.Int 12
  ∧ Js.parseInt
      (String (ascii_of_nat 239)
         (String (ascii_of_nat 187) (String (ascii_of_nat 191) " 7")))
    = Js.Int 7
  ∧ Js.parseInt (String (ascii_of_nat 194) "12") = Js.NaN.
Proof. repeat split. Qed.

Example date_strings :
  getDateStringInTimezone bare_config 0 = "1970-01-01"
  ∧ getDateStringInTimezone bare_config 951782400000 = "2000-02-29"
  ∧ getDateStringInTimezone bare_config 1700000000000 = "2023-11-15"
  ∧ month_string bare_config 1700000000000 = "2023-11"
  ∧ hour_string bare_config 1700000000000 = "2023-11-15:06".
Proof. repeat split. Qed.

Example normalized_model_names :
  _normalizeModelName "us.anthropic.claude-3-5-sonnet-20241022-v2:0"
    = "claude-3-5-sonnet-20241022"
  ∧ _normalizeModelName "claude-3-opus:latest" = "claude-3-opus"
  ∧ _normalizeModelName "claude-instant-v1:2" = "claude-instant"
  ∧ _normalizeModelName "unknown" = "unknown"
  ∧ _normalizeModelName "" = "".
Proof. repeat split. Qed.

(** Two requests of five seconds, one second apart; at six seconds both
    leases have ended and the count is 0. *)
Example two_leases_then_none :
  let '(first, client1) :=
    incrConcurrency (memoryRedisClient 0) bare_config 0 "key1" "r1" (Some 5)
      new_client in
  let '(second, client2) :=
    incrConcurrency (memoryRedisClient 1000) bare_config 1000 "key1" "r2" (Some 5)
      client1 in
  let '(count, client3) :=
    getConcurrency (memoryRedisClient 6000) 6000 "key1" client2 in
  first = Return 1 ∧ second = Return 2 ∧ count = Return 0
  ∧ leases client3 "key1" = ∅.
Proof. vm_compute. repeat split. Qed.

(** A lock taken with token [A]: [B] cannot release it, [A] can, once. *)
Example lock_release_sequence :
  let held :=
    (setAccountLock (memoryRedisClient 1000) "lock:account:1" "A" 5000 new_client).2 in
  let '(byB, client1) :=
    releaseAccountLock (memoryRedisClient 2000) "lock:account:1" "B" held in
  let '(byA, client2) :=
    releaseAccountLock (memoryRedisClient 2000) "lock:account:1" "A" client1 in
  let '(again, client3) :=
    releaseAccountLock (memoryRedisClient 2000) "lock:account:1" "A" client2 in
  byB = Return false ∧ client1 = held
  ∧ byA = Return true ∧ client2 = new_client
  ∧ again = Return false ∧ client3 = new_client.
Proof. vm_compute. repeat split. Qed.

(** ** Numbers and their decimal text *)

(** The decimal digit [String] writes for a value below ten is the one
    [parseInt] reads back. *)
Lemma digit_value_pretty_N_char (x : N) :
  (x < 10)%N → Js.digit_value 10 (pretty_N_char x) = Some (Z.of_N x).
Proof.
  intros Hx.
  assert (x = 0 ∨ x = 1 ∨ x = 2 ∨ x = 3 ∨ x = 4 ∨ x = 5 ∨ x = 6 ∨ x = 7
          ∨ x = 8 ∨ x = 9)%N as Hcases by lia.
  repeat (destruct Hcases as [->|Hcases]; [reflexivity|]).
  by subst x.
Qed.

(** Reading the digits of a positive number continues the value read so far. *)
Lemma digits_pretty_N_go (x : N) :
  (0 < x)%N →
  ∃ k : Z, 0 < k ∧ ∀ (acc : option Z) (s : string),
    Js.digits 10 acc (pretty_N_go x s)
    = Js.digits 10 (Some (default 0 acc * k + Z.of_N x)) s.
Proof.
  induction (N.lt_wf_0 x) as [x _ IH]. intros Hpos.
  assert (Hdigit : Js.digit_value 10 (pretty_N_char (x `mod` 10)%N)
                   = Some (Z.of_N (x `mod` 10)%N)).
  { apply digit_value_pretty_N_char. by apply N.mod_lt. }
  assert (Hsplit : Z.of_N x = Z.of_N (x `div` 10)%N * 10 + Z.of_N (x `mod` 10)%N).
  { pose proof (N.div_mod x 10). lia. }
  destruct (decide (x `div` 10 = 0)%N) as [Hsmall|Hlarge].
  - exists 10. split; [lia|]. intros acc s.
    rewrite pretty_N_go_step by done. rewrite Hsmall, pretty_N_go_0.
    cbn [Js.digits]. rewrite Hdigit.
    replace (default 0 acc * 10 + Z.of_N x)
      with (default 0 acc * 10 + Z.of_N (x `mod` 10)%N)
      by (rewrite Hsplit, Hsmall; ring).
    done.
  - destruct (IH (x `div` 10)%N) as (k & Hk & Hread).
    { by apply N.div_lt. }
    { by apply N.neq_0_lt_0. }
    exists (k * 10). split; [lia|]. intros acc s.
    rewrite pretty_N_go_step by done. rewrite Hread.
    cbn [Js.digits]. rewrite Hdigit. cbn [default].
    replace (default 0 acc * (k * 10) + Z.of_N x)
      with ((default 0 acc * k + Z.of_N (x `div` 10)%N) * 10
            + Z.of_N (x `mod` 10)%N) by (rewrite Hsplit; ring).
    done.
Qed.

(** The text of a positive number starts with one of the digits 1 to 9. *)
Lemma pretty_N_go_head (x : N) (s : string) :
  (0 < x)%N →
  ∃ (d : N) (r : string),
    pretty_N_go x s = String (pretty_N_char d) r ∧ (0 < d < 10)%N.
Proof.
  revert s. induction (N.lt_wf_0 x) as [x _ IH]. intros s Hpos.
  rewrite pretty_N_go_step by done.
  destruct (decide (x `div` 10 = 0)%N) as [Hsmall|Hlarge].
  - rewrite Hsmall, pretty_N_go_0. exists (x `mod` 10)%N, s. split; [done|].
    pose proof (N.mod_lt x 10). pose proof (N.div_mod x 10). lia.
  - apply IH; [by apply N.div_lt|by apply N.neq_0_lt_0].
Qed.

(** No white space is skipped in front of an ASCII character that is not
    a blank. *)
Lemma skip_spaces_ascii (c : ascii) (r : string) :
  (nat_of_ascii c < 128)%nat → Js.is_space c = false →
  Js.skip_spaces (String c r) = String c r.
Proof.
  intros Hc Hspace. cbn [Js.skip_spaces]. rewrite Hspace.
  assert (H2 : ∀ c2, Js.is_space2 c c2 = false).
  { intros c2. unfold Js.is_space2.
    destruct (Nat.eqb_spec (nat_of_ascii c) 194); [lia|done]. }
  assert (H3 : ∀ c2 c3, Js.is_space3 c c2 c3 = false).
  { intros c2 c3. unfold Js.is_space3. cbv zeta.
    destruct (Nat.eqb_spec (nat_of_ascii c) 225); [lia|].
    destruct (Nat.eqb_spec (nat_of_ascii c) 226); [lia|].
    destruct (Nat.eqb_spec (nat_of_ascii c) 227); [lia|].
    destruct (Nat.eqb_spec (nat_of_ascii c) 239); [lia|]. done. }
  destruct r as [|c2 [|c3 r3]]; by rewrite ?H2, ?H3.
Qed.

(** [parseInt] reads the integer back from a text that starts with a digit
    from 1 to 9. *)
Lemma parse_integer_digits (hex : bool) (d : N) (r : string) :
  (0 < d < 10)%N →
  Js.parse_integer hex (String (pretty_N_char d) r)
  = match Js.digits 10 None (String (pretty_N_char d) r) with
    | Some n => Js.Int n
    | None => Js.NaN
    end.
Proof.
  intros Hd.
  assert (d = 1 ∨ d = 2 ∨ d = 3 ∨ d = 4 ∨ d = 5 ∨ d = 6 ∨ d = 7 ∨ d = 8
          ∨ d = 9)%N as Hcases by lia.
  unfold Js.parse_integer.
  repeat (destruct Hcases as [->|Hcases];
    [by rewrite skip_spaces_ascii by (vm_compute; first [reflexivity|lia])|]).
  subst d. by rewrite skip_spaces_ascii by (vm_compute; first [reflexivity|lia]).
Qed.

Lemma parse_integer_positive (hex : bool) (p : positive) :
  Js.parse_integer hex (pretty (N.pos p)) = Js.Int (Z.pos p).
Proof.
  unfold pretty, pretty_N. rewrite decide_False by done.
  destruct (pretty_N_go_head (N.pos p) "") as (d & r & Hhead & Hd); [lia|].
  rewrite Hhead, parse_integer_digits by done. rewrite <- Hhead.
  destruct (digits_pretty_N_go (N.pos p)) as (k & _ & Hread); [lia|].
  rewrite Hread. cbn. done.
Qed.

(** A leading minus sign negates what the rest reads as. *)
Lemma parse_integer_minus (hex : bool) (d : N) (r : string) :
  (0 < d < 10)%N →
  Js.parse_integer hex ("-" +:+ String (pretty_N_char d) r)
  = match Js.parse_integer hex (String (pretty_N_char d) r) with
    | Js.Int n => Js.Int (- n)
    | Js.NaN => Js.NaN
    end.
Proof.
  intros Hd.
  assert (d = 1 ∨ d = 2 ∨ d = 3 ∨ d = 4 ∨ d = 5 ∨ d = 6 ∨ d = 7 ∨ d = 8
          ∨ d = 9)%N as Hcases by lia.
  unfold Js.parse_integer.
  change ("-" +:+ String (pretty_N_char d) r)
    with (String "-" (String (pretty_N_char d) r)).
  repeat (destruct Hcases as [->|Hcases];
    [rewrite !skip_spaces_ascii by (vm_compute; first [reflexivity|lia]);
     cbv -[Js.digits Z.opp]; by destruct (Js.digits _ _ _)|]).
  subst d. rewrite !skip_spaces_ascii by (vm_compute; first [reflexivity|lia]).
  cbv -[Js.digits Z.opp]. by destruct (Js.digits _ _ _).
Qed.

(** [parseInt(String(n))] is [n]: a counter written as text is read back
    unchanged ([hex] false is the reading [parseFloat] gives the same text). *)
Lemma parse_integer_toString (hex : bool) (n : Z) :
  Js.parse_integer hex (Js.toString n) = Js.Int n.
Proof.
  unfold Js.toString, pretty, pretty_Z. destruct n as [|p|p].
  - by destruct hex.
  - apply parse_integer_positive.
  - pose proof (parse_integer_positive hex p) as Hpos.
    change (pretty p) with (pretty (N.pos p)).
    unfold pretty, pretty_N in Hpos |- *. rewrite decide_False in Hpos |- * by done.
    destruct (pretty_N_go_head (N.pos p) "") as (d & r & Hhead & Hd); [lia|].
    rewrite Hhead in Hpos |- *.
    rewrite parse_integer_minus, Hpos by done. done.
Qed.

Lemma parseInt_toString (n : Z) : Js.parseInt (Js.toString n) = Js.Int n.
Proof. apply parse_integer_toString. Qed.

(** ** The TTL cleaner *)


Lemma cleaner_entry_state (now : Z) (n : Z) (this : MemoryRedisClient)
    (key : string) (expireTime : Js.num) :
  _startTTLCleaner_entry now (n, this) (key, expireTime)
  = if Js.leb expireTime (Js.Int now) then (n + 1, without_key this key)
    else (n, this).
Proof. unfold _startTTLCleaner_entry. by destruct this, (Js.leb _ _). Qed.

(** The loop of the cleaner over any list of entries. *)
Lemma cleaner_loop (now : Z) (entries : list (string * Js.num)) :
  ∀ (n : Z) (this : MemoryRedisClient),
  let due := filter (λ e, Js.leb e.2 (Js.Int now) = true) entries in
  let r := fold_left (_startTTLCleaner_entry now) entries (n, this) in
  r.1 = n + Z.of_nat (List.length due)
  ∧ ∀ k,
      store r.2 !! k = (if decide (k ∈ due.*1) then None else store this !! k)
      ∧ hashes r.2 !! k = (if decide (k ∈ due.*1) then None else hashes this !! k)
      ∧ lists r.2 !! k = (if decide (k ∈ due.*1) then None else lists this !! k)
      ∧ zsets r.2 !! k = (if decide (k ∈ due.*1) then None else zsets this !! k)
      ∧ ttls r.2 !! k = (if decide (k ∈ due.*1) then None else ttls this !! k).
Proof.
  induction entries as [|[key t] entries IH]; intros n this; cbn zeta.
  - split; [cbn; lia|]. intros k. cbn.
    rewrite !decide_False by apply not_elem_of_nil. done.
  - cbn [fold_left]. rewrite cleaner_entry_state, filter_cons. cbn [snd].
    destruct (Js.leb t (Js.Int now)) eqn:Hdue.
    + rewrite decide_True by done.
      destruct (IH (n + 1) (without_key this key)) as [Hcount Hmaps].
      split; [rewrite Hcount; cbn [List.length]; lia|].
      intros k. destruct (Hmaps k) as (Hs & Hh & Hl & Hz & Ht).
      rewrite Hs, Hh, Hl, Hz, Ht. cbn [fmap list_fmap fst store hashes lists zsets ttls without_key].
      destruct (decide (k = key)) as [->|Hne].
      * rewrite !(decide_True (P := key ∈ key :: _)) by apply list_elem_of_here.
        rewrite !lookup_delete_eq. by destruct (decide (key ∈ _)).
      * rewrite !lookup_delete_ne by done.
        destruct (decide (k ∈ _)) as [Hin|Hnin].
        -- rewrite !(decide_True (P := k ∈ key :: _))
             by (by apply list_elem_of_further).
           done.
        -- rewrite !(decide_False (P := k ∈ key :: _)); [done|..];
             intros Hin; apply elem_of_cons in Hin as [?|?]; done.
    + rewrite decide_False by (cbn; congruence). apply IH.
Qed.

(** A key is due in the entries of [this.ttls] exactly when it has expired. *)
Lemma due_isExpired (this : MemoryRedisClient) (now : Z) (key : string) :
  key ∈ (filter (λ e, Js.leb e.2 (Js.Int now) = true) (map_to_list (ttls this))).*1
  ↔ _isExpired this now key = true.
Proof.
  unfold _isExpired. rewrite list_elem_of_fmap. split.
  - intros ([k t] & -> & Hin). apply list_elem_of_filter in Hin as [Hdue Hin].
    apply elem_of_map_to_list in Hin. cbn in *. by rewrite Hin.
  - destruct (ttls this !! key) as [t|] eqn:Ht; [|done]. intros Hdue.
    exists (key, t). split; [done|]. apply list_elem_of_filter. split; [done|].
    by apply elem_of_map_to_list.
Qed.

(** What the cleaner leaves at each key. *)
Lemma cleaner_lookup (this : MemoryRedisClient) (now : Z) (key : string) :
  let cleaned := (_startTTLCleaner_callback this now).2 in
  store cleaned !! key = (if _isExpired this now key then None else store this !! key)
  ∧ hashes cleaned !! key = (if _isExpired this now key then None else hashes this !! key)
  ∧ lists cleaned !! key = (if _isExpired this now key then None else lists this !! key)
  ∧ zsets cleaned !! key = (if _isExpired this now key then None else zsets this !! key)
  ∧ ttls cleaned !! key = (if _isExpired this now key then None else ttls this !! key).
Proof.
  cbn zeta. unfold _startTTLCleaner_callback.
  destruct (cleaner_loop now (map_to_list (ttls this)) 0 this) as [_ Hmaps].
  destruct (Hmaps key) as (Hs & Hh & Hl & Hz & Ht).
  rewrite Hs, Hh, Hl, Hz, Ht.
  destruct (_isExpired this now key) eqn:Hexp.
  - rewrite !decide_True by (by apply due_isExpired). done.
  - rewrite !decide_False; [done|..]; rewrite due_isExpired; congruence.
Qed.

Lemma cleaner_isExpired (this : MemoryRedisClient) (now : Z) (key : string) :
  _isExpired (_startTTLCleaner_callback this now).2 now key = false.
Proof.
  destruct (cleaner_lookup this now key) as (_ & _ & _ & _ & Ht).
  unfold _isExpired at 1. rewrite Ht.
  destruct (_isExpired this now key) eqn:Hexp; [done|].
  unfold _isExpired in Hexp. by destruct (ttls this !! key).
Qed.

Lemma size_map_filter {V} (P : string * V → Prop) `{!∀ x, Decision (P x)}
    (m : gmap string V) :
  size (filter P m) = List.length (filter P (map_to_list m)).
Proof.
  rewrite map_filter_alt, <- length_map_to_list.
  apply Permutation_length, map_to_list_to_map.
  eapply NoDup_fmap_fst.
  - intros k v1 v2 H1 H2.
    apply list_elem_of_filter in H1 as [_ H1], H2 as [_ H2].
    apply elem_of_map_to_list in H1, H2. congruence.
  - apply NoDup_filter, NoDup_map_to_list.
Qed.

Lemma length_filter_split {A} (P : A → Prop) `{!∀ x, Decision (P x)} (l : list A) :
  (List.length (filter P l) + List.length (filter (λ x, ¬ P x) l))%nat
  = List.length l.
Proof.
  induction l as [|x l IH]; [done|].
  rewrite !filter_cons. destruct (decide (P x)).
  - rewrite decide_False by tauto. cbn. lia.
  - rewrite decide_True by done. cbn. lia.
Qed.

(** X1. One run of the TTL cleaner at [now] deletes every key whose expiry has
    passed from all five maps, leaves every other key as it was, and reports
    the number of keys it deleted. Afterwards no key is expired, so a second
    run at the same time deletes nothing. *)
Theorem ttl_cleaner_removes_expired_keys (this : MemoryRedisClient) (now : Z) :
  let r := _startTTLCleaner_callback this now in
  r.1 = Z.of_nat (size (ttls this)) - Z.of_nat (size (ttls r.2))
  ∧ (∀ key, _isExpired this now key = true →
       store r.2 !! key = None ∧ hashes r.2 !! key = None
       ∧ lists r.2 !! key = None ∧ zsets r.2 !! key = None
       ∧ ttls r.2 !! key = None)
  ∧ (∀ key, _isExpired this now key = false →
       store r.2 !! key = store this !! key
       ∧ hashes r.2 !! key = hashes this !! key
       ∧ lists r.2 !! key = lists this !! key
       ∧ zsets r.2 !! key = zsets this !! key
       ∧ ttls r.2 !! key = ttls this !! key)
  ∧ (∀ key, _isExpired r.2 now key = false)
  ∧ _startTTLCleaner_callback r.2 now = (0, r.2).
Proof.
  intros r.
  assert (Hlookup := cleaner_lookup this now).
  assert (Hkept : ttls r.2 = filter (λ e, Js.leb e.2 (Js.Int now) ≠ true) (ttls this)).
  { apply map_eq. intros k. destruct (Hlookup k) as (_ & _ & _ & _ & Ht).
    fold r in Ht. rewrite Ht. unfold _isExpired.
    destruct (ttls this !! k) as [t|] eqn:Hk.
    - destruct (Js.leb t (Js.Int now)) eqn:Hdue.
      + symmetry. apply map_lookup_filter_None. right. intros t' Ht'.
        cbn. rewrite Hk in Ht'. injection Ht' as <-. by rewrite Hdue; intros ?.
      + symmetry. apply map_lookup_filter_Some. split; [done|]. cbn. by rewrite Hdue.
    - symmetry. apply map_lookup_filter_None. by left. }
  split; [|split; [|split; [|split]]].
  - unfold r at 1, _startTTLCleaner_callback.
    destruct (cleaner_loop now (map_to_list (ttls this)) 0 this) as [Hcount _].
    rewrite Hcount, Hkept, size_map_filter, <- (length_map_to_list (ttls this)).
    pose proof (length_filter_split
      (λ e : string * Js.num, Js.leb e.2 (Js.Int now) = true)
      (map_to_list (ttls this))). lia.
  - intros key Hexp. destruct (Hlookup key) as (Hs & Hh & Hl & Hz & Ht).
    fold r in Hs, Hh, Hl, Hz, Ht. by rewrite Hs, Hh, Hl, Hz, Ht, Hexp.
  - intros key Hexp. destruct (Hlookup key) as (Hs & Hh & Hl & Hz & Ht).
    fold r in Hs, Hh, Hl, Hz, Ht. by rewrite Hs, Hh, Hl, Hz, Ht, Hexp.
  - intros key. apply cleaner_isExpired.
  - unfold _startTTLCleaner_callback at 1.
    assert (Hnone : ∀ entries n st,
      (∀ e, e ∈ entries → Js.leb e.2 (Js.Int now) = false) →
      fold_left (_startTTLCleaner_entry now) entries (n, st) = (n, st)).
    { induction entries as [|[k t] entries IH]; intros n st Hall; [done|].
      cbn [fold_left]. rewrite cleaner_entry_state.
      pose proof (Hall (k, t) (list_elem_of_here _ _)) as Hkt. cbn in Hkt.
      rewrite Hkt. apply IH. intros e He. apply Hall. by apply list_elem_of_further. }
    apply Hnone. intros [k t] Hin. apply elem_of_map_to_list in Hin.
    pose proof (cleaner_isExpired this now k) as Hexp. fold r in Hexp.
    unfold _isExpired in Hexp. rewrite Hin in Hexp. done.
Qed.

Lemma cleaner_exists_key (this : MemoryRedisClient) (now : Z) (key : string) :
  exists_key (_startTTLCleaner_callback this now).2 key
  = if _isExpired this now key then false else exists_key this key.
Proof.
  destruct (cleaner_lookup this now key) as (Hs & Hh & Hl & Hz & _).
  unfold exists_key, has. rewrite Hs, Hh, Hl, Hz.
  destruct (_isExpired this now key); [|done].
  rewrite !bool_decide_eq_false_2; [done|..]; by intros [? ?].
Qed.

Lemma cleaner_keys (this : MemoryRedisClient) (now : Z) (pattern : string)
    (regex_test : string → string → bool) :
  keys regex_test (_startTTLCleaner_callback this now).2 now pattern
  ≡ₚ keys regex_test this now pattern.
Proof.
  apply NoDup_Permutation.
  - apply NoDup_filter, NoDup_elements.
  - apply NoDup_filter, NoDup_elements.
  - intros k. unfold keys. rewrite !list_elem_of_filter, !elem_of_elements.
    unfold allKeys. rewrite !elem_of_union, !elem_of_dom.
    pose proof (cleaner_lookup this now k) as (Hs & Hh & Hl & Hz & _).
    pose proof (cleaner_isExpired this now k) as Hclean.
    cbn zeta in Hs, Hh, Hl, Hz.
    rewrite Hclean, Hs, Hh, Hl, Hz.
    destruct (_isExpired this now k); [|done].
    cbn. split; [|intros [[=] _]].
    intros [_ [[[[? [=]]|[? [=]]]|[? [=]]]|[? [=]]]].
Qed.

(** X2. What the readers return does not depend on whether the cleaner has
    run: [get], [hget], [hgetall], [lrange], [zcard] and [ttl] answer the same
    on the cleaned state as on the state before, and [keys] lists the same
    keys. *)
Theorem ttl_cleaner_invisible_to_readers (this : MemoryRedisClient) (now : Z)
    (key field pattern : string) (start stop : Z)
    (regex_test : string → string → bool) :
  let cleaned := (_startTTLCleaner_callback this now).2 in
  (get cleaned now key).1 = (get this now key).1
  ∧ (hget cleaned now key field).1 = (hget this now key field).1
  ∧ (hgetall cleaned now key).1 = (hgetall this now key).1
  ∧ (lrange cleaned now key start stop).1 = (lrange this now key start stop).1
  ∧ (zcard cleaned now key).1 = (zcard this now key).1
  ∧ ttl cleaned now key = ttl this now key
  ∧ keys regex_test cleaned now pattern ≡ₚ keys regex_test this now pattern.
Proof.
  intros cleaned.
  pose proof (cleaner_lookup this now key) as (Hs & Hh & Hl & Hz & Ht).
  pose proof (cleaner_isExpired this now key) as Hclean.
  pose proof (cleaner_exists_key this now key) as Hexists.
  fold cleaned in Hs, Hh, Hl, Hz, Ht, Hclean, Hexists.
  unfold get, hget, hgetall, lrange, zcard, ttl.
  rewrite Hclean, Hs, Hh, Hl, Hz, Ht, Hexists.
  split; [|split; [|split; [|split; [|split; [|split]]]]];
    try apply cleaner_keys;
    destruct (_isExpired this now key) eqn:Hexp; cbn [fst negb]; try done.
  - by destruct (lists this !! key).
  - unfold _isExpired in Hexp.
    destruct (ttls this !! key) as [[t|]|]; [|done..]. cbn in Hexp.
    assert (Js.ceil_div (t - now) 1000 ≤ 0).
    { unfold Js.ceil_div. apply Z.leb_le in Hexp.
      pose proof (Z.div_pos (- (t - now)) 1000). lia. }
    by rewrite (proj2 (Z.ltb_ge _ _)).
Qed.

(** ** Plain values: [set], [setex], [get], [expire], [ttl] and [incr] *)

Lemma toString_truthy (n : Z) : Js.truthy (Js.toString n) = true.
Proof.
  apply truthy_nonempty. intros Hempty.
  pose proof (parseInt_toString n) as Hparse. by rewrite Hempty in Hparse.
Qed.

(** What [get] returns when the key holds [value] in the plain store. *)
Lemma get_written (this : MemoryRedisClient) (now : Z) (key value : string) :
  store this !! key = Some value →
  (get this now key).1
  = if _isExpired this now key then None
    else if Js.truthy value then Some value else None.
Proof. intros Hv. unfold get. destruct (_isExpired this now key); [done|]. by rewrite Hv. Qed.

Lemma isExpired_ttls (this this' : MemoryRedisClient) (now : Z) (key : string) :
  ttls this' !! key = ttls this !! key →
  _isExpired this' now key = _isExpired this now key.
Proof. unfold _isExpired. by intros ->. Qed.

Lemma isExpired_at (this : MemoryRedisClient) (now t : Z) (key : string) :
  ttls this !! key = Some (Js.Int t) →
  _isExpired this now key = (t <=? now).
Proof. unfold _isExpired. by intros ->. Qed.

(** X3. A value written with [set] without options keeps the expiry the key
    had: it is read back until that expiry passes, and a key whose expiry has
    already passed reads as [null] although it was just written. [setex] with
    a positive TTL gives the key a fresh expiry of that many seconds; with a
    TTL that is not positive it writes no expiry and reads as after [set]. An
    empty value reads as [null]. *)
Theorem set_and_setex_read_back (this : MemoryRedisClient) (now now' : Z)
    (key value : string) (seconds : Z) :
  let read := if Js.truthy value then Some value else None in
  let plain := (set this now key value []).2 in
  let timed := (setex this now key seconds value).2 in
  ttls plain = ttls this
  ∧ (get plain now' key).1 = (if _isExpired this now' key then None else read)
  ∧ ttls timed !! key
    = (if 0 <? seconds then Some (Js.Int (now + seconds * 1000))
       else ttls this !! key)
  ∧ (get timed now' key).1
    = (if 0 <? seconds then if now + seconds * 1000 <=? now' then None else read
       else if _isExpired this now' key then None else read).
Proof.
  intros read plain timed.
  assert (Hplain : store plain !! key = Some value) by apply lookup_insert_eq.
  assert (Htimed : store timed !! key = Some value).
  { unfold timed, setex, _setExpiry. cbn.
    destruct (0 <? seconds); apply lookup_insert_eq. }
  assert (Httl : ttls timed !! key
                 = if 0 <? seconds then Some (Js.Int (now + seconds * 1000))
                   else ttls this !! key).
  { unfold timed, setex, _setExpiry. cbn.
    destruct (0 <? seconds); [apply lookup_insert_eq|done]. }
  split; [done|]. split; [|split; [done|]].
  - rewrite (get_written _ _ _ _ Hplain). by rewrite (isExpired_ttls plain this).
  - rewrite (get_written _ _ _ _ Htimed).
    destruct (0 <? seconds).
    + by rewrite (isExpired_at _ _ _ _ Httl).
    + by rewrite (isExpired_ttls timed this).
Qed.

Lemma ceil_div_seconds (seconds elapsed : Z) :
  Js.ceil_div (seconds * 1000 - elapsed) 1000 = seconds - elapsed / 1000.
Proof.
  unfold Js.ceil_div.
  replace (- (seconds * 1000 - elapsed)) with (elapsed + (- seconds) * 1000) by ring.
  rewrite Z.div_add by done. ring.
Qed.

(** X4. [expire] on an existing key with a positive number of seconds returns
    1, and [ttl] then counts down: [elapsed] milliseconds later it reports the
    remaining seconds, rounded up, and -2 once the time is over. The TTL of
    every other key is what it was. *)
Theorem expire_then_ttl_counts_down (this : MemoryRedisClient) (now : Z)
    (key : string) (seconds elapsed : Z) :
  exists_key this key = true → 0 < seconds →
  let timed := expire this now key (Js.Int seconds) in
  timed.1 = 1
  ∧ ttl timed.2 (now + elapsed) key
    = (if elapsed <? seconds * 1000 then seconds - elapsed / 1000 else -2)
  ∧ ∀ key', key' ≠ key →
      ttl timed.2 (now + elapsed) key' = ttl this (now + elapsed) key'.
Proof.
  intros Hexists Hpos timed. unfold timed, expire. rewrite Hexists. cbn [negb fst snd].
  unfold _setExpiry. rewrite (proj2 (Z.ltb_lt 0 seconds)) by done.
  split; [done|]. split.
  - unfold ttl. cbn [ttls with_ttls]. rewrite lookup_insert_eq.
    replace (now + seconds * 1000 - (now + elapsed))
      with (seconds * 1000 - elapsed) by ring.
    rewrite ceil_div_seconds.
    destruct (elapsed <? seconds * 1000) eqn:Hlt.
    + apply Z.ltb_lt in Hlt.
      assert (elapsed / 1000 < seconds) by (apply Z.div_lt_upper_bound; lia).
      by rewrite (proj2 (Z.ltb_lt _ _)) by lia.
    + apply Z.ltb_ge in Hlt.
      assert (seconds ≤ elapsed / 1000) by (apply Z.div_le_lower_bound; lia).
      by rewrite (proj2 (Z.ltb_ge _ _)) by lia.
  - intros key' Hne. unfold ttl. cbn [ttls with_ttls].
    rewrite lookup_insert_ne by done. done.
Qed.

(** The theorem at work: 2.5 seconds into a minute, 58 seconds are left. *)
Lemma expire_then_ttl_counts_down_witness :
  ttl (expire (mkClient {["k" := "v"]} ∅ ∅ ∅ ∅) 5000 "k" (Js.Int 60)).2
    (5000 + 2500) "k"
  = (if 2500 <? 60 * 1000 then 60 - 2500 / 1000 else -2).
Proof.
  refine (proj1 (proj2 (expire_then_ttl_counts_down
    (mkClient {["k" := "v"]} ∅ ∅ ∅ ∅) 5000 "k" 60 2500 _ _))).
  - reflexivity.
  - lia.
Defined.

(** The state [incr] leaves and the number it returns. *)
Lemma incr_unfold (this : MemoryRedisClient) (now : Z) (key : string) :
  incr this now key
  = (Js.or0 (Js.parseInt_opt (get this now key).1) + 1,
     with_store <[key := Js.toString (Js.or0 (Js.parseInt_opt (get this now key).1) + 1)]>
       (get this now key).2).
Proof. unfold incr. by destruct (get this now key). Qed.

Lemma get_ttls (this : MemoryRedisClient) (now : Z) (key : string) :
  ttls (get this now key).2 !! key
  = if _isExpired this now key then None else ttls this !! key.
Proof.
  unfold get. destruct (_isExpired this now key); [|done].
  cbn. apply lookup_delete_eq.
Qed.

(** X5. For a key whose count and the count after it are safe integers,
    [incr] returns the count it stores, one more than the number the key
    holds (0 for a key that holds none or no number): a later [get] reads the
    decimal text of that count and a later [incr] returns one more, unless
    the key has expired in between, when [get] reads [null] and the count
    restarts at 1.  A key whose expiry had passed loses it, any other key
    keeps its expiry, and a key that is not in the store counts from 1. *)
Theorem incr_counts_up (this : MemoryRedisClient) (now now' : Z) (key : string) :
  let before := Js.or0 (Js.parseInt_opt (get this now key).1) in
  forallb Js.isSafeInteger [before; before + 1] = true →
  let counted := incr this now key in
  counted.1 = before + 1
  ∧ (get counted.2 now' key).1
    = (if _isExpired counted.2 now' key then None
       else Some (Js.toString counted.1))
  ∧ (incr counted.2 now' key).1
    = (if _isExpired counted.2 now' key then 1 else counted.1 + 1)
  ∧ _isExpired counted.2 now key = false
  ∧ ttls counted.2 !! key
    = (if _isExpired this now key then None else ttls this !! key)
  ∧ (store this !! key = None → counted.1 = 1).
Proof.
  intros before _ counted. unfold counted. rewrite incr_unfold. fold before.
  cbn [fst snd].
  set (count := before + 1).
  set (stored := with_store _ _).
  assert (Hstored : store stored !! key = Some (Js.toString count))
    by apply lookup_insert_eq.
  assert (Hread : (get stored now' key).1
                  = if _isExpired stored now' key then None
                    else Some (Js.toString count)).
  { rewrite (get_written _ _ _ _ Hstored). by rewrite toString_truthy. }
  assert (Httls : ttls stored !! key
                  = if _isExpired this now key then None else ttls this !! key)
    by apply get_ttls.
  split; [done|]. split; [done|]. split; [|split; [|split; [done|]]].
  - rewrite incr_unfold. cbn [fst]. rewrite Hread.
    destruct (_isExpired stored now' key); [done|].
    cbn [Js.parseInt_opt]. by rewrite parseInt_toString.
  - unfold _isExpired at 1. rewrite Httls.
    destruct (_isExpired this now key) eqn:Hexp; [done|].
    unfold _isExpired in Hexp. by destruct (ttls this !! key).
  - intros Hnone. unfold count, before, get.
    destruct (_isExpired this now key); [done|]. by rewrite Hnone.
Qed.

(** The theorem at work: the second count of a fresh key is one more than
    the first. *)
Lemma incr_counts_up_witness :
  (incr (incr new_client 0 "visits").2 5 "visits").1
  = (if _isExpired (incr new_client 0 "visits").2 5 "visits" then 1
     else (incr new_client 0 "visits").1 + 1).
Proof.
  refine (proj1 (proj2 (proj2 (incr_counts_up new_client 0 5 "visits" _)))).
  reflexivity.
Defined.

(** ** Hashes *)

Lemma isExpired_with_hashes f (this : MemoryRedisClient) (now : Z) (key : string) :
  _isExpired (with_hashes f this) now key = _isExpired this now key.
Proof. done. Qed.


Lemma hincrby_counter (this : MemoryRedisClient) (key field : string) (increment : Z)
    (key' field' : string) :
  counter (hincrby this key field increment).2 key' field'
  = if decide (key' = key ∧ field' = field) then counter this key field + increment
    else counter this key' field'.
Proof.
  unfold counter, hincrby. cbn [snd hashes with_hashes].
  destruct (decide (key' = key ∧ field' = field)) as [[-> ->]|Hne].
  - rewrite lookup_insert_eq. cbn [from_option id]. rewrite lookup_insert_eq.
    cbn [Js.parseInt_opt]. by rewrite parseInt_toString.
  - destruct (decide (key' = key)) as [->|Hkey].
    + rewrite lookup_insert_eq. cbn [from_option id].
      rewrite lookup_insert_ne by (intros ->; by apply Hne). done.
    + by rewrite lookup_insert_ne.
Qed.

(** X6. Where the count of the field, the increments and their sums are safe
    integers, [hincrby] adds: it returns the count the field had (0 for a
    field that is missing or not a number) plus the increment, two increments
    in a row leave the state that one increment by their sum leaves, and
    [hget] reads the decimal text of the new count unless the key's expiry
    has passed.  The expiries are not touched, and on a key without a hash
    the first result is the increment. *)
Theorem hincrby_accumulates (this : MemoryRedisClient) (now : Z)
    (key field : string) (a b : Z) :
  let count := counter this key field in
  forallb Js.isSafeInteger [count; a; b; a + b; count + a; count + a + b] = true →
  let once := hincrby this key field a in
  once.1 = count + a
  ∧ hincrby once.2 key field b = (once.1 + b, (hincrby this key field (a + b)).2)
  ∧ (hget once.2 now key field).1
    = (if _isExpired this now key then None else Some (Js.toString once.1))
  ∧ (hashes this !! key = None → once.1 = a)
  ∧ ttls once.2 = ttls this.
Proof.
  intros count _ once. unfold once, count, counter.
  set (hash := default ∅ (hashes this !! key)).
  set (first := Js.or0 (Js.parseInt_opt (hash !! field)) + a).
  change (hincrby this key field a)
    with (first, with_hashes <[key := <[field := Js.toString first]> hash]> this).
  cbn [fst snd].
  split; [done|]. split; [|split; [|split; [|done]]].
  - unfold hincrby. cbn [hashes with_hashes]. rewrite lookup_insert_eq.
    cbn [from_option id]. rewrite lookup_insert_eq. cbn [Js.parseInt_opt].
    rewrite parseInt_toString. cbn [Js.or0]. fold hash. fold first.
    replace (Js.or0 (Js.parseInt_opt (hash !! field)) + (a + b))
      with (first + b) by (unfold first; ring).
    f_equal. destruct this. unfold with_hashes. cbn. f_equal.
    by rewrite insert_insert_eq, insert_insert_eq.
  - unfold hget. cbn [hashes with_hashes].
    rewrite isExpired_with_hashes.
    destruct (_isExpired this now key); [done|]. cbn [fst].
    rewrite lookup_insert_eq, lookup_insert_eq. by rewrite toString_truthy.
  - intros Hnone. unfold first, hash. by rewrite Hnone.
Qed.

(** The theorem at work: 2 and then 3 on a fresh field leave what 5 leaves. *)
Lemma hincrby_accumulates_witness :
  hincrby (hincrby new_client "stats" "requests" 2).2 "stats" "requests" 3
  = ((hincrby new_client "stats" "requests" 2).1 + 3,
     (hincrby new_client "stats" "requests" (2 + 3)).2).
Proof.
  refine (proj1 (proj2 (hincrby_accumulates new_client 0 "stats" "requests" 2 3 _))).
  reflexivity.
Defined.

(** The loop [hset] and [zadd] run over their arguments: a name given twice
    keeps its last value. *)
Lemma fold_insert_union {V} (entries : list (string * V)) : ∀ base : gmap string V,
  fold_left (λ m e, <[e.1 := e.2]> m) entries base
  = list_to_map (reverse entries) ∪ base.
Proof.
  induction entries as [|[k v] entries IH]; intros base.
  - cbn. by rewrite (left_id_L ∅ (∪)).
  - cbn [fold_left]. rewrite IH, reverse_cons, list_to_map_app. cbn.
    rewrite <- (assoc_L (∪)). f_equal.
    by rewrite <- insert_union_l, (left_id_L ∅ (∪)).
Qed.

(** The loop [hdel] and [zrem] run over their arguments. *)
Lemma remove_loop {V} (step : Z * gmap string V → string → Z * gmap string V)
    (Hstep : ∀ n m x, step (n, m) x = (if has m x then n + 1 else n, delete x m))
    (names : list string) : ∀ (n : Z) (m : gmap string V),
  let r := fold_left step names (n, m) in
  r.1 = n + Z.of_nat (size m) - Z.of_nat (size r.2)
  ∧ ∀ x, r.2 !! x = if decide (x ∈ names) then None else m !! x.
Proof.
  induction names as [|name names IH]; intros n m; cbn zeta; cbn [fold_left].
  - split; [cbn; lia|]. intros x. by rewrite decide_False by apply not_elem_of_nil.
  - rewrite Hstep. destruct (IH (if has m name then n + 1 else n) (delete name m))
      as [Hcount Hmap]. cbn zeta in Hcount, Hmap. split.
    + rewrite Hcount, map_size_delete.
      destruct (has m name) eqn:Hhas.
      * apply has_true in Hhas as [v Hv]. rewrite Hv.
        assert (size m ≠ 0%nat).
        { intros Hz. apply map_size_empty_inv in Hz. rewrite Hz in Hv.
          by rewrite lookup_empty in Hv. }
        cbn. lia.
      * apply has_false in Hhas. rewrite Hhas. cbn. lia.
    + intros x. rewrite Hmap. destruct (decide (x = name)) as [->|Hne].
      * rewrite (decide_True (P := name ∈ name :: names)) by apply list_elem_of_here.
        rewrite lookup_delete_eq. by destruct (decide (name ∈ names)).
      * rewrite lookup_delete_ne by done.
        destruct (decide (x ∈ names)) as [Hin|Hnin].
        -- by rewrite (decide_True (P := x ∈ name :: names))
             by (by apply list_elem_of_further).
        -- rewrite (decide_False (P := x ∈ name :: names)); [done|].
           intros Hin; apply elem_of_cons in Hin as [?|?]; done.
Qed.

(** X7. After [hset], [hgetall] returns the written fields over the fields the
    hash had, the last write to a field winning and a field named [__proto__]
    left out, or the empty object when the key's expiry has passed, in which
    case the read deletes the hash. [hget] reads every field that is stored,
    [__proto__] too, an empty value as [null], and nothing from an expired
    key. [hset] returns 1 and leaves the expiries alone, so writing does not
    revive an expired key. *)
Theorem hset_then_hgetall (this : MemoryRedisClient) (now : Z) (key field : string)
    (fields : list (string * string)) :
  let stored := list_to_map (reverse fields) ∪ default ∅ (hashes this !! key) in
  let '(result, written) := hset this key fields in
  let '(object, read) := hgetall written now key in
  result = 1
  ∧ ttls written = ttls this
  ∧ object
    = (if _isExpired this now key then ∅ else delete "__proto__" stored)
  ∧ (hget written now key field).1
    = (if _isExpired this now key then None
       else stored !! field ≫= λ v, if Js.truthy v then Some v else None)
  ∧ (_isExpired this now key = true → hashes read !! key = None).
Proof.
  intros stored. unfold hset, hgetall, hget. rewrite fold_insert_union.
  fold stored. rewrite !isExpired_with_hashes. cbn [hashes with_hashes].
  rewrite lookup_insert_eq.
  destruct (_isExpired this now key) eqn:Hexp.
  - repeat split. intros _. cbn. apply lookup_delete_eq.
  - split; [done|]. split; [done|]. split; [done|]. split; [|done].
    cbn [fst]. by destruct (stored !! field).
Qed.

Lemma hdel_field_step (n : Z) (hash : gmap string string) (field : string) :
  hdel_field (n, hash) field = (if has hash field then n + 1 else n, delete field hash).
Proof. done. Qed.

(** X8. [hdel] returns the number of fields it removed, the size of the hash
    before minus its size after: exactly the named fields are gone, the hash
    itself stays, a key without a hash gives 0 and no change, and the expiries
    are not touched. *)
Theorem hdel_counts_removed_fields (this : MemoryRedisClient) (key : string)
    (fields : list string) :
  let '(deleted, trimmed) := hdel this key fields in
  let before := default ∅ (hashes this !! key) in
  let after := default ∅ (hashes trimmed !! key) in
  deleted = Z.of_nat (size before) - Z.of_nat (size after)
  ∧ (∀ field, after !! field = if decide (field ∈ fields) then None else before !! field)
  ∧ (is_Some (hashes this !! key) → is_Some (hashes trimmed !! key))
  ∧ (hashes this !! key = None → deleted = 0 ∧ trimmed = this)
  ∧ ttls trimmed = ttls this.
Proof.
  unfold hdel. destruct (hashes this !! key) as [hash|] eqn:Hhash.
  - pose proof (remove_loop hdel_field hdel_field_step fields 0 hash) as Hloop.
    cbn zeta in Hloop. destruct (fold_left hdel_field fields (0, hash)) as [n rest].
    destruct Hloop as [Hcount Hmap]. cbn [fst snd] in Hcount, Hmap.
    cbn [hashes with_hashes]. rewrite lookup_insert_eq. cbn [from_option id].
    repeat split; [lia|done|eauto|done|done].
  - rewrite Hhash. cbn. repeat split; try done. intros field.
    rewrite lookup_empty. by destruct (decide _).
Qed.

(** ** Sorted sets *)

Lemma zadd_state (this : MemoryRedisClient) (key : string) (entries : list (Z * string)) :
  zadd this key entries
  = (1, with_zsets
          <[key := list_to_map (reverse (prod_swap <$> entries))
                   ∪ default ∅ (zsets this !! key)]> this).
Proof.
  unfold zadd. do 3 f_equal. rewrite <- fold_insert_union.
  generalize (default ∅ (zsets this !! key)).
  induction entries as [|[score member] entries IH]; intros base; [done|].
  cbn. apply IH.
Qed.

Lemma zrem_member_step (n : Z) (zset : gmap string Z) (member : string) :
  zrem_member (n, zset) member
  = (if has zset member then n + 1 else n, delete member zset).
Proof. done. Qed.

Lemma isExpired_with_zsets f (this : MemoryRedisClient) (now : Z) (key : string) :
  _isExpired (with_zsets f this) now key = _isExpired this now key.
Proof. done. Qed.

(** X9. [zadd] returns 1 whatever it adds. Afterwards [zscore] gives each
    added member its score, the last one if it was added twice, and every
    other member the score it had; [zcard] counts these members unless the
    key's expiry has passed; [zrem] returns how many members it removed and
    leaves exactly the members that were not named. *)
Theorem zadd_zscore_zrem (this : MemoryRedisClient) (now : Z) (key : string)
    (entries : list (Z * string)) (members : list string) :
  let before := default ∅ (zsets this !! key) in
  let written := list_to_map (reverse (prod_swap <$> entries)) ∪ before in
  let '(result, added) := zadd this key entries in
  let '(removed, trimmed) := zrem added key members in
  result = 1
  ∧ (∀ member, zscore added key member = written !! member)
  ∧ (zcard added now key).1
    = (if _isExpired this now key then 0 else Z.of_nat (size written))
  ∧ removed
    = Z.of_nat (size written) - Z.of_nat (size (default ∅ (zsets trimmed !! key)))
  ∧ (∀ member,
       zscore trimmed key member
       = if decide (member ∈ members) then None else written !! member).
Proof.
  intros before written. rewrite zadd_state. fold before. fold written.
  unfold zrem. cbn [zsets with_zsets]. rewrite lookup_insert_eq.
  pose proof (remove_loop zrem_member zrem_member_step members 0 written) as Hloop.
  cbn zeta in Hloop. destruct (fold_left zrem_member members (0, written)) as [n rest].
  destruct Hloop as [Hcount Hmap]. cbn [fst snd] in Hcount, Hmap.
  split; [done|]. split; [|split; [|split]].
  - intros member. unfold zscore. cbn [zsets with_zsets]. by rewrite lookup_insert_eq.
  - unfold zcard. rewrite isExpired_with_zsets.
    destruct (_isExpired this now key); [done|].
    cbn [fst zsets with_zsets]. by rewrite lookup_insert_eq.
  - cbn [zsets with_zsets]. rewrite lookup_insert_eq. cbn [from_option id]. lia.
  - intros member. unfold zscore. cbn [zsets with_zsets].
    rewrite lookup_insert_eq. apply Hmap.
Qed.

Lemma size_filter_split {V} (P : string * V → Prop) `{!∀ x, Decision (P x)}
    (m : gmap string V) :
  (size (filter P m) + size (filter (λ x, ¬ P x) m))%nat = size m.
Proof.
  rewrite !size_map_filter, <- (length_map_to_list m). apply length_filter_split.
Qed.

(** X10. [zremrangebyscore] removes exactly the members whose score lies
    between [min] and [max], both included, returns how many they were and
    leaves the expiries alone. With ['+inf'] as the lower or ['-inf'] as the
    upper bound it removes nothing. *)
Theorem zremrangebyscore_removes_range (this : MemoryRedisClient) (key : string)
    (min max : bound) :
  let before := default ∅ (zsets this !! key) in
  let '(removed, trimmed) := zremrangebyscore this key min max in
  let after := default ∅ (zsets trimmed !! key) in
  removed = Z.of_nat (size before) - Z.of_nat (size after)
  ∧ (∀ member,
       after !! member
       = before !! member ≫= λ score,
           if in_range min max score then None else Some score)
  ∧ (∀ lo hi score, in_range (Score lo) (Score hi) score = true ↔ lo ≤ score ≤ hi)
  ∧ (min = PlusInf ∨ max = MinusInf → removed = 0 ∧ after = before)
  ∧ ttls trimmed = ttls this.
Proof.
  intros before. unfold zremrangebyscore.
  assert (Hboth : ∀ lo hi score,
            in_range (Score lo) (Score hi) score = true ↔ lo ≤ score ≤ hi).
  { unfold in_range. cbn. intros. lia. }
  destruct (zsets this !! key) as [zset|] eqn:Hz.
  - cbn [zsets with_zsets]. rewrite lookup_insert_eq. cbn [from_option id].
    assert (Hbefore : before = zset) by (unfold before; by rewrite ?Hz).
    rewrite Hbefore.
    assert (Hkept : filter (λ ms : string * Z, in_range min max ms.2 = false) zset
                    = filter (λ ms, ¬ in_range min max ms.2 = true) zset).
    { apply map_filter_ext. intros member score _. cbn.
      by destruct (in_range min max score). }
    split; [|split; [|split; [done|split; [|done]]]].
    + pose proof (size_filter_split (λ ms : string * Z, in_range min max ms.2 = true)
                    zset) as Hsplit.
      rewrite Hkept. lia.
    + intros member. destruct (zset !! member) as [score|] eqn:Hm; cbn.
      * destruct (in_range min max score) eqn:Hin.
        -- apply map_lookup_filter_None. right. intros score' Hm'. cbn.
           rewrite Hm in Hm'. injection Hm' as <-. by rewrite Hin.
        -- apply map_lookup_filter_Some. by split.
      * apply map_lookup_filter_None. by left.
    + intros Hswapped.
      assert (Hnone : ∀ score, in_range min max score = false).
      { intros score. unfold in_range.
        destruct Hswapped as [-> | ->]; [done|]. by destruct (above_min min score). }
      assert (Hrem : filter (λ ms : string * Z, in_range min max ms.2 = true) zset = ∅).
      { apply map_eq. intros member. rewrite lookup_empty.
        apply map_lookup_filter_None. right. intros score _. cbn. by rewrite Hnone. }
      assert (Hall : filter (λ ms : string * Z, in_range min max ms.2 = false) zset = zset).
      { apply map_filter_id. intros member score _. cbn. apply Hnone. }
      by rewrite Hrem, Hall, map_size_empty.
  - assert (Hbefore : before = ∅) by (unfold before; by rewrite ?Hz).
    rewrite Hz, Hbefore. cbn.
    split; [done|]. split; [|done]. intros member. by rewrite lookup_empty.
Qed.

(** ** Lists and usage records *)

(** [slice] between two indices that are not negative. *)
Lemma slice_nonneg {A} (array : list A) (start stop : Z) :
  0 ≤ start → 0 ≤ stop →
  JsArray.slice array start (stop + 1)
  = take (Z.to_nat (stop + 1 - start)) (drop (Z.to_nat start) array).
Proof.
  intros Hstart Hstop. unfold JsArray.slice.
  rewrite (proj2 (Z.ltb_ge start 0)), (proj2 (Z.ltb_ge (stop + 1) 0)) by lia.
  destruct (Z.le_gt_cases (Z.of_nat (List.length array)) start) as [Hout|Hin].
  - rewrite !drop_ge by lia. by rewrite !take_nil.
  - rewrite (Z.min_l start) by lia.
    destruct (Z.le_gt_cases (stop + 1) (Z.of_nat (List.length array)))
      as [Hshort|Hlong].
    + by rewrite Z.min_l by lia.
    + rewrite Z.min_r by lia.
      rewrite !take_ge; [done|..]; rewrite length_drop; lia.
Qed.

Lemma isExpired_with_lists f (this : MemoryRedisClient) (now : Z) (key : string) :
  _isExpired (with_lists f this) now key = _isExpired this now key.
Proof. done. Qed.

(** [lrange] over a list that is there and has not expired. *)
Lemma lrange_nonneg (this : MemoryRedisClient) (now : Z) (key : string)
    (items : list string) (start stop : Z) :
  _isExpired this now key = false → lists this !! key = Some items →
  0 ≤ start → 0 ≤ stop →
  lrange this now key start stop
  = (take (Z.to_nat (stop + 1 - start)) (drop (Z.to_nat start) items), this).
Proof.
  intros Hexp Hitems Hstart Hstop. unfold lrange. rewrite Hexp, Hitems.
  rewrite (proj2 (Z.ltb_ge start 0)), (proj2 (Z.ltb_ge stop 0)) by lia.
  by rewrite slice_nonneg.
Qed.

Lemma lrange_all (this : MemoryRedisClient) (now : Z) (key : string)
    (items : list string) :
  _isExpired this now key = false → lists this !! key = Some items →
  lrange this now key 0 (-1) = (items, this).
Proof.
  intros Hexp Hitems. unfold lrange. rewrite Hexp, Hitems. cbn [Z.ltb Z.compare].
  rewrite slice_nonneg by lia. cbn [Z.to_nat drop]. f_equal.
  apply take_ge. lia.
Qed.

(** X11. [lpush] puts the values in front of the list, in the order given, and
    returns the new length. If the key has not expired, [lrange] from 0 to -1
    returns the whole list and [lrange] between two indices that are not
    negative returns the elements from the first to the second, both included;
    if the key's expiry has passed, [lrange] returns the empty list and
    deletes the list with the values just pushed. *)
Theorem lpush_then_lrange (this : MemoryRedisClient) (now : Z) (key : string)
    (values : list string) (start stop : Z) :
  let old := default [] (lists this !! key) in
  let '(len, pushed) := lpush this key values in
  len = Z.of_nat (List.length values) + Z.of_nat (List.length old)
  ∧ lists pushed !! key = Some (values ++ old)
  ∧ (_isExpired this now key = false →
       lrange pushed now key 0 (-1) = (values ++ old, pushed)
       ∧ (0 ≤ start → 0 ≤ stop →
            lrange pushed now key start stop
            = (take (Z.to_nat (stop + 1 - start))
                 (drop (Z.to_nat start) (values ++ old)), pushed)))
  ∧ (_isExpired this now key = true →
       (lrange pushed now key start stop).1 = []
       ∧ lists (lrange pushed now key start stop).2 !! key = None).
Proof.
  intros old. unfold lpush. fold old.
  set (pushed := with_lists _ this).
  assert (Hitems : lists pushed !! key = Some (values ++ old)) by apply lookup_insert_eq.
  split; [rewrite length_app; lia|]. split; [done|]. split.
  - intros Hexp. split.
    + by apply lrange_all.
    + intros Hstart Hstop. by apply lrange_nonneg.
  - intros Hexp. unfold lrange.
    change (_isExpired pushed now key) with (_isExpired this now key).
    rewrite Hexp. split; [done|]. cbn. apply lookup_delete_eq.
Qed.

Section UsageRecordProperties.
Context {json : Type}.
Variable JSON_stringify : json → completion string.
Variable JSON_parse : string → completion json.
Variable Boolean : json → bool.

(** The state [addUsageRecord] leaves once the record has been turned into
    [text]. *)
Lemma addUsageRecord_state (now : Z) (keyId : string) (record : json)
    (maxRecords : option Z) (text : string) (this : MemoryRedisClient) :
  JSON_stringify record = Return text →
  let listKey := usage_records_key keyId in
  let old := default [] (lists this !! listKey) in
  let kept := Z.to_nat (Z.max 1 (default 200 maxRecords)) in
  addUsageRecord JSON_stringify now keyId record maxRecords this
  = (Return tt,
     with_ttls <[listKey := Js.Int (now + 86400 * 90 * 1000)]>
       (with_lists
          <[listKey := if _isExpired this now listKey then []
                       else take kept (text :: old)]> this)).
Proof.
  intros Htext listKey old kept.
  unfold addUsageRecord, try_catch, bind, evaluate, ret. rewrite Htext.
  fold listKey. rewrite !returns_eq. cbn [fst snd].
  unfold lpush. fold old. cbn [app fst snd].
  set (pushed := with_lists <[listKey := text :: old]> this).
  assert (Hitems : lists pushed !! listKey = Some (text :: old))
    by apply lookup_insert_eq.
  assert (Htrim : (ltrim pushed now listKey 0 (Z.max 0 (default 200 maxRecords - 1))).2
                  = with_lists
                      <[listKey := if _isExpired this now listKey then []
                                   else take kept (text :: old)]> this).
  { unfold ltrim. rewrite Hitems.
    destruct (_isExpired this now listKey) eqn:Hexp.
    - unfold lrange.
      change (_isExpired pushed now listKey) with (_isExpired this now listKey).
      rewrite Hexp. cbn [snd]. unfold pushed, with_lists. cbn. f_equal.
      by rewrite insert_delete_eq, insert_insert_eq.
    - rewrite (lrange_nonneg pushed now listKey (text :: old)) by (done || lia).
      cbn [snd Z.to_nat drop].
      replace (Z.max 0 (default 200 maxRecords - 1) + 1 - 0)
        with (Z.max 1 (default 200 maxRecords)) by lia.
      fold kept. unfold pushed, with_lists. cbn. f_equal.
      by rewrite insert_insert_eq. }
  rewrite Htrim. unfold expire.
  assert (Hexists : exists_key
            (with_lists <[listKey := if _isExpired this now listKey then []
                                     else take kept (text :: old)]> this)
            listKey = true).
  { unfold exists_key. cbn [lists with_lists].
    rewrite (proj2 (has_true (<[listKey := _]> (lists this)) listKey)).
    - by rewrite !orb_true_r.
    - rewrite lookup_insert_eq. eauto. }
  rewrite Hexists. cbn [negb fst snd _setExpiry]. done.
Qed.

(** X12. [addUsageRecord] never throws: if the record cannot be serialised the
    state is unchanged; otherwise the list holds the new record first and at
    most [max 1 maxRecords] entries (200 by default), or nothing at all when
    the expiry of the list had passed, and its TTL is 90 days. When the list
    had not expired and the text parses back to the record and the record is
    truthy, [getUsageRecords] returns it first. *)
Theorem addUsageRecord_keeps_newest (now : Z) (keyId : string) (record : json)
    (maxRecords limit : option Z) (this : MemoryRedisClient) :
  let listKey := usage_records_key keyId in
  let old := default [] (lists this !! listKey) in
  let kept := Z.to_nat (Z.max 1 (default 200 maxRecords)) in
  let '(outcome, added) :=
    addUsageRecord JSON_stringify now keyId record maxRecords this in
  outcome = Return tt
  ∧ match JSON_stringify record with
    | Throw _ => added = this
    | Return text =>
        lists added !! listKey
        = Some (if _isExpired this now listKey then [] else take kept (text :: old))
        ∧ ttl added now listKey = 86400 * 90
        ∧ (_isExpired this now listKey = false →
           JSON_parse text = Return record → Boolean record = true →
           ∃ older,
             (getUsageRecords JSON_parse Boolean now keyId limit added).1
             = Return (record :: older))
    end.
Proof.
  intros listKey old kept.
  destruct (JSON_stringify record) as [text|e] eqn:Htext.
  - rewrite (addUsageRecord_state now keyId record maxRecords text this Htext).
    fold listKey. fold old. fold kept.
    set (added := with_ttls _ _).
    assert (Hlist : lists added !! listKey
                    = Some (if _isExpired this now listKey then []
                            else take kept (text :: old)))
      by apply lookup_insert_eq.
    split; [done|]. split; [done|]. split.
    + apply ttl_of_expiry; [lia|]. unfold added. cbn [ttls with_ttls].
      by rewrite lookup_insert_eq.
    + intros Hexp Hparse Htruthy. rewrite Hexp in Hlist.
      assert (Hadded : _isExpired added now listKey = false).
      { unfold _isExpired, added. cbn [ttls with_ttls]. rewrite lookup_insert_eq.
        cbn. lia. }
      unfold getUsageRecords, try_catch, bind, ret. fold listKey.
      rewrite returns_eq.
      rewrite (lrange_nonneg added now listKey _ 0 _ Hadded Hlist) by lia.
      cbn [fst snd Z.to_nat drop].
      assert (Hkept : ∃ n, kept = S n).
      { exists (Nat.pred kept). unfold kept. lia. }
      destruct Hkept as [n ->].
      assert (Hlimit : ∃ m, Z.to_nat (Z.max 0 (default 50 limit - 1) + 1 - 0) = S m).
      { exists (Nat.pred (Z.to_nat (Z.max 0 (default 50 limit - 1) + 1 - 0))). lia. }
      destruct Hlimit as [m ->].
      change (Z.to_nat 0) with 0%nat. cbn [drop take map].
      unfold parse_entry at 1. rewrite Hparse.
      unfold keep_truthy. cbn [omap list_omap mbind option_bind]. rewrite Htruthy.
      eauto.
  - unfold addUsageRecord, try_catch, bind, evaluate, ret. by rewrite Htext.
Qed.

End UsageRecordProperties.

(** ** Leases over time *)

Lemma size_insert_delete {V} (m : gmap string V) (k : string) (v : V) :
  size (<[k := v]> m) = S (size (delete k m)).
Proof.
  rewrite <- insert_delete_eq. apply map_size_insert_None, lookup_delete_eq.
Qed.

Lemma unexpired_later (now now' : Z) (zset : gmap string Z) :
  now ≤ now' → unexpired now' (unexpired now zset) = unexpired now' zset.
Proof.
  intros Hle. unfold unexpired. apply map_filter_filter_l.
  intros member score _ Hlt. cbn in *. lia.
Qed.

Lemma unexpired_insert_due (now : Z) (zset : gmap string Z) (member : string) (score : Z) :
  score ≤ now →
  unexpired now (<[member := score]> zset) = delete member (unexpired now zset).
Proof.
  intros Hdue. unfold unexpired.
  rewrite map_filter_insert_False by (cbn; lia). by rewrite map_filter_delete.
Qed.

(** The leases that are live at [now'] in the set an acquire at [now] wrote. *)
Lemma unexpired_acquired (now now' expireAt : Z) (zset : gmap string Z)
    (requestId : string) :
  now ≤ now' →
  unexpired now' (<[requestId := expireAt]> (unexpired now zset))
  = if now' <? expireAt
    then <[requestId := expireAt]> (delete requestId (unexpired now' zset))
    else delete requestId (unexpired now' zset).
Proof.
  intros Hle. destruct (now' <? expireAt) eqn:Hlive.
  - rewrite unexpired_insert by lia. rewrite unexpired_later by done.
    by rewrite insert_delete_eq.
  - rewrite unexpired_insert_due by lia. by rewrite unexpired_later.
Qed.

Lemma isExpired_acquired (this : MemoryRedisClient) (now now' : Z) (key : string)
    (lifetime : Z) (zset : gmap string Z) :
  _isExpired (with_ttls <[key := Js.Int (now + lifetime)]>
                (with_zsets <[key := zset]> this)) now' key
  = (now + lifetime <=? now').
Proof. unfold _isExpired. cbn. by rewrite lookup_insert_eq. Qed.

Lemma leases_acquired (this : MemoryRedisClient) (apiKeyId : string) (t : Js.num)
    (zset : gmap string Z) :
  leases (with_ttls <[concurrency_key apiKeyId := t]>
            (with_zsets <[concurrency_key apiKeyId := zset]> this)) apiKeyId
  = zset.
Proof. unfold leases. cbn. by rewrite lookup_insert_eq. Qed.

(** X13. For a request id that is not empty, [incrConcurrency] returns one
    more than the number of the other unexpired leases of the key. Acquiring
    again with the same id does not count the request twice: it replaces the
    lease, and at the same time and with the same lease it changes neither
    result nor state. *)
Theorem acquire_counts_request_once (config : Config) (now now' : Z)
    (apiKeyId requestId : string) (lease lease' : option Z)
    (this : MemoryRedisClient) :
  requestId ≠ "" → now ≤ now' →
  let others t := delete requestId (unexpired t (leases this apiKeyId)) in
  let first :=
    incrConcurrency (memoryRedisClient now) config now apiKeyId requestId lease
      this in
  let second :=
    incrConcurrency (memoryRedisClient now') config now' apiKeyId requestId lease'
      first.2 in
  first.1 = Return (Z.of_nat (size (others now)) + 1)
  ∧ second.1 = Return (Z.of_nat (size (others now')) + 1)
  ∧ leases second.2 apiKeyId
    = <[requestId := now' + effective_lease config lease' * 1000]> (others now')
  ∧ (now' = now → lease' = lease → second = first).
Proof.
  intros Hid Hle others first second. unfold second, first.
  rewrite (incrConcurrency_memory config now apiKeyId requestId lease this Hid).
  cbn [fst snd].
  rewrite (incrConcurrency_memory config now' apiKeyId requestId lease' _ Hid).
  cbn [fst snd]. rewrite leases_acquired.
  set (expireAt := now + effective_lease config lease * 1000).
  set (expireAt' := now' + effective_lease config lease' * 1000).
  assert (Hset : <[requestId := expireAt']>
                   (unexpired now' (<[requestId := expireAt]>
                      (unexpired now (leases this apiKeyId))))
                 = <[requestId := expireAt']> (others now')).
  { rewrite unexpired_acquired by done. unfold others.
    destruct (now' <? expireAt); [by rewrite insert_insert_eq|done]. }
  rewrite Hset. split; [|split; [|split]].
  - rewrite size_insert_delete. unfold others. do 2 f_equal. lia.
  - rewrite size_insert_delete. unfold others.
    rewrite delete_delete_eq. do 2 f_equal. lia.
  - by rewrite leases_acquired.
  - intros -> ->. fold expireAt. unfold others.
    rewrite insert_delete_eq. rewrite !size_insert_delete. f_equal.
    destruct this as [s t h l z]. unfold with_ttls, with_zsets. cbn. f_equal.
    + by rewrite insert_insert_eq.
    + by rewrite insert_insert_eq.
Qed.

(** The theorem at work: the same request acquires at 0 and again at 1000;
    the count is 1 both times. *)
Lemma acquire_counts_request_once_witness :
  (incrConcurrency (memoryRedisClient 1000) bare_config 1000 "key1" "r1" (Some 5)
     (incrConcurrency (memoryRedisClient 0) bare_config 0 "key1" "r1" (Some 5)
        new_client).2).1
  = Return
      (Z.of_nat (size (delete "r1" (unexpired 1000 (leases new_client "key1")))) + 1).
Proof.
  refine (proj1 (proj2 (acquire_counts_request_once bare_config 0 1000 "key1" "r1"
    (Some 5) (Some 5) new_client _ _))).
  - discriminate.
  - lia.
Defined.

(** X14. After [incrConcurrency] at [now], [getConcurrency] at a later time
    counts the lease until [now] plus the lease, and no longer from then on;
    once the lifetime of the key itself (the lease plus the grace period, at
    least 60 seconds) is over it returns 0 and no lease is left, whatever
    other leases there were. With a positive lease and a grace period that is
    not negative, the lease ends no later than the key. *)
Theorem lease_counted_until_it_ends (config : Config) (now now' : Z)
    (apiKeyId requestId : string) (lease : option Z) (this : MemoryRedisClient) :
  requestId ≠ "" → now ≤ now' →
  let expireAt := now + effective_lease config lease * 1000 in
  let keyEnds := now + key_lifetime config lease in
  let others := delete requestId (unexpired now' (leases this apiKeyId)) in
  let acquired :=
    (incrConcurrency (memoryRedisClient now) config now apiKeyId requestId lease
       this).2 in
  let counted := getConcurrency (memoryRedisClient now') now' apiKeyId acquired in
  counted.1
    = Return (if keyEnds <=? now' then 0
              else Z.of_nat (size others) + (if now' <? expireAt then 1 else 0))
  ∧ leases counted.2 apiKeyId
    = (if keyEnds <=? now' then ∅
       else if now' <? expireAt then <[requestId := expireAt]> others
       else others)
  ∧ (0 ≤ cleanupGraceSeconds (_getConcurrencyConfig config) →
     0 < effective_lease config lease → expireAt ≤ keyEnds).
Proof.
  intros Hid Hle expireAt keyEnds others acquired counted.
  unfold counted, acquired.
  rewrite (incrConcurrency_memory config now apiKeyId requestId lease this Hid).
  cbn [snd]. rewrite getConcurrency_memory. cbv zeta.
  rewrite isExpired_acquired, leases_acquired. fold keyEnds. fold expireAt.
  rewrite unexpired_acquired by done. fold others.
  split; [|split].
  - destruct (keyEnds <=? now'); [done|]. cbn [fst].
    destruct (now' <? expireAt).
    + rewrite size_insert_delete. unfold others. rewrite delete_delete_eq.
      f_equal. lia.
    + f_equal. lia.
  - destruct (keyEnds <=? now'); cbn [snd].
    + unfold leases. cbn. by rewrite lookup_delete_eq.
    + rewrite leases_swept, leases_acquired.
      rewrite unexpired_acquired by done. fold others. done.
  - intros Hgrace Hlease. unfold expireAt, keyEnds, key_lifetime. lia.
Qed.

(** The theorem at work: a lease of five seconds taken at 0 is counted at
    4999 and no longer at 5000. *)
Lemma lease_counted_until_it_ends_witness :
  (getConcurrency (memoryRedisClient 4999) 4999 "key1"
     (incrConcurrency (memoryRedisClient 0) bare_config 0 "key1" "r1" (Some 5)
        new_client).2).1
  = Return 1
  ∧ (getConcurrency (memoryRedisClient 5000) 5000 "key1"
       (incrConcurrency (memoryRedisClient 0) bare_config 0 "key1" "r1" (Some 5)
          new_client).2).1
    = Return 0.
Proof.
  split.
  - refine (proj1 (lease_counted_until_it_ends bare_config 0 4999 "key1" "r1"
      (Some 5) new_client _ _)); [discriminate|lia].
  - refine (proj1 (lease_counted_until_it_ends bare_config 0 5000 "key1" "r1"
      (Some 5) new_client _ _)); [discriminate|lia].
Defined.

(** X15. [decrConcurrency] with the id that [incrConcurrency] registered
    returns the number of the other unexpired leases, 0 once the lifetime of
    the key is over, and leaves exactly those leases; [getConcurrency] then
    returns the same number. *)
Theorem release_after_acquire (config : Config) (now now' : Z)
    (apiKeyId requestId : string) (lease : option Z) (this : MemoryRedisClient) :
  requestId ≠ "" → now ≤ now' →
  let keyEnds := now + key_lifetime config lease in
  let others := delete requestId (unexpired now' (leases this apiKeyId)) in
  let acquired :=
    (incrConcurrency (memoryRedisClient now) config now apiKeyId requestId lease
       this).2 in
  let released :=
    decrConcurrency (memoryRedisClient now') now' apiKeyId requestId acquired in
  released.1 = Return (if keyEnds <=? now' then 0 else Z.of_nat (size others))
  ∧ leases released.2 apiKeyId = (if keyEnds <=? now' then ∅ else others)
  ∧ (getConcurrency (memoryRedisClient now') now' apiKeyId released.2).1
    = released.1.
Proof.
  intros Hid Hle keyEnds others acquired released.
  assert (Hrest : remaining_leases acquired now' apiKeyId requestId
                  = if keyEnds <=? now' then ∅ else others).
  { unfold remaining_leases, acquired.
    rewrite (incrConcurrency_memory config now apiKeyId requestId lease this Hid).
    cbn [snd]. rewrite isExpired_acquired, leases_acquired. fold keyEnds.
    destruct (keyEnds <=? now'); [done|].
    rewrite (truthy_nonempty _ Hid), delete_insert_eq.
    rewrite unexpired_delete, unexpired_later by done. done. }
  assert (Hreleased : released
    = (Return (Z.of_nat (size (remaining_leases acquired now' apiKeyId requestId))),
       if decide (size (remaining_leases acquired now' apiKeyId requestId) = 0%nat)
       then (del acquired [concurrency_key apiKeyId]).2
       else with_zsets
              <[concurrency_key apiKeyId :=
                  remaining_leases acquired now' apiKeyId requestId]> acquired))
    by apply decrConcurrency_memory.
  assert (Hleases : leases released.2 apiKeyId
                    = remaining_leases acquired now' apiKeyId requestId).
  { rewrite Hreleased. cbn [snd]. apply leases_after_release. }
  split; [|split].
  - rewrite Hreleased. cbn [fst]. rewrite Hrest.
    destruct (keyEnds <=? now'); [by rewrite map_size_empty|done].
  - by rewrite Hleases, Hrest.
  - rewrite getConcurrency_memory. cbv zeta. rewrite Hleases.
    assert (Hlive : unexpired now' (remaining_leases acquired now' apiKeyId requestId)
                    = remaining_leases acquired now' apiKeyId requestId).
    { rewrite Hrest. destruct (keyEnds <=? now'); [apply unexpired_empty|].
      unfold others. rewrite <- unexpired_delete. apply unexpired_idemp. }
    rewrite Hlive, Hreleased. cbn [fst snd].
    destruct (decide (size (remaining_leases acquired now' apiKeyId requestId) = 0%nat))
      as [Hzero|Hpos].
    + rewrite Hzero. by destruct (_isExpired _ now' _).
    + rewrite isExpired_with_zsets.
      destruct (_isExpired acquired now' (concurrency_key apiKeyId)) eqn:Hexp; [|done].
      unfold remaining_leases in Hpos. rewrite Hexp in Hpos.
      by rewrite map_size_empty in Hpos.
Qed.

(** The theorem at work: a second request acquires and releases; the first
    request's lease is the one left. *)
Lemma release_after_acquire_witness :
  (decrConcurrency (memoryRedisClient 2000) 2000 "key1" "r2"
     (incrConcurrency (memoryRedisClient 1000) bare_config 1000 "key1" "r2" (Some 5)
        (mkClient ∅ {["concurrency:key1" := Js.Int 61000]} ∅ ∅
           {["concurrency:key1" := {["r1" := 6000]}]})).2).1
  = Return
      (if 1000 + key_lifetime bare_config (Some 5) <=? 2000 then 0
       else Z.of_nat (size (delete "r2" (unexpired 2000
              (leases (mkClient ∅ {["concurrency:key1" := Js.Int 61000]} ∅ ∅
                         {["concurrency:key1" := {["r1" := 6000]}]}) "key1"))))).
Proof.
  refine (proj1 (release_after_acquire bare_config 1000 2000 "key1" "r2" (Some 5)
    (mkClient ∅ {["concurrency:key1" := Js.Int 61000]} ∅ ∅
       {["concurrency:key1" := {["r1" := 6000]}]}) _ _)); [discriminate|lia].
Defined.

(** ** Sticky sessions: the mapping and its expiry *)

Lemma set_EX (this : MemoryRedisClient) (now : Z) (key value : string) (seconds : Z) :
  set this now key value [AStr "EX"; ANum seconds]
  = (Some "OK",
     if 0 <? seconds
     then with_ttls <[key := Js.Int (now + seconds * 1000)]>
            (with_store <[key := value]> this)
     else with_store <[key := value]> this).
Proof.
  unfold set. cbn [set_options arg_is arg_truthy arg_parseInt head].
  change (String.eqb "EX" "EX") with true. cbn [andb].
  destruct (seconds =? 0) eqn:Hzero; cbn [negb].
  - apply Z.eqb_eq in Hzero. subst seconds. done.
  - unfold _setExpiry. by destruct (0 <? seconds).
Qed.

(** X16. After [setSessionAccountMapping], [getSessionAccountMapping] returns
    the account id until the TTL is over (the argument, else the configured
    sticky TTL) and [null] afterwards; an empty account id reads as [null]. A
    positive TTL is what [ttl] reports; with a TTL that is not positive no
    expiry is written and the key keeps the one it had. After
    [deleteSessionAccountMapping] the mapping reads as [null]. *)
Theorem sticky_session_round_trip (appConfig : Config) (now now' : Z)
    (sessionHash accountId : string) (ttl_arg : option Z)
    (this : MemoryRedisClient) :
  let key := sticky_session_key sessionHash in
  let seconds := default (full_ttl appConfig) ttl_arg in
  let mapped :=
    setSessionAccountMapping (memoryRedisClient now) appConfig sessionHash
      accountId ttl_arg this in
  let ended :=
    if 0 <? seconds then now + seconds * 1000 <=? now'
    else _isExpired this now' key in
  mapped.1 = Return tt
  ∧ (getSessionAccountMapping (memoryRedisClient now') sessionHash mapped.2).1
    = Return (if ended then None
              else if Js.truthy accountId then Some accountId else None)
  ∧ (0 < seconds → ttl mapped.2 now key = seconds)
  ∧ (seconds ≤ 0 → ttls mapped.2 = ttls this)
  ∧ (getSessionAccountMapping (memoryRedisClient now') sessionHash
       (deleteSessionAccountMapping (memoryRedisClient now') sessionHash
          mapped.2).2).1
    = Return None.
Proof.
  intros key seconds mapped ended.
  assert (Hmapped : mapped
    = (Return tt,
       if 0 <? seconds
       then with_ttls <[key := Js.Int (now + seconds * 1000)]>
              (with_store <[key := accountId]> this)
       else with_store <[key := accountId]> this)).
  { unfold mapped, setSessionAccountMapping. async_unfold. fold key.
    replace (match ttl_arg with
             | Some t => t
             | None => Js.or_opt (session appConfig ≫= stickyTtlHours) 1 * 60 * 60
             end) with seconds by (unfold seconds, full_ttl; by destruct ttl_arg).
    by rewrite set_EX. }
  rewrite Hmapped. cbn [fst snd]. split; [done|]. split; [|split; [|split]].
  - unfold getSessionAccountMapping. cbn [m_get memoryRedisClient]. fold key.
    rewrite returns_eq. cbn [fst]. f_equal. unfold ended.
    destruct (0 <? seconds).
    + rewrite (get_written _ _ _ accountId) by apply lookup_insert_eq.
      rewrite (isExpired_at _ _ (now + seconds * 1000)) by apply lookup_insert_eq.
      done.
    + rewrite (get_written _ _ _ accountId) by apply lookup_insert_eq. done.
  - intros Hpos. rewrite (proj2 (Z.ltb_lt 0 seconds)) by done.
    apply ttl_of_expiry; [lia|]. apply lookup_insert_eq.
  - intros Hle. by rewrite (proj2 (Z.ltb_ge 0 seconds)) by done.
  - unfold getSessionAccountMapping, deleteSessionAccountMapping.
    cbn [m_get m_del memoryRedisClient]. fold key.
    rewrite !returns_eq. cbn [fst snd]. f_equal.
    rewrite get_absent; [done|..]; rewrite del_single_state; cbn;
      apply lookup_delete_eq.
Qed.

(** ** API keys *)

Lemma apikey_key_hash_map (keyId : string) :
  keyId ≠ "hash_map" → apikey_key keyId ≠ "apikey:hash_map".
Proof. intros Hne Heq. apply Hne. unfold apikey_key in Heq. by injection Heq. Qed.

Lemma nonempty_object_true (keyData : gmap string string) (field value : string) :
  keyData !! field = Some value → nonempty_object keyData = true.
Proof.
  intros Hfield. unfold nonempty_object. apply Z.ltb_lt.
  assert (size keyData ≠ 0%nat); [|lia].
  intros Hz. apply map_size_empty_inv in Hz. by rewrite Hz, lookup_empty in Hfield.
Qed.

Lemma hgetall_held (this : MemoryRedisClient) (now : Z) (key : string) :
  _isExpired this now key = false →
  hgetall this now key
  = (object_of_entries (default ∅ (hashes this !! key)), this).
Proof.
  intros Hexp. unfold hgetall. rewrite Hexp.
  destruct (hashes this !! key); [done|]. cbn [from_option].
  unfold object_of_entries. by rewrite delete_empty.
Qed.

(** A field of the hash with another name than [__proto__] is a field of the
    object. *)
Lemma object_of_entries_lookup (hash : gmap string string) (field : string) :
  field ≠ "__proto__" → object_of_entries hash !! field = hash !! field.
Proof. intros Hne. unfold object_of_entries. by rewrite lookup_delete_ne. Qed.

(** The object that is read after a write of [entries] is not empty when one
    of them has another name than [__proto__]. *)
Lemma nonempty_object_written (entries : list (string * string))
    (old : gmap string string) :
  (∃ entry, entry ∈ entries ∧ entry.1 ≠ "__proto__") →
  nonempty_object (object_of_entries (list_to_map (reverse entries) ∪ old)) = true.
Proof.
  intros ([field value] & Hin & Hne). cbn in Hne.
  destruct (list_to_map (M := gmap string string) (reverse entries) !! field)
    as [v|] eqn:Hfield.
  - apply (nonempty_object_true _ field v).
    rewrite object_of_entries_lookup by done. by apply lookup_union_Some_l.
  - apply not_elem_of_list_to_map in Hfield. destruct Hfield.
    apply list_elem_of_fmap. exists (field, value). split; [done|].
    by apply elem_of_reverse.
Qed.

Lemma hgetall_absent (this : MemoryRedisClient) (now : Z) (key : string) :
  hashes this !! key = None → (hgetall this now key).1 = ∅.
Proof.
  intros Hnone. unfold hgetall. destruct (_isExpired _ _ _); [done|]. by rewrite Hnone.
Qed.

Lemma hgetall_hashes_other (this : MemoryRedisClient) (now : Z) (key key' : string) :
  key' ≠ key → hashes (hgetall this now key).2 !! key' = hashes this !! key'.
Proof.
  intros Hne. unfold hgetall. destruct (_isExpired _ _ _); [|done].
  cbn. by rewrite lookup_delete_ne.
Qed.

Lemma hgetall_ttls (this : MemoryRedisClient) (now : Z) (key : string) :
  ttls (hgetall this now key).2 = ttls this.
Proof. unfold hgetall. by destruct (_isExpired _ _ _). Qed.

(** The state [setApiKey] leaves when a hash of the key is given. *)
Lemma setApiKey_state (this : MemoryRedisClient) (now : Z) (keyId hashed : string)
    (keyData : list (string * string)) :
  hashed ≠ "" →
  let key := apikey_key keyId in
  let mapped :=
    <["apikey:hash_map" := <[hashed := keyId]>
                             (default ∅ (hashes this !! "apikey:hash_map"))]>
      (hashes this) in
  setApiKey this now keyId keyData (Some hashed)
  = with_ttls <[key := Js.Int (now + 86400 * 365 * 1000)]>
      (with_hashes
         (λ _, <[key := list_to_map (reverse keyData) ∪ default ∅ (mapped !! key)]>
                 mapped) this).
Proof.
  intros Hhashed key mapped. unfold setApiKey. fold key.
  rewrite (truthy_nonempty _ Hhashed). unfold hset. rewrite fold_insert_union.
  cbn [hashes with_hashes]. fold mapped. unfold expire.
  set (written := with_hashes _ (with_hashes _ this)).
  assert (Hexists : exists_key written key = true).
  { unfold exists_key.
    rewrite (proj2 (has_true (hashes written) key)); [by rewrite orb_true_r|].
    unfold written. cbn [hashes with_hashes]. rewrite lookup_insert_eq. eauto. }
  rewrite Hexists. cbn [negb _setExpiry Z.ltb Z.compare Z.mul Pos.mul Pos.add].
  unfold written. by destruct this.
Qed.

(** X17. After [setApiKey] with a hash that is not empty, an id that is
    neither empty nor [hash_map] (the id whose key is the hash map itself)
    and data with a field that is not named [__proto__], [findApiKeyByHash]
    with that hash returns the fields of the key, the data written over the
    fields the key had, together with its [id], and [getApiKey] returns the
    same fields, as long as neither the hash map nor the key (365 days) has
    expired.  The TTL of the key is 365 days. *)
Theorem setApiKey_then_findApiKeyByHash (this : MemoryRedisClient) (now now' : Z)
    (keyId hashed : string) (keyData : list (string * string)) :
  hashed ≠ "" → keyId ≠ "" → keyId ≠ "hash_map" →
  (∃ entry, entry ∈ keyData ∧ entry.1 ≠ "__proto__") →
  _isExpired this now' "apikey:hash_map" = false →
  now' < now + 86400 * 365 * 1000 →
  let stored := setApiKey this now keyId keyData (Some hashed) in
  let written :=
    object_of_entries
      (list_to_map (reverse keyData) ∪ default ∅ (hashes this !! apikey_key keyId)) in
  findApiKeyByHash stored now' hashed = (Some (with_id keyId written), stored)
  ∧ getApiKey stored now' keyId = (written, stored)
  ∧ ttl stored now (apikey_key keyId) = 86400 * 365.
Proof.
  intros Hhashed HkeyId Hmap Hdata Hheld Hsoon stored written.
  pose proof (apikey_key_hash_map keyId Hmap) as Hne.
  unfold stored. rewrite (setApiKey_state this now keyId hashed keyData Hhashed).
  cbv zeta. rewrite lookup_insert_ne by done.
  set (key := apikey_key keyId) in *.
  set (fields := list_to_map (reverse keyData) ∪ default ∅ (hashes this !! key)) in *.
  set (mapped := <["apikey:hash_map" := _]> (hashes this)).
  set (final := with_ttls _ _).
  assert (Hindex : hashes final !! "apikey:hash_map"
                   = Some (<[hashed := keyId]>
                             (default ∅ (hashes this !! "apikey:hash_map")))).
  { unfold final. cbn [hashes with_ttls with_hashes].
    rewrite lookup_insert_ne by done. apply lookup_insert_eq. }
  assert (Hkey : hashes final !! key = Some fields).
  { unfold final. cbn [hashes with_ttls with_hashes]. apply lookup_insert_eq. }
  assert (Hexp_index : _isExpired final now' "apikey:hash_map" = false).
  { rewrite (isExpired_ttls this final now' "apikey:hash_map"); [done|].
    unfold final. cbn [ttls with_ttls with_hashes]. by rewrite lookup_insert_ne. }
  assert (Hexp_key : _isExpired final now' key = false).
  { rewrite (isExpired_at _ _ (now + 86400 * 365 * 1000)).
    - lia.
    - unfold final. cbn [ttls with_ttls]. apply lookup_insert_eq. }
  assert (Hwritten : nonempty_object written = true)
    by (by apply nonempty_object_written).
  split; [|split].
  - unfold findApiKeyByHash, hget. rewrite Hexp_index, Hindex, lookup_insert_eq.
    rewrite (truthy_nonempty _ HkeyId). cbn [negb].
    rewrite hgetall_held by done. fold key. rewrite Hkey. cbn [from_option id].
    fold written. by rewrite (truthy_nonempty _ HkeyId), Hwritten.
  - unfold getApiKey. fold key. rewrite hgetall_held by done. by rewrite Hkey.
  - apply ttl_of_expiry; [lia|]. unfold final. cbn [ttls with_ttls].
    by rewrite lookup_insert_eq.
Qed.

(** The theorem at work: a key stored with its hash is found by that hash. *)
Lemma setApiKey_then_findApiKeyByHash_witness :
  (findApiKeyByHash (setApiKey new_client 0 "k1" [("name", "first")] (Some "h1"))
     1000 "h1").1
  = Some (with_id "k1"
            (object_of_entries
               (list_to_map (reverse [("name", "first")])
                ∪ default ∅ (hashes new_client !! apikey_key "k1")))).
Proof.
  refine (f_equal fst (proj1 (setApiKey_then_findApiKeyByHash new_client 0 1000
    "k1" "h1" [("name", "first")] _ _ _ _ _ _))); try discriminate.
  - exists ("name", "first"). split; [apply list_elem_of_here|discriminate].
  - reflexivity.
  - lia.
Defined.

Lemma hdel_single (this : MemoryRedisClient) (key field : string) :
  (hdel this key [field]).2
  = match hashes this !! key with
    | Some hash => with_hashes <[key := delete field hash]> this
    | None => this
    end.
Proof. unfold hdel. by destruct (hashes this !! key). Qed.

Lemma del_single_count (this : MemoryRedisClient) (key : string) :
  (del this [key]).1 = if has (store this) key then 1 else 0.
Proof. cbn. by destruct (has (store this) key). Qed.

Lemma hget_Some (this : MemoryRedisClient) (now : Z) (key field value : string) :
  (hget this now key field).1 = Some value →
  hget this now key field = (Some value, this)
  ∧ _isExpired this now key = false
  ∧ Js.truthy value = true
  ∧ ∃ hash, hashes this !! key = Some hash ∧ hash !! field = Some value.
Proof.
  unfold hget. destruct (_isExpired this now key); [done|]. cbn [fst].
  destruct (hashes this !! key) as [hash|]; [|done].
  destruct (hash !! field) as [v|] eqn:Hv; [|done].
  destruct (Js.truthy v) eqn:Htruthy; [|done].
  intros [= ->]. rewrite Htruthy. eauto 10.
Qed.

(** X18. [deleteApiKey] returns 1 if the plain store holds the key and 0
    otherwise, although an API key is a hash; afterwards [getApiKey] returns
    the empty object. If the hash map still maps a hash to the deleted id,
    [findApiKeyByHash] returns [null] for it and removes that mapping. *)
Theorem deleteApiKey_then_findApiKeyByHash (this : MemoryRedisClient) (now now' : Z)
    (keyId hashed : string) :
  let deleted := deleteApiKey this now keyId in
  let found := findApiKeyByHash deleted.2 now' hashed in
  deleted.1 = (if has (store this) (apikey_key keyId) then 1 else 0)
  ∧ (getApiKey deleted.2 now' keyId).1 = ∅
  ∧ ((hget deleted.2 now' "apikey:hash_map" hashed).1 = Some keyId →
     found.1 = None
     ∧ (hget found.2 now' "apikey:hash_map" hashed).1 = None).
Proof.
  intros deleted found.
  set (key := apikey_key keyId) in *.
  set (cleared :=
    match (hgetall this now key).1 !! "apiKey" with
    | Some hashed0 =>
        if Js.truthy hashed0
        then (hdel (hgetall this now key).2 "apikey:hash_map" [hashed0]).2
        else (hgetall this now key).2
    | None => (hgetall this now key).2
    end).
  assert (Hdeleted : deleted = del cleared [key]).
  { unfold deleted, deleteApiKey, cleared. fold key.
    by destruct (hgetall this now key). }
  assert (Hstore : store cleared = store this).
  { assert (Hread : store (hgetall this now key).2 = store this).
    { unfold hgetall. by destruct (_isExpired this now key). }
    unfold cleared. destruct ((hgetall this now key).1 !! "apiKey") as [h|]; [|done].
    destruct (Js.truthy h); [|done].
    rewrite hdel_single. by destruct (hashes _ !! "apikey:hash_map"). }
  assert (Hgone : hashes deleted.2 !! key = None ∧ ttls deleted.2 !! key = None).
  { rewrite Hdeleted, del_single_state. cbn. by rewrite !lookup_delete_eq. }
  destruct Hgone as [Hhash Httl].
  assert (Hheld : _isExpired deleted.2 now' key = false).
  { unfold _isExpired. by rewrite Httl. }
  split; [|split].
  - by rewrite Hdeleted, del_single_count, Hstore.
  - unfold getApiKey. fold key. by apply hgetall_absent.
  - intros Hfound. apply hget_Some in Hfound
      as (Hget & Hindex & Htruthy & map & Hmapped & Hentry).
    assert (Hresult : found
      = (None, with_hashes <["apikey:hash_map" := delete hashed map]> deleted.2)).
    { unfold found, findApiKeyByHash. rewrite Hget, Htruthy. cbn [negb].
      fold key. rewrite hgetall_held by done. rewrite Hhash. cbn [from_option id].
      change (nonempty_object ∅) with false. cbn iota.
      destruct (hdel deleted.2 "apikey:hash_map" [hashed]) as [n st] eqn:Hhdel.
      apply (f_equal snd) in Hhdel. rewrite hdel_single, Hmapped in Hhdel.
      cbn in Hhdel. by subst st. }
    rewrite Hresult. cbn [fst snd]. split; [done|].
    unfold hget. rewrite isExpired_with_hashes, Hindex.
    cbn [fst hashes with_hashes]. rewrite lookup_insert_eq.
    by rewrite lookup_delete_eq.
Qed.

(** The theorem at work: the key of the earlier example is deleted. *)
Lemma deleteApiKey_then_findApiKeyByHash_witness :
  (getApiKey
     (deleteApiKey (setApiKey new_client 0 "k1" [("name", "first")] (Some "h1"))
        1000 "k1").2 2000 "k1").1
  = ∅.
Proof.
  exact (proj1 (proj2 (deleteApiKey_then_findApiKeyByHash
    (setApiKey new_client 0 "k1" [("name", "first")] (Some "h1")) 1000 2000
    "k1" "h1"))).
Defined.

(** ** Hashes with an expiry: sessions and API-key hashes *)

(** The state [hset] followed by [expire] leaves. *)
Lemma hset_expire_state (this : MemoryRedisClient) (now : Z) (key : string)
    (fields : list (string * string)) (seconds : Z) :
  (expire (hset this key fields).2 now key (Js.Int seconds)).2
  = let written :=
      with_hashes
        <[key := list_to_map (reverse fields) ∪ default ∅ (hashes this !! key)]>
        this in
    if 0 <? seconds then with_ttls <[key := Js.Int (now + seconds * 1000)]> written
    else written.
Proof.
  unfold hset. rewrite fold_insert_union. cbn [snd]. cbv zeta.
  set (written := with_hashes _ this).
  assert (Hexists : exists_key written key = true).
  { unfold exists_key.
    rewrite (proj2 (has_true (hashes written) key)); [by rewrite orb_true_r|].
    unfold written. cbn [hashes with_hashes]. rewrite lookup_insert_eq. eauto. }
  unfold expire. rewrite Hexists. cbn [negb snd _setExpiry]. done.
Qed.

(** Reading the hash back at [now']. *)
Lemma hgetall_after_hset_expire (this : MemoryRedisClient) (now now' : Z)
    (key : string) (fields : list (string * string)) (seconds : Z) :
  (hgetall (expire (hset this key fields).2 now key (Js.Int seconds)).2 now' key).1
  = if (if 0 <? seconds then now + seconds * 1000 <=? now'
        else _isExpired this now' key)
    then ∅
    else object_of_entries
           (list_to_map (reverse fields) ∪ default ∅ (hashes this !! key)).
Proof.
  rewrite hset_expire_state. cbv zeta. unfold hgetall.
  destruct (0 <? seconds).
  - rewrite (isExpired_at _ _ (now + seconds * 1000)) by apply lookup_insert_eq.
    destruct (_ <=? _); [done|]. cbn. by rewrite lookup_insert_eq.
  - rewrite isExpired_with_hashes.
    destruct (_isExpired this now' key); [done|]. cbn. by rewrite lookup_insert_eq.
Qed.

(** X19. [getSession] after [setSession] returns the written fields over the
    fields the session hash had, without a field named [__proto__], until the
    TTL (86400 seconds by default) is over, and the empty object afterwards.
    [setApiKeyHash] and [getApiKeyHash] do the same with a default TTL of 0,
    which writes no expiry. After [deleteSession] and [deleteApiKeyHash] the
    empty object is read. *)
Theorem setSession_then_getSession (this : MemoryRedisClient) (now now' : Z)
    (sessionId hashedKey : string) (data : list (string * string))
    (ttl_arg : option Z) :
  let merged key :=
    object_of_entries
      (list_to_map (reverse data) ∪ default ∅ (hashes this !! key)) in
  let ended key seconds :=
    if 0 <? seconds then now + seconds * 1000 <=? now'
    else _isExpired this now' key in
  (getSession (setSession this now sessionId data ttl_arg) now' sessionId).1
    = (if ended (session_key sessionId) (default 86400 ttl_arg) then ∅
       else merged (session_key sessionId))
  ∧ (getApiKeyHash (setApiKeyHash this now hashedKey data ttl_arg) now' hashedKey).1
    = (if ended (apikey_hash_key hashedKey) (default 0 ttl_arg) then ∅
       else merged (apikey_hash_key hashedKey))
  ∧ (getSession (deleteSession (setSession this now sessionId data ttl_arg)
                   sessionId).2 now' sessionId).1 = ∅
  ∧ (getApiKeyHash (deleteApiKeyHash (setApiKeyHash this now hashedKey data ttl_arg)
                      hashedKey).2 now' hashedKey).1 = ∅.
Proof.
  intros merged ended. unfold merged, ended. split; [|split; [|split]].
  - unfold getSession, setSession.
    pose proof (hgetall_after_hset_expire this now now' (session_key sessionId)
                  data (default 86400 ttl_arg)) as Hread.
    destruct (hset this (session_key sessionId) data) as [r1 this1].
    cbn [snd] in Hread.
    destruct (expire this1 now (session_key sessionId) (Js.Int (default 86400 ttl_arg)))
      as [r2 this2].
    exact Hread.
  - unfold getApiKeyHash, setApiKeyHash.
    pose proof (hgetall_after_hset_expire this now now' (apikey_hash_key hashedKey)
                  data (default 0 ttl_arg)) as Hread.
    rewrite hset_expire_state in Hread. cbv zeta in Hread.
    unfold hset. rewrite fold_insert_union.
    destruct (0 <? default 0 ttl_arg) eqn:Hpos; [|exact Hread].
    unfold expire.
    set (written := with_hashes _ this).
    assert (Hexists : exists_key written (apikey_hash_key hashedKey) = true).
    { unfold exists_key.
      rewrite (proj2 (has_true (hashes written) (apikey_hash_key hashedKey)));
        [by rewrite orb_true_r|].
      unfold written. cbn [hashes with_hashes]. rewrite lookup_insert_eq. eauto. }
    rewrite Hexists. cbn [negb snd _setExpiry]. rewrite Hpos. exact Hread.
  - unfold getSession, deleteSession. apply hgetall_absent.
    rewrite del_single_state. cbn. apply lookup_delete_eq.
  - unfold getApiKeyHash, deleteApiKeyHash. apply hgetall_absent.
    rewrite del_single_state. cbn. apply lookup_delete_eq.
Qed.

(** ** Account hashes and their listing *)

Lemma substring_all (s : string) : String.substring 0 (String.length s) s = s.
Proof. induction s as [|c s IH]; [done|]. cbn. by rewrite IH. Qed.

Lemma prefix_append (p s : string) : String.prefix p (p +:+ s) = true.
Proof.
  induction p as [|c p IH]; [by destruct s|].
  change (String c p +:+ s) with (String c (p +:+ s)). cbn [String.prefix].
  by destruct (Ascii.ascii_dec c c).
Qed.

Lemma index_prefix (p s : string) : String.index 0 p (p +:+ s) = Some 0%nat.
Proof.
  destruct (p +:+ s) as [|c r] eqn:Happ.
  - destruct p; [done|discriminate].
  - cbn [String.index]. by rewrite <- Happ, prefix_append.
Qed.

Lemma substring_after_prefix (p s : string) :
  String.substring (String.length p) (String.length (p +:+ s) - String.length p)
    (p +:+ s) = s.
Proof.
  induction p as [|c p IH].
  - change (EmptyString +:+ s) with s. cbn [String.length].
    rewrite Nat.sub_0_r. apply substring_all.
  - change (String c p +:+ s) with (String c (p +:+ s)).
    cbn [String.length String.substring Nat.sub]. apply IH.
Qed.

(** Removing a prefix gives back the rest: an id is read back from its key. *)
Lemma remove_first_prefix (p s : string) : remove_first p (p +:+ s) = s.
Proof.
  unfold remove_first. rewrite index_prefix.
  replace (String.substring 0 0 (p +:+ s)) with EmptyString
    by (by destruct (p +:+ s)).
  cbn [Nat.add]. rewrite substring_after_prefix. done.
Qed.

(** The loop of the three listings: it leaves the state as it was and
    returns the entries of the keys, in their order. *)
Lemma collect_accounts (this : MemoryRedisClient) (now : Z) (prefix : string)
    (keys : list string) : ∀ accounts,
  (∀ key, key ∈ keys → _isExpired this now key = false) →
  fold_left (collect_account now prefix) keys (accounts, this)
  = (accounts ++ omap (account_entry this prefix) keys, this).
Proof.
  induction keys as [|key keys IH]; intros accounts Hheld.
  - cbn. by rewrite app_nil_r.
  - cbn [fold_left omap list_omap]. unfold collect_account at 2.
    rewrite hgetall_held by (apply Hheld, list_elem_of_here).
    unfold account_entry at 1.
    destruct (nonempty_object (object_of_entries (default ∅ (hashes this !! key)))).
    + rewrite IH by (intros k Hk; by apply Hheld, list_elem_of_further).
      by rewrite <- app_assoc.
    + apply IH. intros k Hk. by apply Hheld, list_elem_of_further.
Qed.

Lemma listing_state (regex_test : string → string → bool) (this : MemoryRedisClient)
    (now : Z) (prefix pattern : string) :
  fold_left (collect_account now prefix) (keys regex_test this now pattern) ([], this)
  = (omap (account_entry this prefix) (keys regex_test this now pattern), this).
Proof.
  rewrite collect_accounts; [done|].
  intros key Hkey. unfold keys in Hkey.
  apply list_elem_of_filter in Hkey as [Hkey _].
  apply andb_prop in Hkey as [Hheld _]. by apply negb_true_iff in Hheld.
Qed.

Lemma elem_of_keys (regex_test : string → string → bool) (this : MemoryRedisClient)
    (now : Z) (pattern key : string) :
  key ∈ keys regex_test this now pattern
  ↔ _isExpired this now key = false ∧ regex_test pattern key = true
    ∧ exists_key this key = true.
Proof.
  unfold keys. rewrite list_elem_of_filter, elem_of_elements.
  unfold allKeys, exists_key. rewrite !elem_of_union, !elem_of_dom.
  rewrite andb_true_iff, negb_true_iff, !orb_true_iff, !has_true. tauto.
Qed.

(** What a listing returns after one account has been written. *)
Lemma listed_after_hset (regex_test : string → string → bool)
    (this : MemoryRedisClient) (now : Z) (prefix pattern accountId : string)
    (accountData : list (string * string)) :
  (∃ entry, entry ∈ accountData ∧ entry.1 ≠ "__proto__") →
  remove_first prefix (prefix +:+ accountId) = accountId →
  _isExpired this now (prefix +:+ accountId) = false →
  regex_test pattern (prefix +:+ accountId) = true →
  let stored := (hset this (prefix +:+ accountId) accountData).2 in
  fold_left (collect_account now prefix) (keys regex_test stored now pattern)
    ([], stored)
  = (omap (account_entry stored prefix) (keys regex_test stored now pattern), stored)
  ∧ with_id accountId
      (object_of_entries
         (list_to_map (reverse accountData)
          ∪ default ∅ (hashes this !! (prefix +:+ accountId))))
    ∈ omap (account_entry stored prefix) (keys regex_test stored now pattern).
Proof.
  intros Hdata Hid Hheld Hmatch stored. split; [apply listing_state|].
  set (key := prefix +:+ accountId) in *.
  assert (Hstored : hashes stored !! key
                    = Some (list_to_map (reverse accountData)
                            ∪ default ∅ (hashes this !! key))).
  { unfold stored, hset. rewrite fold_insert_union. cbn. apply lookup_insert_eq. }
  apply list_elem_of_omap. exists key. split.
  - apply elem_of_keys. split; [done|]. split; [done|].
    unfold exists_key. rewrite (proj2 (has_true (hashes stored) key)) by eauto.
    by rewrite orb_true_r.
  - unfold account_entry. rewrite Hstored. cbn [from_option id].
    rewrite (nonempty_object_written accountData _ Hdata). by rewrite Hid.
Qed.

(** X20. An account written by [setClaudeAccount], [setDroidAccount] or
    [setOpenAiAccount] with a field that is not named [__proto__] is listed by
    [getAllClaudeAccounts], [getAllDroidAccounts] or [getAllOpenAIAccounts]
    with its fields and its [id], provided its key has not expired and matches
    the pattern; listing then leaves the state as it is. *)
Theorem account_set_then_listed (regex_test : string → string → bool)
    (this : MemoryRedisClient) (now : Z) (accountId : string)
    (accountData : list (string * string)) :
  (∃ entry, entry ∈ accountData ∧ entry.1 ≠ "__proto__") →
  let written key :=
    with_id accountId
      (object_of_entries
         (list_to_map (reverse accountData) ∪ default ∅ (hashes this !! key))) in
  (_isExpired this now (claude_account_key accountId) = false →
   regex_test "claude:account:*" (claude_account_key accountId) = true →
   let stored := setClaudeAccount this accountId accountData in
   (getAllClaudeAccounts regex_test stored now).2 = stored
   ∧ written (claude_account_key accountId)
     ∈ (getAllClaudeAccounts regex_test stored now).1)
  ∧ (_isExpired this now (droid_account_key accountId) = false →
     regex_test "droid:account:*" (droid_account_key accountId) = true →
     let stored := setDroidAccount this accountId accountData in
     (getAllDroidAccounts regex_test stored now).2 = stored
     ∧ written (droid_account_key accountId)
       ∈ (getAllDroidAccounts regex_test stored now).1)
  ∧ (_isExpired this now (openai_account_key accountId) = false →
     regex_test "openai:account:*" (openai_account_key accountId) = true →
     let stored := setOpenAiAccount this accountId accountData in
     (getAllOpenAIAccounts regex_test stored now).2 = stored
     ∧ written (openai_account_key accountId)
       ∈ (getAllOpenAIAccounts regex_test stored now).1).
Proof.
  intros Hdata written. unfold written.
  split; [|split]; intros Hheld Hmatch.
  - destruct (listed_after_hset regex_test this now "claude:account:"
      "claude:account:*" accountId accountData Hdata) as [Hstate Hin]; try done.
    { apply remove_first_prefix. }
    unfold getAllClaudeAccounts, setClaudeAccount, claude_account_key.
    by rewrite Hstate.
  - destruct (listed_after_hset regex_test this now "droid:account:"
      "droid:account:*" accountId accountData Hdata) as [Hstate Hin]; try done.
    { apply remove_first_prefix. }
    unfold getAllDroidAccounts, setDroidAccount, droid_account_key.
    by rewrite Hstate.
  - destruct (listed_after_hset regex_test this now "openai:account:"
      "openai:account:*" accountId accountData Hdata) as [Hstate Hin]; try done.
    { apply remove_first_prefix. }
    unfold getAllOpenAIAccounts, setOpenAiAccount, openai_account_key.
    by rewrite Hstate.
Qed.

(** The theorem at work, the pattern read as a prefix test. *)
Lemma account_set_then_listed_witness :
  with_id "a1"
    (object_of_entries
       (list_to_map (reverse [("name", "first")])
        ∪ default ∅ (hashes new_client !! claude_account_key "a1")))
  ∈ (getAllClaudeAccounts (λ _ key, String.prefix "claude:account:" key)
       (setClaudeAccount new_client "a1" [("name", "first")]) 0).1.
Proof.
  refine (proj2 (proj1 (account_set_then_listed
    (λ _ key, String.prefix "claude:account:" key) new_client 0 "a1"
    [("name", "first")] _) _ _)); [|done..].
  exists ("name", "first"). split; [apply list_elem_of_here|discriminate].
Defined.

(** ** Counters: what a batch of [hincrby] and [expire] adds *)

Lemma exec_cons (this : MemoryRedisClient) (now : Z) (cmd : command)
    (commands : list command) :
  (exec this now (cmd :: commands)).2
  = (exec (run_command this now cmd).2 now commands).2.
Proof. by rewrite !exec_state. Qed.

Lemma expire_hashes (this : MemoryRedisClient) (now : Z) (key : string)
    (seconds : Js.num) :
  hashes (expire this now key seconds).2 = hashes this.
Proof.
  unfold expire. destruct (exists_key this key); [|done]. cbn.
  unfold _setExpiry. destruct seconds as [sec|]; [|done]. by destruct (0 <? sec).
Qed.

Lemma run_hincrby (this : MemoryRedisClient) (now : Z) (key field : string)
    (increment : Z) :
  (run_command this now (Chincrby key field increment)).2
  = (hincrby this key field increment).2.
Proof. done. Qed.

(** After a batch of counting commands a field counts as what it counted as
    before plus the increments the batch holds for it. *)
Lemma exec_counter (commands : list command) : ∀ (this : MemoryRedisClient) (now : Z)
    (key field : string),
  forallb counting commands = true →
  counter (exec this now commands).2 key field
  = counter this key field + total (increment_of key field <$> commands).
Proof.
  induction commands as [|cmd commands IH]; intros this now key field Hall.
  - cbn. lia.
  - apply andb_prop in Hall as [Hcmd Hall]. rewrite exec_cons, IH by done.
    cbn [fmap list_fmap total foldr]. fold (total (increment_of key field <$> commands)).
    destruct cmd; try done.
    + rewrite run_hincrby, hincrby_counter. cbn [increment_of].
      destruct (decide (key = key0 ∧ field = field0)) as [[-> ->]|Hne].
      * rewrite String.eqb_refl, bool_decide_eq_true_2 by done. cbn [andb]. lia.
      * destruct (String.eqb_spec field0 field) as [->|Hfield]; cbn [andb]; [|lia].
        rewrite bool_decide_eq_false_2 by (intros ->; by apply Hne). lia.
    + rewrite run_expire. unfold counter at 1. rewrite expire_hashes.
      cbn [increment_of]. fold (counter this key field). lia.
Qed.

(** The hashes of the keys a batch does not name are left as they were. *)
Lemma exec_hashes_other (commands : list command) : ∀ (this : MemoryRedisClient)
    (now : Z) (key : string),
  forallb counting commands = true →
  (∀ key' field increment, Chincrby key' field increment ∈ commands → key' ≠ key) →
  hashes (exec this now commands).2 !! key = hashes this !! key.
Proof.
  induction commands as [|cmd commands IH]; intros this now key Hall Hother; [done|].
  apply andb_prop in Hall as [Hcmd Hall]. rewrite exec_cons, IH; [|done|].
  - destruct cmd; try done.
    + rewrite run_hincrby. unfold hincrby. cbn [snd hashes with_hashes].
      rewrite lookup_insert_ne; [done|].
      eapply Hother, list_elem_of_here.
    + by rewrite run_expire, expire_hashes.
  - intros key' field increment Hin. eapply Hother, list_elem_of_further, Hin.
Qed.

Lemma or_0 (a : Z) : Js.or a 0 = a.
Proof. unfold Js.or. destruct (Z.eqb_spec a 0); [by subst|done]. Qed.

(** The keys of one call of [incrementAccountUsage] are told apart. *)
Lemma account_usage_keys_distinct (accountId today month hour : string) :
  account_usage_daily_key accountId today ≠ account_usage_key accountId
  ∧ account_usage_hourly_key accountId hour ≠ account_usage_key accountId
  ∧ account_usage_monthly_key accountId month ≠ account_usage_key accountId
  ∧ account_usage_daily_key accountId today ≠ account_usage_monthly_key accountId month
  ∧ account_usage_hourly_key accountId hour ≠ account_usage_monthly_key accountId month
  ∧ account_usage_hourly_key accountId hour ≠ account_usage_daily_key accountId today.
Proof.
  unfold account_usage_daily_key, account_usage_key, account_usage_hourly_key,
    account_usage_monthly_key.
  repeat split; intros Heq; try discriminate Heq;
    injection Heq as Heq; apply (f_equal String.length) in Heq;
    rewrite !length_append in Heq; cbn in Heq; lia.
Qed.

Lemma exec_app (this : MemoryRedisClient) (now : Z) (first rest : list command) :
  (exec this now (first ++ rest)).2 = (exec (exec this now first).2 now rest).2.
Proof. by rewrite !exec_state, fold_left_app. Qed.

(** A counting command removes no key. *)
Lemma counting_exists_mono (commands : list command) : ∀ (this : MemoryRedisClient)
    (now : Z) (key : string),
  forallb counting commands = true →
  exists_key this key = true →
  exists_key (exec this now commands).2 key = true.
Proof.
  induction commands as [|cmd commands IH]; intros this now key Hall Hex; [done|].
  apply andb_prop in Hall as [Hcmd Hall]. rewrite exec_cons. apply IH; [done|].
  destruct cmd; try done.
  - by apply hincrby_exists_mono.
  - by rewrite run_expire, (proj2 (expire_structures _ _ _ _)).
Qed.

(** The key of an [hincrby] of the batch exists after the batch. *)
Lemma counting_exists (commands : list command) : ∀ (this : MemoryRedisClient)
    (now : Z) (key field : string) (increment : Z),
  forallb counting commands = true →
  Chincrby key field increment ∈ commands →
  exists_key (exec this now commands).2 key = true.
Proof.
  induction commands as [|cmd commands IH];
    intros this now key field increment Hall Hin.
  - by apply elem_of_nil in Hin.
  - apply andb_prop in Hall as [Hcmd Hall]. rewrite exec_cons.
    apply elem_of_cons in Hin as [<-|Hin].
    + apply counting_exists_mono; [done|]. apply hincrby_exists.
    + by eapply IH.
Qed.

(** The expiry of a key the batch does not expire is left as it was. *)
Lemma exec_ttls_other (commands : list command) : ∀ (this : MemoryRedisClient)
    (now : Z) (key : string),
  forallb counting commands = true →
  (∀ key' seconds, Cexpire key' seconds ∈ commands → key' ≠ key) →
  ttls (exec this now commands).2 !! key = ttls this !! key.
Proof.
  induction commands as [|cmd commands IH]; intros this now key Hall Hother; [done|].
  apply andb_prop in Hall as [Hcmd Hall]. rewrite exec_cons, IH; [|done|].
  - destruct cmd; try done.
    rewrite run_expire. apply expire_other. symmetry.
    eapply Hother, list_elem_of_here.
  - intros key' seconds Hin. eapply Hother, list_elem_of_further, Hin.
Qed.

(** The expiry a batch leaves on a key it counts on and then expires once. *)
Lemma exec_expiry (this : MemoryRedisClient) (now : Z) (key field : string)
    (increment seconds : Z) (counts expires : list command) :
  forallb counting counts = true → forallb counting expires = true →
  Chincrby key field increment ∈ counts → 0 < seconds →
  (∀ key' seconds', Cexpire key' seconds' ∈ expires → key' ≠ key) →
  ttls (exec this now (counts ++ Cexpire key (Js.Int seconds) :: expires)).2 !! key
  = Some (Js.Int (now + seconds * 1000)).
Proof.
  intros Hcounts Hexpires Hin Hpos Hother.
  rewrite exec_app, exec_cons, exec_ttls_other, run_expire by done.
  apply expire_held; [|done]. by eapply counting_exists.
Qed.

(** Settles, one after the other, the tests [increment_of] makes. *)
Ltac resolve_increments :=
  cbv [increment_of String.eqb Ascii.eqb Bool.eqb andb String.append fmap list_fmap
       total foldr];
  repeat first
    [ rewrite bool_decide_eq_true_2 by reflexivity
    | rewrite bool_decide_eq_false_2 by congruence ].

Lemma handleAccountData_counter (this : MemoryRedisClient) (now : Z) (key : string) :
  _isExpired this now key = false →
  handleAccountData (hgetall this now key).1
  = {| AccountData.tokens := counter this key "totalTokens";
       AccountData.inputTokens := counter this key "totalInputTokens";
       AccountData.outputTokens := counter this key "totalOutputTokens";
       AccountData.allTokens := counter this key "totalAllTokens";
       AccountData.requests := counter this key "totalRequests" |}.
Proof.
  intros Hheld. rewrite hgetall_held by done.
  unfold handleAccountData, field_or0, counter. cbn [fst].
  by rewrite !object_of_entries_lookup by done.
Qed.

(** The batch of [incrementAccountUsage] over any four keys that differ. *)
Lemma account_usage_batch (this : MemoryRedisClient) (now : Z)
    (key daily monthly hourly normalizedModel : string)
    (input output all_ : Z) :
  daily ≠ key → hourly ≠ key → monthly ≠ key → daily ≠ monthly →
  hourly ≠ monthly → hourly ≠ daily →
  let commands :=
    [ Chincrby key "totalTokens" (input + output);
      Chincrby key "totalInputTokens" input;
      Chincrby key "totalOutputTokens" output;
      Chincrby key "totalAllTokens" all_;
      Chincrby key "totalRequests" 1;
      Chincrby daily "tokens" (input + output);
      Chincrby daily "inputTokens" input;
      Chincrby daily "outputTokens" output;
      Chincrby daily "allTokens" all_;
      Chincrby daily "requests" 1;
      Chincrby hourly "inputTokens" input;
      Chincrby hourly "outputTokens" output;
      Chincrby hourly "allTokens" all_;
      Chincrby hourly "requests" 1;
      Chincrby hourly ("model:" +:+ normalizedModel +:+ ":inputTokens") input;
      Chincrby hourly ("model:" +:+ normalizedModel +:+ ":outputTokens") output;
      Chincrby hourly ("model:" +:+ normalizedModel +:+ ":allTokens") all_;
      Chincrby hourly ("model:" +:+ normalizedModel +:+ ":requests") 1;
      Cexpire daily (Js.Int (86400 * 32));
      Cexpire monthly (Js.Int (86400 * 365));
      Cexpire hourly (Js.Int (86400 * 7)) ] in
  let counted := (exec this now commands).2 in
  (counter counted key "totalTokens" = counter this key "totalTokens" + (input + output)
   ∧ counter counted key "totalInputTokens" = counter this key "totalInputTokens" + input
   ∧ counter counted key "totalOutputTokens"
     = counter this key "totalOutputTokens" + output
   ∧ counter counted key "totalAllTokens" = counter this key "totalAllTokens" + all_
   ∧ counter counted key "totalRequests" = counter this key "totalRequests" + 1)
  ∧ (counter counted daily "totalTokens" = counter this daily "totalTokens"
     ∧ counter counted daily "totalInputTokens" = counter this daily "totalInputTokens"
     ∧ counter counted daily "totalOutputTokens"
       = counter this daily "totalOutputTokens"
     ∧ counter counted daily "totalAllTokens" = counter this daily "totalAllTokens"
     ∧ counter counted daily "totalRequests" = counter this daily "totalRequests")
  ∧ counter counted daily "requests" = counter this daily "requests" + 1
  ∧ hashes counted !! monthly = hashes this !! monthly
  ∧ ttls counted !! key = ttls this !! key
  ∧ ttls counted !! daily = Some (Js.Int (now + 86400 * 32 * 1000))
  ∧ ttls counted !! hourly = Some (Js.Int (now + 86400 * 7 * 1000)).
Proof.
  intros Hdk Hhk Hmk Hdm Hhm Hhd commands counted.
  assert (Hall : forallb counting commands = true) by done.
  assert (Hcounter : ∀ k f, counter counted k f
            = counter this k f + total (increment_of k f <$> commands)).
  { intros k f. by apply exec_counter. }
  rewrite !Hcounter. unfold commands.
  resolve_increments.
  split; [repeat split; lia|]. split; [repeat split; lia|]. split; [lia|].
  split; [|split; [|split]].
  - apply exec_hashes_other; [done|].
    intros key' field increment Hin.
    repeat (apply elem_of_cons in Hin as [Hin|Hin];
            [try discriminate Hin; injection Hin as -> _ _; congruence|]).
    by apply elem_of_nil in Hin.
  - apply exec_ttls_other; [done|].
    intros key' seconds Hin.
    repeat (apply elem_of_cons in Hin as [Hin|Hin];
            [try discriminate Hin; injection Hin as -> _; congruence|]).
    by apply elem_of_nil in Hin.
  - unfold counted, commands.
    match goal with
    | |- context [exec this now ?l] =>
        change l with (take 18 l ++ Cexpire daily (Js.Int (86400 * 32)) :: drop 19 l)
    end.
    cbn [take drop].
    eapply (exec_expiry _ _ _ "tokens"); [done|done| |lia|].
    + do 5 apply list_elem_of_further. apply list_elem_of_here.
    + intros key' seconds Hin.
      repeat (apply elem_of_cons in Hin as [Hin|Hin];
              [injection Hin as -> _; congruence|]).
      by apply elem_of_nil in Hin.
  - unfold counted, commands.
    match goal with
    | |- context [exec this now ?l] =>
        change l with (take 20 l ++ Cexpire hourly (Js.Int (86400 * 7)) :: drop 21 l)
    end.
    cbn [take drop].
    eapply (exec_expiry _ _ _ "requests"); [done|done| |lia|].
    + do 13 apply list_elem_of_further. apply list_elem_of_here.
    + intros key' seconds Hin. by apply elem_of_nil in Hin.
Qed.

(** X21. Take an account whose key has not expired, token counts that are
    not negative, and counters that have room for them (safe integers before
    and after).  After [incrementAccountUsage] the totals
    [getAccountUsageStats] reports have grown by input plus output tokens,
    input tokens, output tokens, all tokens and one request.  Its daily
    figures are read from the [total...] fields of the daily hash, which the
    increment does not write, so they are those of the hash before the call,
    while the daily counter [requests] has grown by one.  The monthly hash is
    not written, and the daily and hourly buckets have TTLs of 32 and 7
    days. *)
Theorem incrementAccountUsage_then_stats (this : MemoryRedisClient) (config : Config)
    (now : Z) (accountId : string) (totalTokens inputTokens outputTokens
      cacheCreateTokens cacheReadTokens : Z) (model : string)
    (isLongContextRequest : bool) :
  let daily :=
    account_usage_daily_key accountId (getDateStringInTimezone config now) in
  let amount :=
    inputTokens + outputTokens + cacheCreateTokens + cacheReadTokens + 1 in
  _isExpired this now (account_usage_key accountId) = false →
  forallb (Z.leb 0) [inputTokens; outputTokens; cacheCreateTokens; cacheReadTokens]
  = true →
  Js.isSafeInteger amount = true →
  (∀ field, has_room (counter this (account_usage_key accountId) field) amount
            = true) →
  has_room (counter this daily "requests") 1 = true →
  let monthly := account_usage_monthly_key accountId (month_string config now) in
  let hourly := account_usage_hourly_key accountId (hour_string config now) in
  let counted :=
    incrementAccountUsage this config now accountId totalTokens inputTokens
      outputTokens cacheCreateTokens cacheReadTokens model isLongContextRequest in
  let before := (getAccountUsageStats this config now accountId).1 in
  let after := (getAccountUsageStats counted config now accountId).1 in
  stats_total after
  = {| AccountData.tokens :=
         AccountData.tokens (stats_total before) + (inputTokens + outputTokens);
       AccountData.inputTokens :=
         AccountData.inputTokens (stats_total before) + inputTokens;
       AccountData.outputTokens :=
         AccountData.outputTokens (stats_total before) + outputTokens;
       AccountData.allTokens :=
         AccountData.allTokens (stats_total before)
         + (inputTokens + outputTokens + cacheCreateTokens + cacheReadTokens);
       AccountData.requests := AccountData.requests (stats_total before) + 1 |}
  ∧ stats_daily after = handleAccountData (default ∅ (hashes this !! daily))
  ∧ counter counted daily "requests" = counter this daily "requests" + 1
  ∧ hashes counted !! monthly = hashes this !! monthly
  ∧ ttl counted now daily = 86400 * 32
  ∧ ttl counted now hourly = 86400 * 7.
Proof.
  intros daily amount Hheld _ _ _ _ monthly hourly counted before after.
  pose proof (account_usage_keys_distinct accountId (getDateStringInTimezone config now)
                (month_string config now) (hour_string config now))
    as (Hdk & Hhk & Hmk & Hdm & Hhm & Hhd).
  fold daily monthly hourly in Hdk, Hhk, Hmk, Hdm, Hhm, Hhd.
  set (key := account_usage_key accountId) in *.
  pose proof (account_usage_batch this now key daily monthly hourly
                (_normalizeModelName model) inputTokens outputTokens
                (inputTokens + outputTokens + cacheCreateTokens + cacheReadTokens)
                Hdk Hhk Hmk Hdm Hhm Hhd) as Hbatch.
  cbv zeta in Hbatch.
  assert (Hcounted : counted = (exec this now
            [ Chincrby key "totalTokens" (inputTokens + outputTokens);
              Chincrby key "totalInputTokens" inputTokens;
              Chincrby key "totalOutputTokens" outputTokens;
              Chincrby key "totalAllTokens"
                (inputTokens + outputTokens + cacheCreateTokens + cacheReadTokens);
              Chincrby key "totalRequests" 1;
              Chincrby daily "tokens" (inputTokens + outputTokens);
              Chincrby daily "inputTokens" inputTokens;
              Chincrby daily "outputTokens" outputTokens;
              Chincrby daily "allTokens"
                (inputTokens + outputTokens + cacheCreateTokens + cacheReadTokens);
              Chincrby daily "requests" 1;
              Chincrby hourly "inputTokens" inputTokens;
              Chincrby hourly "outputTokens" outputTokens;
              Chincrby hourly "allTokens"
                (inputTokens + outputTokens + cacheCreateTokens + cacheReadTokens);
              Chincrby hourly "requests" 1;
              Chincrby hourly
                ("model:" +:+ _normalizeModelName model +:+ ":inputTokens") inputTokens;
              Chincrby hourly
                ("model:" +:+ _normalizeModelName model +:+ ":outputTokens")
                outputTokens;
              Chincrby hourly
                ("model:" +:+ _normalizeModelName model +:+ ":allTokens")
                (inputTokens + outputTokens + cacheCreateTokens + cacheReadTokens);
              Chincrby hourly
                ("model:" +:+ _normalizeModelName model +:+ ":requests") 1;
              Cexpire daily (Js.Int (86400 * 32));
              Cexpire monthly (Js.Int (86400 * 365));
              Cexpire hourly (Js.Int (86400 * 7)) ]).2).
  { unfold counted, incrementAccountUsage, incrementAccountUsage_operations.
    cbv zeta. by rewrite !or_0. }
  rewrite <- Hcounted in Hbatch. clear Hcounted.
  destruct Hbatch as ((Ht1 & Ht2 & Ht3 & Ht4 & Ht5) & (Hd1 & Hd2 & Hd3 & Hd4 & Hd5)
                      & Hrequests & Hmonthly & Httl_key & Httl_daily & Httl_hourly).
  assert (Hheld' : _isExpired counted now key = false).
  { by rewrite (isExpired_ttls this counted). }
  assert (Hheld_daily : _isExpired counted now daily = false).
  { rewrite (isExpired_at _ _ _ _ Httl_daily). lia. }
  split; [|split; [|split; [done|split; [done|split]]]].
  - unfold after, before, getAccountUsageStats. fold key. fold daily.
    destruct (hgetall counted now key) as [total1 counted1] eqn:Hread1.
    destruct (hgetall counted1 now daily) as [daily1 counted2].
    destruct (hgetall this now key) as [total0 this1] eqn:Hread0.
    destruct (hgetall this1 now daily) as [daily0 this2].
    cbn [fst stats_total].
    apply (f_equal fst) in Hread1, Hread0. cbn [fst] in Hread1, Hread0.
    subst total1 total0.
    rewrite !handleAccountData_counter by done.
    cbn [AccountData.tokens AccountData.inputTokens AccountData.outputTokens
         AccountData.allTokens AccountData.requests].
    by rewrite Ht1, Ht2, Ht3, Ht4, Ht5.
  - unfold after, getAccountUsageStats. fold key. fold daily.
    rewrite (hgetall_held counted now key Hheld').
    destruct (hgetall counted now daily) as [daily1 counted2] eqn:Hread.
    cbn [fst stats_daily].
    apply (f_equal fst) in Hread. cbn [fst] in Hread. subst daily1.
    rewrite handleAccountData_counter by done.
    unfold handleAccountData, field_or0.
    fold (counter this daily "totalTokens") (counter this daily "totalInputTokens")
      (counter this daily "totalOutputTokens") (counter this daily "totalAllTokens")
      (counter this daily "totalRequests").
    by rewrite Hd1, Hd2, Hd3, Hd4, Hd5.
  - by apply ttl_of_expiry; [lia|].
  - by apply ttl_of_expiry; [lia|].
Qed.

(** The theorem at work: one request of 10 input and 5 output tokens on a
    fresh client. *)
Lemma incrementAccountUsage_then_stats_witness :
  stats_total
    (getAccountUsageStats
       (incrementAccountUsage new_client bare_config 1700000000000 "a1" 0 10 5 0 0
          "claude-3-opus" false)
       bare_config 1700000000000 "a1").1
  = {| AccountData.tokens :=
         AccountData.tokens
           (stats_total
              (getAccountUsageStats new_client bare_config 1700000000000 "a1").1)
         + (10 + 5);
       AccountData.inputTokens :=
         AccountData.inputTokens
           (stats_total
              (getAccountUsageStats new_client bare_config 1700000000000 "a1").1)
         + 10;
       AccountData.outputTokens :=
         AccountData.outputTokens
           (stats_total
              (getAccountUsageStats new_client bare_config 1700000000000 "a1").1)
         + 5;
       AccountData.allTokens :=
         AccountData.allTokens
           (stats_total
              (getAccountUsageStats new_client bare_config 1700000000000 "a1").1)
         + (10 + 5 + 0 + 0);
       AccountData.requests :=
         AccountData.requests
           (stats_total
              (getAccountUsageStats new_client bare_config 1700000000000 "a1").1)
         + 1 |}.
Proof.
  refine (proj1 (incrementAccountUsage_then_stats new_client bare_config
    1700000000000 "a1" 0 10 5 0 0 "claude-3-opus" false _ _ _ _ _));
    intros; reflexivity.
Defined.

(** The batch of [incrementTokenUsage], seen from the daily bucket, over any
    keys that differ from it. *)
Lemma token_usage_batch (this : MemoryRedisClient) (now : Z)
    (key daily monthly hourly modelDaily keyModelDaily systemMinuteKey : string)
    (input output cacheCreate cacheRead ephemeral5m ephemeral1h : Z)
    (isLongContextRequest : bool) (window : Js.num) :
  key ≠ daily → monthly ≠ daily → hourly ≠ daily → modelDaily ≠ daily →
  keyModelDaily ≠ daily → systemMinuteKey ≠ daily →
  let all_ := input + output + cacheCreate + cacheRead in
  let commands :=
    [ Chincrby key "totalTokens" (input + output);
      Chincrby key "totalInputTokens" input;
      Chincrby key "totalOutputTokens" output;
      Chincrby key "totalCacheCreateTokens" cacheCreate;
      Chincrby key "totalCacheReadTokens" cacheRead;
      Chincrby key "totalAllTokens" all_;
      Chincrby key "totalEphemeral5mTokens" ephemeral5m;
      Chincrby key "totalEphemeral1hTokens" ephemeral1h ]
    ++ (if isLongContextRequest then
          [ Chincrby key "totalLongContextInputTokens" input;
            Chincrby key "totalLongContextOutputTokens" output;
            Chincrby key "totalLongContextRequests" 1 ]
        else [])
    ++ [ Chincrby key "totalRequests" 1;
         Chincrby daily "tokens" (input + output);
         Chincrby daily "inputTokens" input;
         Chincrby daily "outputTokens" output;
         Chincrby daily "cacheCreateTokens" cacheCreate;
         Chincrby daily "cacheReadTokens" cacheRead;
         Chincrby daily "allTokens" all_;
         Chincrby daily "requests" 1;
         Chincrby daily "ephemeral5mTokens" ephemeral5m;
         Chincrby daily "ephemeral1hTokens" ephemeral1h;
         Chincrby monthly "tokens" (input + output);
         Chincrby monthly "inputTokens" input;
         Chincrby monthly "outputTokens" output;
         Chincrby monthly "cacheCreateTokens" cacheCreate;
         Chincrby monthly "cacheReadTokens" cacheRead;
         Chincrby monthly "allTokens" all_;
         Chincrby monthly "requests" 1;
         Chincrby hourly "tokens" (input + output);
         Chincrby hourly "inputTokens" input;
         Chincrby hourly "outputTokens" output;
         Chincrby hourly "allTokens" all_;
         Chincrby hourly "requests" 1;
         Chincrby modelDaily "inputTokens" input;
         Chincrby modelDaily "outputTokens" output;
         Chincrby modelDaily "allTokens" all_;
         Chincrby modelDaily "requests" 1;
         Chincrby keyModelDaily "inputTokens" input;
         Chincrby keyModelDaily "outputTokens" output;
         Chincrby keyModelDaily "allTokens" all_;
         Chincrby keyModelDaily "requests" 1;
         Chincrby systemMinuteKey "requests" 1;
         Chincrby systemMinuteKey "totalTokens" all_;
         Chincrby systemMinuteKey "inputTokens" input;
         Chincrby systemMinuteKey "outputTokens" output;
         Cexpire daily (Js.Int (86400 * 32));
         Cexpire monthly (Js.Int (86400 * 365));
         Cexpire hourly (Js.Int (86400 * 7));
         Cexpire systemMinuteKey window ] in
  let counted := (exec this now commands).2 in
  counter counted daily "requests" = counter this daily "requests" + 1
  ∧ counter counted daily "inputTokens" = counter this daily "inputTokens" + input
  ∧ counter counted daily "outputTokens" = counter this daily "outputTokens" + output
  ∧ counter counted daily "tokens" = counter this daily "tokens" + (input + output)
  ∧ counter counted daily "cacheCreateTokens"
    = counter this daily "cacheCreateTokens" + cacheCreate
  ∧ counter counted daily "cacheReadTokens"
    = counter this daily "cacheReadTokens" + cacheRead
  ∧ counter counted daily "allTokens" = counter this daily "allTokens" + all_
  ∧ counter counted daily "ephemeral5mTokens"
    = counter this daily "ephemeral5mTokens" + ephemeral5m
  ∧ counter counted daily "ephemeral1hTokens"
    = counter this daily "ephemeral1hTokens" + ephemeral1h.
Proof.
  intros Hk Hm Hh Hmd Hkm Hs all_ commands counted.
  assert (Hall : forallb counting commands = true).
  { unfold commands. by destruct isLongContextRequest. }
  assert (Hcounter : ∀ f, counter counted daily f
            = counter this daily f + total (increment_of daily f <$> commands)).
  { intros f. by apply exec_counter. }
  rewrite !Hcounter. unfold commands.
  destruct isLongContextRequest; cbn [app]; resolve_increments;
    repeat split; lia.
Qed.

(** The daily bucket of one call is none of the other keys the call writes. *)
Lemma usage_daily_key_distinct (keyId today month hour model : string) (minute : Z) :
  usage_key keyId ≠ usage_daily_key keyId today
  ∧ usage_monthly_key keyId month ≠ usage_daily_key keyId today
  ∧ usage_hourly_key keyId hour ≠ usage_daily_key keyId today
  ∧ model_daily_key model today ≠ usage_daily_key keyId today
  ∧ key_model_daily_key keyId model today ≠ usage_daily_key keyId today
  ∧ system_minute_key minute ≠ usage_daily_key keyId today.
Proof.
  unfold usage_key, usage_daily_key, usage_monthly_key, usage_hourly_key,
    model_daily_key, key_model_daily_key, system_minute_key.
  repeat split; intros Heq; try discriminate Heq;
    injection Heq as Heq; apply (f_equal String.length) in Heq;
    rewrite !length_append in Heq; cbn in Heq; lia.
Qed.

(** X22. For token counts that are not negative and a daily bucket whose
    counters have room for them (safe integers before and after),
    [incrementTokenUsage] adds to the daily bucket of the key: one request,
    the input tokens, the output tokens, their sum as [tokens], the two cache
    counts, the sum of all four as [allTokens], and the two ephemeral counts.
    When [outputTokens] is 0, the output counted is 0 if there are input
    tokens and the [tokens] argument otherwise. *)
Theorem incrementTokenUsage_daily_counters (this : MemoryRedisClient)
    (config : Config) (now : Z) (keyId : string) (tokens inputTokens outputTokens
      cacheCreateTokens cacheReadTokens : Z) (model : string)
    (ephemeral5mTokens ephemeral1hTokens : Z) (isLongContextRequest : bool) :
  let daily := usage_daily_key keyId (getDateStringInTimezone config now) in
  let amount :=
    tokens + inputTokens + outputTokens + cacheCreateTokens + cacheReadTokens
    + ephemeral5mTokens + ephemeral1hTokens + 1 in
  forallb (Z.leb 0)
    [tokens; inputTokens; outputTokens; cacheCreateTokens; cacheReadTokens;
     ephemeral5mTokens; ephemeral1hTokens] = true →
  Js.isSafeInteger amount = true →
  (∀ field, has_room (counter this daily field) amount = true) →
  let counted :=
    incrementTokenUsage this config now keyId tokens inputTokens outputTokens
      cacheCreateTokens cacheReadTokens model ephemeral5mTokens ephemeral1hTokens
      isLongContextRequest in
  let output :=
    if outputTokens =? 0 then (if 0 <? inputTokens then 0 else tokens)
    else outputTokens in
  counter counted daily "requests" = counter this daily "requests" + 1
  ∧ counter counted daily "inputTokens"
    = counter this daily "inputTokens" + inputTokens
  ∧ counter counted daily "outputTokens" = counter this daily "outputTokens" + output
  ∧ counter counted daily "tokens"
    = counter this daily "tokens" + (inputTokens + output)
  ∧ counter counted daily "cacheCreateTokens"
    = counter this daily "cacheCreateTokens" + cacheCreateTokens
  ∧ counter counted daily "cacheReadTokens"
    = counter this daily "cacheReadTokens" + cacheReadTokens
  ∧ counter counted daily "allTokens"
    = counter this daily "allTokens"
      + (inputTokens + output + cacheCreateTokens + cacheReadTokens)
  ∧ counter counted daily "ephemeral5mTokens"
    = counter this daily "ephemeral5mTokens" + ephemeral5mTokens
  ∧ counter counted daily "ephemeral1hTokens"
    = counter this daily "ephemeral1hTokens" + ephemeral1hTokens.
Proof.
  intros daily amount _ _ _ counted output.
  pose proof (usage_daily_key_distinct keyId (getDateStringInTimezone config now)
                (month_string config now) (hour_string config now)
                (_normalizeModelName model) (now / 60000))
    as (Hk & Hm & Hh & Hmd & Hkm & Hs).
  fold daily in Hk, Hm, Hh, Hmd, Hkm, Hs.
  pose proof (token_usage_batch this now _ daily _ _ _ _ _
                inputTokens output cacheCreateTokens cacheReadTokens
                ephemeral5mTokens ephemeral1hTokens isLongContextRequest
                (match metricsWindow config with
                 | Some w => Js.Int (w * 60 * 2)
                 | None => Js.NaN
                 end) Hk Hm Hh Hmd Hkm Hs) as Hbatch.
  cbv zeta in Hbatch.
  assert (Houtput : Js.or outputTokens (if 0 <? Js.or inputTokens 0 then 0 else tokens)
                    = output).
  { rewrite or_0. done. }
  unfold counted, incrementTokenUsage, incrementTokenUsage_commands.
  cbv zeta. rewrite Houtput, !or_0. fold daily. exact Hbatch.
Qed.

(** The theorem at work: one request of 10 input and 5 output tokens on a
    fresh client is one request more in the daily bucket. *)
Lemma incrementTokenUsage_daily_counters_witness :
  counter
    (incrementTokenUsage new_client bare_config 1700000000000 "k1" 15 10 5 0 0
       "claude-3-opus" 0 0 false)
    (usage_daily_key "k1" (getDateStringInTimezone bare_config 1700000000000))
    "requests"
  = counter new_client
      (usage_daily_key "k1" (getDateStringInTimezone bare_config 1700000000000))
      "requests" + 1.
Proof.
  refine (proj1 (incrementTokenUsage_daily_counters new_client bare_config
    1700000000000 "k1" 15 10 5 0 0 "claude-3-opus" 0 0 false _ _ _));
    intros; reflexivity.
Defined.

(** ** Model names *)

Lemma includes_cons (c : ascii) (r : string) :
  includes (String c r) ":" = false → c ≠ ":"%char ∧ includes r ":" = false.
Proof.
  unfold includes. rewrite !bool_decide_eq_false. cbn [String.index String.prefix].
  destruct (Ascii.ascii_dec ":" c) as [<-|Hne].
  - intros Hnone. destruct Hnone. destruct r; eauto.
  - intros Hnone. split; [done|]. intros [n Hn]. apply Hnone. rewrite Hn. eauto.
Qed.

Lemma drop_while_colon (p : ascii → bool) (s rest : string) :
  drop_while p s = String ":" rest → includes s ":" = true.
Proof.
  induction s as [|c s IH]; [done|]. cbn [drop_while].
  destruct (p c).
  - intros Hrest. apply IH in Hrest. unfold includes in *.
    apply bool_decide_eq_true in Hrest as [n Hn]. apply bool_decide_eq_true.
    cbn [String.index]. destruct (String.prefix ":" (String c s)); [eauto|].
    rewrite Hn. eauto.
  - intros [= -> ->]. unfold includes. apply bool_decide_eq_true.
    cbn [String.index String.prefix]. destruct (Ascii.ascii_dec ":" ":"); [|done].
    destruct rest; eauto.
Qed.

Lemma includes_further (c : ascii) (r : string) :
  includes r ":" = true → includes (String c r) ":" = true.
Proof.
  unfold includes. rewrite !bool_decide_eq_true. intros [n Hn].
  cbn [String.index]. destruct (String.prefix ":" (String c r)); [eauto|].
  rewrite Hn. eauto.
Qed.

(** A version tag [-v<digits>:<digits>] holds a colon. *)
Lemma is_version_tag_colon (s : string) :
  is_version_tag s = true → includes s ":" = true.
Proof.
  destruct s as [|c1 [|c2 [|c3 r]]]; try done.
  - cbn. by destruct c1 as [[] [] [] [] [] [] [] []].
  - cbn. destruct c1 as [[] [] [] [] [] [] [] []]; try done.
    by destruct c2 as [[] [] [] [] [] [] [] []].
  - unfold is_version_tag.
    destruct c1 as [[] [] [] [] [] [] [] []]; try done.
    destruct c2 as [[] [] [] [] [] [] [] []]; try done.
    intros Htag. apply andb_prop in Htag as [_ Htag].
    destruct (drop_while is_digit r) as [|c rest] eqn:Hdrop; [done|].
    destruct c as [[] [] [] [] [] [] [] []]; try done.
    do 3 apply includes_further. by eapply drop_while_colon.
Qed.

(** A suffix pattern that needs a colon removes nothing from a text that has
    none. *)
Lemma strip_suffix_no_colon (matches : string → bool) (s : string) :
  (∀ t, matches t = true → includes t ":" = true) →
  includes s ":" = false → strip_suffix matches s = s.
Proof.
  intros Hcolon. induction s as [|c s IH]; [done|]. intros Hnone.
  cbn [strip_suffix].
  destruct (matches (String c s)) eqn:Hmatch.
  - apply Hcolon in Hmatch. congruence.
  - f_equal. apply IH. by apply includes_cons in Hnone as [_ ?].
Qed.

(** X23. [_normalizeModelName] returns a model name unchanged when the name
    contains no colon and neither [.anthropic.] nor [.claude]. *)
Theorem normalizeModelName_keeps_plain_names (model : string) :
  includes model ":" = false →
  includes model ".anthropic." = false → includes model ".claude" = false →
  _normalizeModelName model = model.
Proof.
  intros Hcolon Hanthropic Hclaude. unfold _normalizeModelName.
  destruct (negb (Js.truthy model) || String.eqb model "unknown"); [done|].
  rewrite Hanthropic, Hclaude. cbn [orb].
  apply strip_suffix_no_colon; [|done].
  intros t Ht. apply orb_prop in Ht as [Ht|Ht].
  - by apply is_version_tag_colon.
  - apply String.eqb_eq in Ht. by subst t.
Qed.

(** The theorem at work: a plain model name comes back as it went in. *)
Lemma normalizeModelName_keeps_plain_names_witness :
  _normalizeModelName "claude-3-opus-20240229" = "claude-3-opus-20240229".
Proof.
  refine (normalizeModelName_keeps_plain_names "claude-3-opus-20240229" _ _ _);
    reflexivity.
Defined.

(** ** Pipelines *)

Lemma exec_results_app (first : list command) : ∀ (this : MemoryRedisClient) (now : Z)
    (rest : list command),
  exec this now (first ++ rest)
  = ((exec this now first).1 ++ (exec (exec this now first).2 now rest).1,
     (exec (exec this now first).2 now rest).2).
Proof.
  induction first as [|cmd first IH]; intros this now rest.
  - cbn. by destruct (exec this now rest).
  - cbn [app exec]. destruct (run_command this now cmd) as [r client].
    rewrite IH. destruct (exec client now first) as [rs client']. cbn [fst snd].
    by destruct (exec client' now rest).
Qed.

(** X24. [exec] of a pipeline returns one result for each queued command and
    runs the commands in order, each on the state the earlier ones left:
    executing one batch followed by another is executing the first and then
    the second. [pexpire] queues an [expire] with the milliseconds rounded up
    to whole seconds, so on an existing key a positive time gives a TTL that
    is no shorter than asked and less than a second longer. *)
Theorem exec_runs_commands_in_order (this : MemoryRedisClient) (now : Z)
    (first rest : list command) (key : string) (ms : Z) :
  let ran := exec this now first in
  List.length ran.1 = List.length first
  ∧ exec this now (first ++ rest)
    = (ran.1 ++ (exec ran.2 now rest).1, (exec ran.2 now rest).2)
  ∧ (∀ cmd, exec this now [cmd]
            = ([(run_command this now cmd).1], (run_command this now cmd).2))
  ∧ exec this now [pexpire key ms]
    = ([VNum (expire this now key (Js.Int (Js.ceil_div ms 1000))).1],
       (expire this now key (Js.Int (Js.ceil_div ms 1000))).2)
  ∧ (exists_key this key = true → 0 < ms →
     ttl (exec this now [pexpire key ms]).2 now key = Js.ceil_div ms 1000
     ∧ ms ≤ Js.ceil_div ms 1000 * 1000 < ms + 1000).
Proof.
  intros ran. split; [|split; [|split; [|split]]].
  - unfold ran. clear. revert this.
    induction first as [|cmd first IH]; intros this; [done|].
    cbn [exec]. destruct (run_command this now cmd) as [r client].
    specialize (IH client). destruct (exec client now first) as [rs client'].
    cbn in *. by rewrite IH.
  - apply exec_results_app.
  - intros cmd. cbn [exec]. by destruct (run_command this now cmd).
  - cbn [exec pexpire run_command]. by destruct (expire this now key _).
  - intros Hexists Hpos.
    assert (Hceil : ms ≤ Js.ceil_div ms 1000 * 1000 < ms + 1000).
    { unfold Js.ceil_div.
      pose proof (Z.div_mod (- ms) 1000 ltac:(lia)) as Hdiv.
      pose proof (Z.mod_pos_bound (- ms) 1000 ltac:(lia)) as Hmod. lia. }
    split; [|done].
    cbn [exec pexpire run_command].
    destruct (expire this now key _) as [r timed] eqn:Hexpire. cbn [snd].
    apply ttl_of_expiry; [lia|].
    replace timed with (expire this now key (Js.Int (Js.ceil_div ms 1000))).2
      by (by rewrite Hexpire).
    apply expire_held; [done|lia].
Qed.

(** ** Cost counters read back *)

Lemma get_settles (this : MemoryRedisClient) (now : Z) (key : string) :
  _isExpired (get this now key).2 now key = false.
Proof.
  unfold get. destruct (_isExpired this now key) eqn:Hexp; [|done].
  unfold _isExpired. cbn. by rewrite lookup_delete_eq.
Qed.

Lemma get_keeps_unexpired (this : MemoryRedisClient) (now : Z) (key key' : string) :
  _isExpired this now key' = false → _isExpired (get this now key).2 now key' = false.
Proof.
  intros Hheld. destruct (decide (key' = key)) as [->|Hne]; [apply get_settles|].
  unfold get. destruct (_isExpired this now key); [|done].
  unfold _isExpired in *. cbn. by rewrite lookup_delete_ne.
Qed.

Lemma get_depends (this this' : MemoryRedisClient) (now : Z) (key : string) :
  ttls this' !! key = ttls this !! key → store this' !! key = store this !! key →
  (get this' now key).1 = (get this now key).1.
Proof.
  intros Httl Hstore. unfold get, _isExpired. rewrite Httl.
  destruct (ttls this !! key) as [t|]; [destruct (Js.leb t (Js.Int now))|];
    cbn [fst]; by rewrite ?Hstore.
Qed.

Lemma get_other (this : MemoryRedisClient) (now : Z) (key key' : string) :
  key' ≠ key → (get (get this now key).2 now key').1 = (get this now key').1.
Proof.
  intros Hne. apply get_depends; unfold get;
    destruct (_isExpired this now key); cbn; by rewrite ?lookup_delete_ne.
Qed.

Lemma expire_keeps_unexpired (this : MemoryRedisClient) (now : Z) (key key' : string)
    (seconds : Z) :
  0 < seconds → _isExpired this now key' = false →
  _isExpired (expire this now key (Js.Int seconds)).2 now key' = false.
Proof.
  intros Hpos Hheld. unfold expire. destruct (exists_key this key); [|done].
  cbn [negb snd]. unfold _setExpiry. rewrite (proj2 (Z.ltb_lt 0 seconds)) by done.
  destruct (decide (key' = key)) as [->|Hne].
  - rewrite (isExpired_at _ _ (now + seconds * 1000)).
    + lia.
    + apply lookup_insert_eq.
  - unfold _isExpired in *. cbn [ttls with_ttls]. by rewrite lookup_insert_ne.
Qed.

Lemma cost_total_key_distinct (keyId today month hour : string) :
  cost_total_key keyId ≠ cost_daily_key keyId today
  ∧ cost_total_key keyId ≠ cost_monthly_key keyId month
  ∧ cost_total_key keyId ≠ cost_hourly_key keyId hour.
Proof.
  unfold cost_total_key, cost_daily_key, cost_monthly_key, cost_hourly_key.
  repeat split; intros Heq; cbn in Heq; discriminate.
Qed.

Section CostReadBack.
Context `{FloatArith}.

(** What [get] reads from a key that holds printed number and has not
    expired. *)
Lemma get_printed (this : MemoryRedisClient) (now : Z) (key : string) (x : float) :
  (∀ y, float_toString y ≠ "") →
  _isExpired this now key = false →
  store this !! key = Some (float_toString x) →
  get this now key = (Some (float_toString x), this).
Proof.
  intros Hprinted Hheld Hstored. unfold get. rewrite Hheld, Hstored.
  by rewrite (truthy_nonempty _ (Hprinted x)).
Qed.

(** The steps of [incrementDailyCost] over any four keys that are told
    apart. *)
Lemma cost_batch (this : MemoryRedisClient) (now : Z) (daily monthly hourly total : string)
    (amount : float) :
  daily ≠ monthly → daily ≠ hourly → daily ≠ total →
  monthly ≠ hourly → monthly ≠ total → hourly ≠ total →
  let after (key : string) :=
    float_toString (float_add (float_or0 (parseFloat (get this now key).1)) amount) in
  let final :=
    let '(readDaily, this) := get this now daily in
    let '(readMonthly, this) := get this now monthly in
    let '(readHourly, this) := get this now hourly in
    let '(readTotal, this) := get this now total in
    let '(_, this) := expire this now daily (Js.Int (86400 * 30)) in
    let '(_, this) := expire this now monthly (Js.Int (86400 * 90)) in
    let '(_, this) := expire this now hourly (Js.Int (86400 * 7)) in
    let '(_, this) := incrbyfloat_resume this now daily readDaily amount in
    let '(_, this) := incrbyfloat_resume this now monthly readMonthly amount in
    let '(_, this) := incrbyfloat_resume this now hourly readHourly amount in
    let '(_, this) := incrbyfloat_resume this now total readTotal amount in
    this in
  ∀ key, key ∈ [daily; monthly; hourly; total] →
    store final !! key = Some (after key) ∧ _isExpired final now key = false.
Proof.
  intros Hdm Hdh Hdt Hmh Hmt Hht after final.
  set (g1 := (get this now daily).2).
  set (g2 := (get g1 now monthly).2).
  set (g3 := (get g2 now hourly).2).
  set (g4 := (get g3 now total).2).
  set (e1 := (expire g4 now daily (Js.Int (86400 * 30))).2).
  set (e2 := (expire e1 now monthly (Js.Int (86400 * 90))).2).
  set (e3 := (expire e2 now hourly (Js.Int (86400 * 7))).2).
  assert (Hfinal : final
    = with_store (λ s, <[total := after total]> (<[hourly := after hourly]>
        (<[monthly := after monthly]> (<[daily := after daily]> s)))) e3).
  { assert (Hr2 : (get g1 now monthly).1 = (get this now monthly).1)
      by (by apply get_other).
    assert (Hr3 : (get g2 now hourly).1 = (get this now hourly).1)
      by (unfold g2, g1; by rewrite !get_other).
    assert (Hr4 : (get g3 now total).1 = (get this now total).1)
      by (unfold g3, g2, g1; by rewrite !get_other).
    unfold final, after. rewrite <- Hr2, <- Hr3, <- Hr4.
    unfold e3, e2, e1, g4, g3, g2, g1.
    destruct (get this now daily) as [r1 c1]. cbn [fst snd].
    destruct (get c1 now monthly) as [r2 c2]. cbn [fst snd].
    destruct (get c2 now hourly) as [r3 c3]. cbn [fst snd].
    destruct (get c3 now total) as [r4 c4]. cbn [fst snd].
    destruct (expire c4 now daily _) as [x1 c5]. cbn [fst snd].
    destruct (expire c5 now monthly _) as [x2 c6]. cbn [fst snd].
    destruct (expire c6 now hourly _) as [x3 c7]. cbn [fst snd].
    by destruct c7. }
  assert (Hheld : ∀ key, key ∈ [daily; monthly; hourly; total] →
            _isExpired e3 now key = false).
  { intros key Hkey. unfold e3, e2, e1.
    do 3 (apply expire_keeps_unexpired; [lia|]).
    unfold g4, g3, g2, g1.
    repeat (apply elem_of_cons in Hkey as [->|Hkey]);
      [..|by apply elem_of_nil in Hkey].
    - do 3 apply get_keeps_unexpired. apply get_settles.
    - do 2 apply get_keeps_unexpired. apply get_settles.
    - apply get_keeps_unexpired, get_settles.
    - apply get_settles. }
  intros key Hkey. rewrite Hfinal. split.
  - cbn [store with_store].
    repeat (apply elem_of_cons in Hkey as [->|Hkey]);
      [..|by apply elem_of_nil in Hkey].
    + rewrite !lookup_insert_ne by done. apply lookup_insert_eq.
    + rewrite !lookup_insert_ne by done. apply lookup_insert_eq.
    + rewrite !lookup_insert_ne by done. apply lookup_insert_eq.
    + apply lookup_insert_eq.
  - by apply Hheld.
Qed.

(** X25. Provided that numbers are parsed back from what they print as and
    that no number prints as the empty text, [getCostStats] right after
    [incrementDailyCost] reports for the daily, monthly, hourly and total
    counter the value read before (0 for a counter that is missing, expired or
    not a number) plus the amount. It leaves the state as it is, and
    [getDailyCost] returns the daily figure. *)
Theorem incrementDailyCost_then_getCostStats (this : MemoryRedisClient)
    (config : Config) (now : Z) (keyId : string) (amount : float) :
  (∀ x, parseFloat (Some (float_toString x)) = x) →
  (∀ x, float_toString x ≠ "") →
  let added := incrementDailyCost this config now keyId amount in
  let after (key : string) :=
    float_add (float_or0 (parseFloat (get this now key).1)) amount in
  let stats := getCostStats added config now keyId in
  cost_daily stats.1
  = after (cost_daily_key keyId (getDateStringInTimezone config now))
  ∧ cost_monthly stats.1 = after (cost_monthly_key keyId (month_string config now))
  ∧ cost_hourly stats.1 = after (cost_hourly_key keyId (hour_string config now))
  ∧ cost_total stats.1 = after (cost_total_key keyId)
  ∧ stats.2 = added
  ∧ getDailyCost added config now keyId = (cost_daily stats.1, added).
Proof.
  intros Hround Hprinted added after stats.
  pose proof (cost_keys_distinct keyId (getDateStringInTimezone config now)
                (month_string config now) (hour_string config now))
    as (Hdm & Hdh & Hmh).
  pose proof (cost_total_key_distinct keyId (getDateStringInTimezone config now)
                (month_string config now) (hour_string config now))
    as (Htd & Htm & Hth).
  pose proof (cost_batch this now _ _ _ _ amount Hdm Hdh (not_eq_sym Htd) Hmh
                (not_eq_sym Htm) (not_eq_sym Hth)) as Hbatch.
  cbv zeta in Hbatch.
  change (let '(readDaily, this0) := get this now _ in _) with added in Hbatch.
  unfold stats, getCostStats, getDailyCost. cbv zeta.
  set (daily := cost_daily_key _ _) in *.
  set (monthly := cost_monthly_key _ _) in *.
  set (hourly := cost_hourly_key _ _) in *.
  set (total := cost_total_key _) in *.
  clearbody daily monthly hourly total.
  pose proof (Hbatch daily ltac:(repeat constructor)) as [Hd Hd'].
  pose proof (Hbatch monthly ltac:(repeat constructor)) as [Hm Hm'].
  pose proof (Hbatch hourly ltac:(repeat constructor)) as [Hh Hh'].
  pose proof (Hbatch total ltac:(repeat constructor)) as [Ht Ht'].
  rewrite (get_printed added now daily _ Hprinted Hd' Hd).
  rewrite (get_printed added now monthly _ Hprinted Hm' Hm).
  rewrite (get_printed added now hourly _ Hprinted Hh' Hh).
  rewrite (get_printed added now total _ Hprinted Ht' Ht).
  cbn [fst snd cost_daily cost_monthly cost_hourly cost_total parseFloat_or0].
  by rewrite !Hround.
Qed.

End CostReadBack.

Lemma whole_amounts_round_trip (x : option Z) :
  @parseFloat whole_amounts (Some (@float_toString whole_amounts x)) = x.
Proof.
  destruct x as [z|]; [|done]. cbn. by rewrite parse_integer_toString.
Qed.

Lemma whole_amounts_printed (x : option Z) : @float_toString whole_amounts x ≠ "".
Proof.
  destruct x as [z|]; [|done]. cbn. intros Hempty.
  pose proof (toString_truthy z) as Htruthy. by rewrite Hempty in Htruthy.
Qed.

(** The theorem at work: with whole amounts, the total after 5 and then 7. *)
Lemma incrementDailyCost_then_getCostStats_witness :
  let first :=
    incrementDailyCost (H := whole_amounts) new_client bare_config 0 "k1" (Some 5) in
  cost_total (H := whole_amounts)
    (getCostStats (H := whole_amounts)
       (incrementDailyCost (H := whole_amounts) first bare_config 0 "k1" (Some 7))
       bare_config 0 "k1").1
  = @float_add whole_amounts
      (@float_or0 whole_amounts
         (@parseFloat whole_amounts (get first 0 (cost_total_key "k1")).1))
      (Some 7).
Proof.
  refine (proj1 (proj2 (proj2 (proj2
    (incrementDailyCost_then_getCostStats (H := whole_amounts)
       (incrementDailyCost (H := whole_amounts) new_client bare_config 0 "k1" (Some 5))
       bare_config 0 "k1" (Some 7) _ _))))).
  - exact whole_amounts_round_trip.
  - exact whole_amounts_printed.
Defined.
